(** * cli_template: the argparse templates [main.py] and [validators.py]

    The development has four layers.

    - [Py]: the Python built-ins the two scripts call ([str] slicing,
      [str.strip], [str.upper], [repr], [float(str)], [float * int],
      [int(float)]), with exceptions as an error monad.  Floats are IEEE
      binary64 values, computed with the rounding functions of [SpecFloat].
    - [Argparse]: the part of CPython 3.11's [argparse.ArgumentParser] that
      [parse_args] runs for the arguments the scripts declare.  Definitions
      carry the names of the methods they embed.
    - [Main]: [main.py] ([parse_size], [setup_parser], [main]).
    - [Validators]: [validators.py] ([file], [directory], [setup_parser]).

    A Python [str] is modelled by a [string], one [ascii] for each of its
    characters.  The built-ins of [Py] are the Python functions on the texts
    whose characters are all below 128 ([Py.isascii], Python's
    [str.isascii]); Python itself knows more digits, more spaces and more
    printable characters than these.  A statement that depends on what a
    built-in makes of a text (a slice, a conversion to [float], a [repr] in a
    message, the test for a negative number) assumes [Py.isascii] of that
    text. *)

From Stdlib Require Import ZArith Ascii String List Bool Lia.
From Stdlib Require Import Floats.SpecFloat.
From stdpp Require Import base option list gmap strings pretty.

Local Open Scope Z_scope.

(** ** Exceptions *)

(** The exceptions that can leave the two scripts.  [ArgumentError] is
    argparse's internal exception ([argument_name] is [None] when the action
    has no name); [SystemExit] is what [parser.exit] raises, with the text
    written to the error stream ([parser.error] prints the usage line before
    it, which is not modelled).  [OutOfFuel] is not a Python exception: it
    marks a loop of the model that ran out of its iteration bound; the
    statements about [main.py] below show that it never leaves [main]. *)
Inductive exn : Type :=
| ValueError (msg : string)
| KeyError (key : string)
| OverflowError (msg : string)
| ArgumentError (argument_name : option string) (message : string)
| SystemExit (status : Z) (message : string)
| OutOfFuel.

Inductive result (A : Type) : Type :=
| Ok (a : A)
| Raise (e : exn).
Arguments Ok {A} a.
Arguments Raise {A} e.

#[global] Instance result_ret : MRet result := fun A a => Ok a.
#[global] Instance result_bind : MBind result := fun A B f m =>
  match m with
  | Ok a => f a
  | Raise e => Raise e
  end.
#[global] Instance result_fmap : FMap result := fun A B f m =>
  match m with
  | Ok a => Ok (f a)
  | Raise e => Raise e
  end.

#[global] Instance exn_eq_dec : EqDecision exn.
Proof. solve_decision. Defined.

(** ** Python built-ins *)
Module Py.

(** *** Characters and strings *)

Definition ord (c : ascii) : nat := nat_of_ascii c.

(** [s.isascii()]: every character is below 128.  The functions of this
    module are stated for such texts. *)
Fixpoint isascii (s : string) : bool :=
  match s with
  | EmptyString => true
  | String c s' => (ord c <? 128)%nat && isascii s'
  end.

(** [str.isspace] on one ASCII character: TAB..CR, FS..US and SPACE (the
    Unicode spaces above 127 are outside the model). *)
Definition isspace (c : ascii) : bool :=
  let n := ord c in
  ((9 <=? n) && (n <=? 13) || (28 <=? n) && (n <=? 32))%nat.

(** An ASCII decimal digit; [float] and the regular expression [\d] also
    take the other Unicode decimal digits, which are outside the model. *)
Definition isdigit (c : ascii) : bool :=
  let n := ord c in ((48 <=? n) && (n <=? 57))%nat.

Definition islower (c : ascii) : bool :=
  let n := ord c in ((97 <=? n) && (n <=? 122))%nat.

Definition isupper (c : ascii) : bool :=
  let n := ord c in ((65 <=? n) && (n <=? 90))%nat.

Definition upper_char (c : ascii) : ascii :=
  if islower c then ascii_of_nat (ord c - 32) else c.

Definition lower_char (c : ascii) : ascii :=
  if isupper c then ascii_of_nat (ord c + 32) else c.

(** [s.upper()] and [s.lower()] *)
Fixpoint upper (s : string) : string :=
  match s with
  | EmptyString => EmptyString
  | String c s' => String (upper_char c) (upper s')
  end.

Fixpoint lower (s : string) : string :=
  match s with
  | EmptyString => EmptyString
  | String c s' => String (lower_char c) (lower s')
  end.

(** [s.lstrip()], [s.rstrip()] and [s.strip()] *)
Fixpoint lstrip (s : string) : string :=
  match s with
  | EmptyString => EmptyString
  | String c s' => if isspace c then lstrip s' else s
  end.

Fixpoint rstrip (s : string) : string :=
  match s with
  | EmptyString => EmptyString
  | String c s' =>
      match rstrip s' with
      | EmptyString => if isspace c then EmptyString else String c EmptyString
      | r => String c r
      end
  end.

Definition strip (s : string) : string := rstrip (lstrip s).

(** [s[:-k]] and [s[-k:]] for a positive [k]; positions count the
    characters of the [string], which are the characters of the [str] when
    the text is ASCII. *)
Definition slice_until_last (k : nat) (s : string) : string :=
  String.substring 0 (String.length s - k) s.

Definition slice_last (k : nat) (s : string) : string :=
  String.substring (String.length s - k) k s.

(** [s.startswith(p)] *)
Definition startswith (s p : string) : bool := String.prefix p s.

(** [c in s] for a character [c] *)
Fixpoint contains_char (c : ascii) (s : string) : bool :=
  match s with
  | EmptyString => false
  | String d s' => Ascii.eqb c d || contains_char c s'
  end.

(** [s.split(c, 1)] when [c] occurs in [s]: the text before the first [c]
    and the text after it. *)
Fixpoint split_once (c : ascii) (s : string) : option (string * string) :=
  match s with
  | EmptyString => None
  | String d s' =>
      if Ascii.eqb c d then Some (EmptyString, s')
      else match split_once c s' with
           | Some (a, b) => Some (String d a, b)
           | None => None
           end
  end.

(** [sep.join(l)] *)
Fixpoint join (sep : string) (l : list string) : string :=
  match l with
  | [] => ""
  | [x] => x
  | x :: rest => x +:+ sep +:+ join sep rest
  end.

Definition hex_digit (n : nat) : ascii :=
  ascii_of_nat (if (n <? 10)%nat then 48 + n else 87 + n).

(** One character of [repr(s)] inside the quote character [q], for an ASCII
    character: the printable ones stand for themselves. *)
Definition repr_char (q c : ascii) : string :=
  let n := ord c in
  if Ascii.eqb c q || Ascii.eqb c "\" then String "\" (String c "")
  else if (n =? 9)%nat then "\t"
  else if (n =? 10)%nat then "\n"
  else if (n =? 13)%nat then "\r"
  else if (n <? 32)%nat || (127 <=? n)%nat
       then String "\" (String "x" (String (hex_digit (n / 16))
                                       (String (hex_digit (n mod 16)) "")))
  else String c "".

Fixpoint repr_body (q : ascii) (s : string) : string :=
  match s with
  | EmptyString => EmptyString
  | String c s' => repr_char q c +:+ repr_body q s'
  end.

(** [repr(s)]: single quotes, unless [s] holds a single quote and no double
    quote. *)
Definition repr (s : string) : string :=
  let q : ascii :=
    if contains_char "'" s && negb (contains_char "034" s) then "034"%char
    else "'"%char in
  String q (repr_body q s +:+ String q "").

(** *** Floats *)

Definition prec : Z := 53.
Definition emax : Z := 1024.

(** A Python [float]: an IEEE 754 binary64 value. *)
Definition float : Type := spec_float.

(** [float(n)] for an [int], as [float * int] converts its right operand. *)
Definition float_of_int (n : Z) : result float :=
  match binary_normalize prec emax n 0 false with
  | S754_infinity _ => Raise (OverflowError "int too large to convert to float")
  | x => Ok x
  end.

(** [x * n] for a float [x] and an int [n] *)
Definition float_mul_int (x : float) (n : Z) : result float :=
  y ← float_of_int n;
  Ok (SFmul prec emax x y).

(** [int(x)]: truncation towards zero. *)
Definition int_of_float (x : float) : result Z :=
  match x with
  | S754_zero _ => Ok 0
  | S754_finite s m e => Ok (cond_Zopp s (Z.shiftl (Zpos m) e))
  | S754_infinity _ => Raise (OverflowError "cannot convert float infinity to integer")
  | S754_nan => Raise (ValueError "cannot convert float NaN to integer")
  end.

(** The binary64 value nearest to [(-1)^neg * m * 10^e] (ties to even), as
    [strtod] returns it: overflow gives an infinity, underflow a subnormal
    or a zero. *)
Definition float_of_decimal (neg : bool) (m : Z) (e : Z) : float :=
  match m with
  | Zpos p =>
      if 0 <=? e
      then binary_normalize prec emax (cond_Zopp neg (Zpos p * 10 ^ e)) 0 neg
      else SFdiv prec emax (S754_finite neg p 0)
                           (S754_finite false (Z.to_pos (10 ^ (- e))) 0)
  | _ => S754_zero neg
  end.

(** The longest prefix of decimal digits, and the rest. *)
Fixpoint span_digits (s : string) : string * string :=
  match s with
  | EmptyString => (EmptyString, EmptyString)
  | String c s' =>
      if isdigit c
      then let '(d, r) := span_digits s' in (String c d, r)
      else (EmptyString, s)
  end.

Fixpoint digits_value_from (acc : Z) (s : string) : Z :=
  match s with
  | EmptyString => acc
  | String c s' => digits_value_from (10 * acc + (Z.of_nat (ord c) - 48)) s'
  end.

Definition digits_value (s : string) : Z := digits_value_from 0 s.

(** An optional ['+'] or ['-']: whether the sign is negative, and the rest. *)
Definition parse_sign (s : string) : bool * string :=
  match s with
  | String "-" s' => (true, s')
  | String "+" s' => (false, s')
  | _ => (false, s)
  end.

(** The exponent part of a float literal: [e] or [E], an optional sign and
    one digit at least, up to the end of the text. *)
Definition parse_exponent (s : string) : option Z :=
  match s with
  | EmptyString => Some 0
  | String c s' =>
      if Ascii.eqb c "e" || Ascii.eqb c "E" then
        let '(neg, s'') := parse_sign s' in
        match span_digits s'' with
        | (String d ds, EmptyString) => Some (cond_Zopp neg (digits_value (String d ds)))
        | _ => None
        end
      else None
  end.

(** [digits [. digits] [exponent]] or [. digits [exponent]], the whole text. *)
Definition parse_decimal (neg : bool) (s : string) : option float :=
  let '(ip, r) := span_digits s in
  let '(fp, r') :=
    match r with
    | String "." r1 => span_digits r1
    | _ => (EmptyString, r)
    end in
  match ip +:+ fp with
  | EmptyString => None
  | String _ _ as ds =>
      match parse_exponent r' with
      | Some e => Some (float_of_decimal neg (digits_value ds)
                                         (e - Z.of_nat (String.length fp)))
      | None => None
      end
  end.

(** Underscores of a numeric literal: each one stands between two digits.
    Returns the text without them. *)
Fixpoint remove_underscores (prev : ascii) (s : string) : option string :=
  match s with
  | EmptyString => if Ascii.eqb prev "_" then None else Some EmptyString
  | String c s' =>
      if Ascii.eqb c "_" then
        if isdigit prev then remove_underscores c s' else None
      else if Ascii.eqb prev "_" && negb (isdigit c) then None
      else String c <$> remove_underscores c s'
  end.

(** [float(s)] for a [str]: surrounding whitespace is ignored; the text is
    an optionally signed [inf], [infinity] or [nan] in any case, or a decimal
    literal. *)
Definition float_of_str (s : string) : result float :=
  let err := Raise (ValueError ("could not convert string to float: " +:+ repr s)) in
  match remove_underscores "000" s with
  | None => err
  | Some t =>
      let '(neg, body) := parse_sign (strip t) in
      let low := lower body in
      if String.eqb low "inf" || String.eqb low "infinity" then Ok (S754_infinity neg)
      else if String.eqb low "nan" then Ok S754_nan
      else match parse_decimal neg body with
           | Some x => Ok x
           | None => err
           end
  end.

End Py.

(** ** argparse (CPython 3.11) *)
Module Argparse.

(** *** Values and actions *)

(** The Python values that reach a namespace.  [VSuppress] is the object
    [argparse.SUPPRESS], which the library tells apart by identity. *)
#[warnings="-register-all"]
Inductive value : Type :=
| VNone
| VBool (b : bool)
| VInt (n : Z)
| VStr (s : string)
| VPath (p : string)
| VList (l : list value)
| VSuppress.

#[global] Instance value_eq_dec : EqDecision value.
Proof.
  refine (fix go (x y : value) {struct x} : Decision (x = y) :=
    match x, y with
    | VNone, VNone => left _
    | VBool a, VBool b => cast_if (decide (a = b))
    | VInt a, VInt b => cast_if (decide (a = b))
    | VStr a, VStr b => cast_if (decide (a = b))
    | VPath a, VPath b => cast_if (decide (a = b))
    | VList a, VList b => cast_if (@decide (a = b) (@list_eq_dec _ go a b))
    | VSuppress, VSuppress => left _
    | _, _ => right _
    end); abstract congruence.
Defined.

(** [repr(v)] *)
Fixpoint repr_value (v : value) : string :=
  match v with
  | VNone => "None"
  | VBool true => "True"
  | VBool false => "False"
  | VInt n => pretty n
  | VStr s => Py.repr s
  | VPath p => "PosixPath(" +:+ Py.repr p +:+ ")"
  | VList l => "[" +:+ Py.join ", " (map repr_value l) +:+ "]"
  | VSuppress => Py.repr "==SUPPRESS=="
  end.

(** The [nargs] of an action: [None], ['?'], ['*'], ['+'] or an integer. *)
Inductive nargs_t : Type :=
| NargsNone
| OPTIONAL
| ZERO_OR_MORE
| ONE_OR_MORE
| NargsInt (n : nat).

#[global] Instance nargs_eq_dec : EqDecision nargs_t.
Proof. solve_decision. Defined.

(** A [type=] converter with its [__name__]. *)
Record type_func : Type := TypeFunc {
  type_name : string;
  type_call : string → result value }.

Inductive action_class : Type := StoreAction | StoreConstAction | HelpAction.

Record Action : Type := mkAction {
  option_strings : list string;
  dest : string;
  nargs : nargs_t;
  const : value;
  default : value;
  type : option type_func;
  choices : option (list value);
  required : bool;
  metavar : option string;
  action_class_of : action_class }.

(** [dest] and [metavar] are never [SUPPRESS] for the arguments the scripts
    declare.  Actions are compared by identity in Python; two actions of one
    parser differ in their option strings or, for positionals, in [dest]. *)
Definition action_eqb (a b : Action) : bool :=
  bool_decide (option_strings a = option_strings b ∧ dest a = dest b).

Definition action_in (a : Action) (l : list Action) : bool :=
  existsb (action_eqb a) l.

(** The parser object: [prog], and [_actions] in registration order.  The
    scripts leave [prefix_chars = '-'], [allow_abbrev = True],
    [fromfile_prefix_chars = None], [exit_on_error = True], and declare no
    groups, subparsers or parser-level defaults. *)
Record ArgumentParser : Type := mkParser {
  prog : string;
  actions : list Action }.

(** [_option_string_actions], a dict in insertion order *)
Definition option_string_actions (parser : ArgumentParser) : list (string * Action) :=
  a ← actions parser; (λ s, (s, a)) <$> option_strings a.

(** [d.get(k)] on a dict kept as a list of items *)
Fixpoint assoc {K A} `{EqDecision K} (k : K) (l : list (K * A)) : option A :=
  match l with
  | [] => None
  | (k', v) :: l' => if bool_decide (k = k') then Some v else assoc k l'
  end.

Definition get_positional_actions (parser : ArgumentParser) : list Action :=
  filter (λ a, option_strings a = []) (actions parser).

Definition in_prefix_chars (c : ascii) : bool := Ascii.eqb c "-".

(** [_negative_number_matcher]: [^-\d+$|^-\d*\.\d+$], where [$] also matches
    before a final newline; on ASCII text [\d] is [0-9]. *)
Definition at_end (s : string) : bool :=
  String.eqb s "" || String.eqb s (String "010" "").

Definition negative_number_matcher (s : string) : bool :=
  match s with
  | String "-" r =>
      let '(d, r') := Py.span_digits r in
      negb (String.eqb d "") && at_end r'
      || match r' with
         | String "." r'' =>
             let '(d', r''') := Py.span_digits r'' in
             negb (String.eqb d' "") && at_end r'''
         | _ => false
         end
  | _ => false
  end.

Definition has_negative_number_optionals (parser : ArgumentParser) : bool :=
  existsb (λ p, negative_number_matcher p.1) (option_string_actions parser).

(** [_get_action_name] *)
Definition get_action_name (argument : Action) : option string :=
  if negb (bool_decide (option_strings argument = [])) then
    Some (Py.join "/" (option_strings argument))
  else match metavar argument with
       | Some m => Some m
       | None => Some (dest argument)
       end.

(** [raise ArgumentError(action, message)] *)
Definition raise_ArgumentError {A} (action : Action) (message : string) : result A :=
  Raise (ArgumentError (get_action_name action) message).

(** [str(err)] for an [ArgumentError] *)
Definition ArgumentError_str (argument_name : option string) (message : string) : string :=
  match argument_name with
  | None => message
  | Some n => "argument " +:+ n +:+ ": " +:+ message
  end.

(** [parser.exit(status, message)] and [parser.error(message)] *)
Definition exit {A} (status : Z) (message : string) : result A :=
  Raise (SystemExit status message).

Definition error {A} (parser : ArgumentParser) (message : string) : result A :=
  exit 2 (prog parser +:+ ": error: " +:+ message +:+ String "010" "").

(** *** Registering arguments *)

(** The keyword arguments of [add_argument] that the scripts use; [None]
    stands for a keyword that is not passed.  [help=] only feeds the help
    text. *)
Record kwargs : Type := mkKwargs {
  kw_action : option string;
  kw_nargs : option nargs_t;
  kw_default : option value;
  kw_type : option type_func;
  kw_choices : option (list value) }.

(** [_get_optional_kwargs]: the destination is inferred from the first long
    option string, else from the first option string. *)
Fixpoint lstrip_prefix_chars (s : string) : string :=
  match s with
  | String c s' => if in_prefix_chars c then lstrip_prefix_chars s' else s
  | EmptyString => EmptyString
  end.

Fixpoint replace_char (a b : ascii) (s : string) : string :=
  match s with
  | EmptyString => EmptyString
  | String c s' => String (if Ascii.eqb c a then b else c) (replace_char a b s')
  end.

Definition is_long_option (s : string) : bool :=
  match s with
  | String _ (String c _) => in_prefix_chars c
  | _ => false
  end.

Definition infer_dest (args : list string) : result string :=
  let long_option_strings := filter (λ s, is_long_option s = true) args in
  let dest_option_string :=
    match long_option_strings with
    | s :: _ => s
    | [] => List.hd "" args
    end in
  let dest := lstrip_prefix_chars dest_option_string in
  if String.eqb dest "" then
    Raise (ValueError ("dest= is required for options like " +:+ Py.repr (List.last args "")))
  else Ok (replace_char "-" "_" dest).

(** [_check_conflict] with the default ['error'] handler *)
Definition check_conflict (parser : ArgumentParser) (action : Action) : result unit :=
  match filter (λ s, is_Some (assoc s (option_string_actions parser))) (option_strings action) with
  | [] => Ok ()
  | confl => raise_ArgumentError action
               ((if bool_decide (length confl = 1)%nat
                 then "conflicting option string: "
                 else "conflicting option strings: ") +:+ Py.join ", " confl)
  end.

Definition from_option {A} (d : A) (o : option A) : A :=
  match o with Some a => a | None => d end.

Definition starts_with_prefix_char (s : string) : bool :=
  match s with
  | String c _ => in_prefix_chars c
  | EmptyString => false
  end.

(** [add_argument] for the action classes the scripts use: the default
    ['store'], ['store_true'] and ['help']. *)
Definition add_argument (args : list string) (kw : kwargs)
    (parser : ArgumentParser) : result ArgumentParser :=
  let positional :=
    match args with
    | [a] => negb (starts_with_prefix_char a)
    | _ => false
    end in
  '(dest, option_strings, required) ←
    (if positional then
       (* _get_positional_kwargs *)
       let required :=
         negb (bool_decide (kw_nargs kw = Some OPTIONAL ∨ kw_nargs kw = Some ZERO_OR_MORE))
         || bool_decide (kw_nargs kw = Some ZERO_OR_MORE ∧ kw_default kw = None) in
       Ok (List.hd "" args, [], required)
     else
       (* _get_optional_kwargs *)
       match filter (λ s, starts_with_prefix_char s = false) args with
       | bad :: _ =>
           Raise (ValueError ("invalid option string " +:+ Py.repr bad +:+
                              ": must start with a character '-'"))
       | [] => dest ← infer_dest args; Ok (dest, args, false)
       end);
  action ←
    match kw_action kw with
    | None | Some "store" =>
        if bool_decide (kw_nargs kw = Some (NargsInt 0)) then
          Raise (ValueError "nargs for store actions must be != 0")
        else
          Ok (mkAction option_strings dest (from_option NargsNone (kw_nargs kw)) VNone
                       (from_option VNone (kw_default kw)) (kw_type kw) (kw_choices kw)
                       required None StoreAction)
    | Some "store_true" =>
        Ok (mkAction option_strings dest (NargsInt 0) (VBool true)
                     (from_option (VBool false) (kw_default kw)) None None
                     required None StoreConstAction)
    | Some "help" =>
        Ok (mkAction option_strings dest (NargsInt 0) VNone
                     (from_option VSuppress (kw_default kw)) None None
                     false None HelpAction)
    | Some other => Raise (ValueError ("unknown action " +:+ Py.repr other))
    end;
  _ ← check_conflict parser action;
  Ok (mkParser (prog parser) (actions parser ++ [action])).

(** [os.path.basename] on a POSIX path *)
Fixpoint basename (p : string) : string :=
  match p with
  | EmptyString => EmptyString
  | String c p' =>
      if Py.contains_char "/" p then basename p' else p
  end.

(** [ArgumentParser(...)]: [prog] comes from [sys.argv[0]], and [add_help]
    registers [-h/--help]. *)
Definition ArgumentParser_init (argv0 : string) : result ArgumentParser :=
  add_argument ["-h"; "--help"]
    (mkKwargs (Some "help") None (Some VSuppress) None None)
    (mkParser (basename argv0) []).

(** *** Matching argument patterns *)

(** One character of [arg_strings_pattern]: ['O'] for an option string,
    ['A'] for an argument, ['-'] for ["--"]. *)
Inductive pat : Type := PO | PA | PDash.

#[global] Instance pat_eq_dec : EqDecision pat.
Proof. solve_decision. Defined.

(** The regular expressions of [_get_nargs_pattern] are sequences of
    [c], [c?] and [[cs]*] (with [c*] as [[c]*]) inside one group. *)
Inductive re_item : Type :=
| ReChar (c : pat)
| ReOpt (c : pat)
| ReStar (cs : list pat).

#[global] Instance re_item_eq_dec : EqDecision re_item.
Proof. solve_decision. Defined.

Definition re_group : Type := list re_item.

(** Length of the longest prefix of [s] made of characters of [cs]. *)
Fixpoint count_prefix (cs : list pat) (s : list pat) : nat :=
  match s with
  | x :: s' => if bool_decide (x ∈ cs) then S (count_prefix cs s') else 0%nat
  | [] => 0%nat
  end.

Fixpoint countdown (n : nat) : list nat :=
  match n with
  | O => [0%nat]
  | S m => n :: countdown m
  end.

(** The lengths an item can consume at the head of [s], in the order a
    backtracking matcher tries them (quantifiers are greedy). *)
Definition item_matches (it : re_item) (s : list pat) : list nat :=
  match it, s with
  | ReChar c, x :: _ => if bool_decide (x = c) then [1%nat] else []
  | ReChar c, [] => []
  | ReOpt c, x :: _ => if bool_decide (x = c) then [1%nat; 0%nat] else [0%nat]
  | ReOpt c, [] => [0%nat]
  | ReStar cs, _ => countdown (count_prefix cs s)
  end.

Fixpoint group_matches (g : re_group) (s : list pat) : list nat :=
  match g with
  | [] => [0%nat]
  | it :: g' =>
      n ← item_matches it s; (λ k, (n + k)%nat) <$> group_matches g' (drop n s)
  end.

Fixpoint first_some {A B} (f : A → option B) (l : list A) : option B :=
  match l with
  | [] => None
  | a :: l' => match f a with Some b => Some b | None => first_some f l' end
  end.

(** [re.match] of a concatenation of groups against [s]: the length of each
    group in the first match found, if there is one. *)
Fixpoint re_match (gs : list re_group) (s : list pat) : option (list nat) :=
  match gs with
  | [] => Some []
  | g :: gs' =>
      first_some (λ n, cons n <$> re_match gs' (drop n s)) (group_matches g s)
  end.

(** [_get_nargs_pattern] *)
Fixpoint join_A (n : nat) : re_group :=
  match n with
  | O => []
  | S O => [ReChar PA]
  | S m => ReChar PA :: ReStar [PDash] :: join_A m
  end.

Definition remove_dashes (g : re_group) : re_group :=
  (* nargs_pattern.replace('-*', '') *)
  let g := filter (λ it, it ≠ ReStar [PDash]) g in
  (* nargs_pattern.replace('-', '') *)
  (λ it, match it with
         | ReStar cs => ReStar (filter (λ c, c ≠ PDash) cs)
         | _ => it
         end) <$> filter (λ it, it ≠ ReChar PDash ∧ it ≠ ReOpt PDash) g.

Definition get_nargs_pattern (action : Action) : re_group :=
  let nargs_pattern :=
    match nargs action with
    | NargsNone => [ReStar [PDash]; ReChar PA; ReStar [PDash]]
    | OPTIONAL => [ReStar [PDash]; ReOpt PA; ReStar [PDash]]
    | ZERO_OR_MORE => [ReStar [PDash]; ReStar [PA; PDash]]
    | ONE_OR_MORE => [ReStar [PDash]; ReChar PA; ReStar [PA; PDash]]
    | NargsInt n => ReStar [PDash] :: join_A n ++ [ReStar [PDash]]
    end in
  if bool_decide (option_strings action ≠ []) then remove_dashes nargs_pattern
  else nargs_pattern.

(** [_match_argument] *)
Definition match_argument (action : Action) (arg_strings_pattern : list pat) : result nat :=
  match re_match [get_nargs_pattern action] arg_strings_pattern with
  | Some [n] => Ok n
  | _ =>
      raise_ArgumentError action
        match nargs action with
        | NargsNone => "expected one argument"
        | OPTIONAL => "expected at most one argument"
        | ONE_OR_MORE => "expected at least one argument"
        | ZERO_OR_MORE => "expected * arguments"
        | NargsInt 1 => "expected 1 argument"
        | NargsInt n => "expected " +:+ pretty n +:+ " arguments"
        end
  end.

(** [_match_arguments_partial]: the longest beginning of [actions] whose
    patterns match. *)
Fixpoint match_arguments_partial_upto (i : nat) (actions : list Action)
    (arg_strings_pattern : list pat) : list nat :=
  match i with
  | O => []
  | S j =>
      match re_match (get_nargs_pattern <$> take i actions) arg_strings_pattern with
      | Some counts => counts
      | None => match_arguments_partial_upto j actions arg_strings_pattern
      end
  end.

Definition match_arguments_partial (actions : list Action)
    (arg_strings_pattern : list pat) : list nat :=
  match_arguments_partial_upto (length actions) actions arg_strings_pattern.

(** *** Recognising option strings *)

(** [(action, option_string, explicit_arg)] *)
Definition option_tuple : Type := option Action * string * option string.

(** [_get_option_tuples] *)
Definition get_option_tuples (parser : ArgumentParser) (option_string : string)
    : result (list option_tuple) :=
  let c0 := from_option "000"%char (String.get 0 option_string) in
  let c1 := from_option "000"%char (String.get 1 option_string) in
  if in_prefix_chars c0 && in_prefix_chars c1 then
    (* two prefix characters: only split at the '=' (allow_abbrev) *)
    let '(option_prefix, explicit_arg) :=
      match Py.split_once "=" option_string with
      | Some (p, e) => (p, Some e)
      | None => (option_string, None)
      end in
    Ok (omap (λ '(s, action),
                if Py.startswith s option_prefix
                then Some (Some action, s, explicit_arg) else None)
             (option_string_actions parser))
  else if in_prefix_chars c0 && negb (in_prefix_chars c1) then
    (* a single prefix character: a short option may carry its argument *)
    let option_prefix := option_string in
    let short_option_prefix := String.substring 0 2 option_string in
    let short_explicit_arg :=
      String.substring 2 (String.length option_string - 2) option_string in
    Ok (omap (λ '(s, action),
                if String.eqb s short_option_prefix
                then Some (Some action, s, Some short_explicit_arg)
                else if Py.startswith s option_prefix
                then Some (Some action, s, None) else None)
             (option_string_actions parser))
  else error parser ("unexpected option string: " +:+ option_string).

(** [_parse_optional]: [None] for a positional, else an option tuple. *)
Definition parse_optional (parser : ArgumentParser) (arg_string : string)
    : result (option option_tuple) :=
  match arg_string with
  | EmptyString => Ok None
  | String c0 rest =>
      if negb (in_prefix_chars c0) then Ok None
      else match assoc arg_string (option_string_actions parser) with
      | Some action => Ok (Some (Some action, arg_string, None))
      | None =>
      if String.eqb rest "" then Ok None
      else
        let by_equals :=
          match Py.split_once "=" arg_string with
          | Some (option_string, explicit_arg) =>
              match assoc option_string (option_string_actions parser) with
              | Some action => Some (Some action, option_string, Some explicit_arg)
              | None => None
              end
          | None => None
          end in
        match by_equals with
        | Some t => Ok (Some t)
        | None =>
            option_tuples ← get_option_tuples parser arg_string;
            match option_tuples with
            | _ :: _ :: _ =>
                error parser
                  ("ambiguous option: " +:+ arg_string +:+ " could match " +:+
                   Py.join ", " ((λ t : option_tuple, t.1.2) <$> option_tuples))
            | [t] => Ok (Some t)
            | [] =>
                if negative_number_matcher arg_string
                   && negb (has_negative_number_optionals parser) then Ok None
                else if Py.contains_char " " arg_string then Ok None
                else Ok (Some (None, arg_string, None))
            end
        end
      end
  end.

(** What the first loop of [_parse_known_args] records for an argument
    string: its pattern character, with the option tuple kept in
    [option_string_indices] for an ['O']. *)
Inductive arg_class : Type :=
| ClsOption (t : option_tuple)
| ClsArgument
| ClsDashDash.

Definition pat_of (c : arg_class) : pat :=
  match c with
  | ClsOption _ => PO
  | ClsArgument => PA
  | ClsDashDash => PDash
  end.

Fixpoint classify (parser : ArgumentParser) (arg_strings : list string)
    : result (list arg_class) :=
  match arg_strings with
  | [] => Ok []
  | arg_string :: rest =>
      if String.eqb arg_string "--" then
        (* all args after -- are non-options *)
        Ok (ClsDashDash :: ((λ _, ClsArgument) <$> rest))
      else
        option_tuple ← parse_optional parser arg_string;
        classes ← classify parser rest;
        Ok (match option_tuple with
            | None => ClsArgument
            | Some t => ClsOption t
            end :: classes)
  end.

(** *** Converting values *)

(** [_get_value] *)
Definition get_value (action : Action) (arg_string : string) : result value :=
  match type action with
  | None => Ok (VStr arg_string)          (* the registered identity *)
  | Some type_func =>
      match type_call type_func arg_string with
      | Ok v => Ok v
      | Raise (ValueError _) =>
          raise_ArgumentError action
            ("invalid " +:+ type_name type_func +:+ " value: " +:+ Py.repr arg_string)
      | Raise e => Raise e
      end
  end.

(** [_check_value] *)
Definition check_value (action : Action) (v : value) : result unit :=
  match choices action with
  | Some cs =>
      if bool_decide (v ∈ cs) then Ok ()
      else raise_ArgumentError action
             ("invalid choice: " +:+ repr_value v +:+ " (choose from " +:+
              Py.join ", " (repr_value <$> cs) +:+ ")")
  | None => Ok ()
  end.

(** [arg_strings.remove('--')]: the first ["--"] goes. *)
Fixpoint remove_first (x : string) (l : list string) : list string :=
  match l with
  | [] => []
  | y :: l' => if String.eqb y x then l' else y :: remove_first x l'
  end.

Fixpoint mapM {A B} (f : A → result B) (l : list A) : result (list B) :=
  match l with
  | [] => Ok []
  | a :: l' => b ← f a; bs ← mapM f l'; Ok (b :: bs)
  end.

(** [_get_values] *)
Definition get_values (action : Action) (arg_strings : list string) : result value :=
  let arg_strings := remove_first "--" arg_strings in
  if bool_decide (arg_strings = [] ∧ nargs action = OPTIONAL) then
    let v := if bool_decide (option_strings action ≠ []) then const action
             else default action in
    match v with
    | VStr s => v' ← get_value action s; _ ← check_value action v'; Ok v'
    | _ => Ok v
    end
  else if bool_decide (arg_strings = [] ∧ nargs action = ZERO_OR_MORE
                       ∧ option_strings action = []) then
    let v := if bool_decide (default action ≠ VNone) then default action
             else VList [] in
    _ ← check_value action v; Ok v
  else
    match arg_strings, bool_decide (nargs action = NargsNone ∨ nargs action = OPTIONAL) with
    | [arg_string], true =>
        v ← get_value action arg_string; _ ← check_value action v; Ok v
    | _, _ =>
        vs ← mapM (get_value action) arg_strings;
        _ ← mapM (check_value action) vs;
        Ok (VList vs)
    end.

(** *** The parsing loop *)

(** What [_parse_known_args] mutates: the namespace, [seen_actions],
    [extras] and the positionals still to be parsed. *)
Record state : Type := mkState {
  namespace : gmap string value;
  seen_actions : list Action;
  extras : list string;
  positionals : list Action }.

Fixpoint foldM {A S} (f : S → A → result S) (s : S) (l : list A) : result S :=
  match l with
  | [] => Ok s
  | a :: l' => s' ← f s a; foldM f s' l'
  end.

(** [action(parser, namespace, values, option_string)] *)
Definition call_action (action : Action) (namespace : gmap string value)
    (values : value) : result (gmap string value) :=
  match action_class_of action with
  | StoreAction => Ok (<[dest action := values]> namespace)
  | StoreConstAction => Ok (<[dest action := const action]> namespace)
  | HelpAction => exit 0 ""       (* print_help() to stdout, then exit() *)
  end.

(** [take_action]; there are no mutually exclusive groups. *)
Definition take_action (st : state) (action : Action) (argument_strings : list string)
    : result state :=
  let seen := action :: seen_actions st in
  argument_values ← get_values action argument_strings;
  if bool_decide (argument_values = VSuppress) then
    Ok (mkState (namespace st) seen (extras st) (positionals st))
  else
    ns ← call_action action (namespace st) argument_values;
    Ok (mkState ns seen (extras st) (positionals st)).

Definition action_tuple : Type := Action * list string * string.

(** [option_string_indices], a dict from the index of an option string to
    its option tuple, filled in increasing order of the indices. *)
Fixpoint option_string_indices_from (i : nat) (classes : list arg_class)
    : list (nat * option_tuple) :=
  match classes with
  | [] => []
  | ClsOption t :: classes' => (i, t) :: option_string_indices_from (S i) classes'
  | _ :: classes' => option_string_indices_from (S i) classes'
  end.

Section ParseKnownArgs.
Variable parser : ArgumentParser.
Variable arg_strings : list string.
(** The result of the first loop: one class per argument string. *)
Variable classes : list arg_class.

Definition arg_strings_pattern : list pat := pat_of <$> classes.

Definition option_string_indices : list (nat * option_tuple) :=
  option_string_indices_from 0 classes.

(** [consume_optional], the branch without an explicit argument: the
    option takes what its pattern matches of the following strings. *)
Definition consume_optional_following (start_index : nat) (action : Action)
    (option_string : string) (action_tuples : list action_tuple)
    : result (list action_tuple * nat) :=
  let start := (start_index + 1)%nat in
  let selected_patterns := drop start arg_strings_pattern in
  arg_count ← match_argument action selected_patterns;
  let stop := (start + arg_count)%nat in
  let args := take arg_count (drop start arg_strings) in
  Ok (action_tuples ++ [(action, args, option_string)], stop).

(** [consume_optional], the branch with an explicit argument; a
    single-dash option without arguments hands the rest of the string to
    the next single-dash option ([-xyz] is [-x -y -z]). *)
Fixpoint consume_optional_explicit (start_index : nat) (action : Action)
    (option_string : string) (explicit_arg : string)
    (action_tuples : list action_tuple) {struct explicit_arg}
    : result (list action_tuple * nat) :=
  arg_count ← match_argument action [PA];
  let second := from_option "000"%char (String.get 1 option_string) in
  match bool_decide (arg_count = 0%nat) && negb (in_prefix_chars second), explicit_arg with
  | true, String c new_explicit_arg =>
      let action_tuples := action_tuples ++ [(action, [], option_string)] in
      let char := from_option "000"%char (String.get 0 option_string) in
      let option_string' := String char (String c "") in
      match assoc option_string' (option_string_actions parser) with
      | Some action' =>
          match new_explicit_arg with
          | EmptyString =>
              consume_optional_following start_index action' option_string' action_tuples
          | String _ _ =>
              consume_optional_explicit start_index action' option_string'
                                        new_explicit_arg action_tuples
          end
      | None =>
          raise_ArgumentError action ("ignored explicit argument " +:+ Py.repr explicit_arg)
      end
  | _, _ =>
      if bool_decide (arg_count = 1%nat) then
        Ok (action_tuples ++ [(action, [explicit_arg], option_string)],
            (start_index + 1)%nat)
      else
        raise_ArgumentError action ("ignored explicit argument " +:+ Py.repr explicit_arg)
  end.

(** [consume_optional] *)
Definition consume_optional (start_index : nat) (st : state) : result (nat * state) :=
  match assoc start_index option_string_indices with
  | None => Raise (KeyError (pretty start_index))
  | Some (None, _, _) =>
      (* no optional action found: skip the string *)
      Ok ((start_index + 1)%nat,
          mkState (namespace st) (seen_actions st)
                  (extras st ++ [arg_strings !!! start_index]) (positionals st))
  | Some (Some action, option_string, explicit_arg) =>
      '(action_tuples, stop) ←
        match explicit_arg with
        | Some e => consume_optional_explicit start_index action option_string e []
        | None => consume_optional_following start_index action option_string []
        end;
      st ← foldM (λ st '(action, args, _), take_action st action args) st action_tuples;
      Ok (stop, st)
  end.

(** [consume_positionals] *)
Definition consume_positionals (start_index : nat) (st : state) : result (nat * state) :=
  let selected_pattern := drop start_index arg_strings_pattern in
  let arg_counts := match_arguments_partial (positionals st) selected_pattern in
  '(start_index, st) ←
    foldM (λ '(start_index, st) '(action, arg_count),
             let args := take arg_count (drop start_index arg_strings) in
             st ← take_action st action args;
             Ok ((start_index + arg_count)%nat, st))
          (start_index, st) (zip (positionals st) arg_counts);
  Ok (start_index,
      mkState (namespace st) (seen_actions st) (extras st)
              (drop (length arg_counts) (positionals st))).

(** [max(option_string_indices)], or -1 without option strings *)
Definition max_option_string_index : Z :=
  match option_string_indices with
  | [] => -1
  | _ => Z.of_nat (foldr Nat.max 0%nat (fst <$> option_string_indices))
  end.

(** [min([index for index in option_string_indices if index >= start_index])] *)
Definition next_option_string_index (start_index : nat) : nat :=
  match filter (λ i, start_index ≤ i)%nat (fst <$> option_string_indices) with
  | [] => 0%nat
  | i :: l => foldr Nat.min i l
  end.

(** The [while start_index <= max_option_string_index] loop: consume
    positionals and optionals alternately.  [fuel] bounds the number of
    iterations. *)
Fixpoint consume_loop (fuel : nat) (start_index : nat) (st : state)
    : result (nat * state) :=
  if Z.of_nat start_index <=? max_option_string_index then
    match fuel with
    | O => Raise OutOfFuel
    | S fuel' =>
        let next := next_option_string_index start_index in
        (* consume any positionals preceding the next option *)
        '(continue, start_index, st) ←
          (if bool_decide (start_index ≠ next) then
             '(positionals_end_index, st) ← consume_positionals start_index st;
             Ok (bool_decide (start_index < positionals_end_index)%nat,
                 positionals_end_index, st)
           else Ok (false, start_index, st));
        if continue : bool then consume_loop fuel' start_index st
        else
          (* strings that no positional took are extras *)
          let '(start_index, st) :=
            if bool_decide (assoc start_index option_string_indices = None) then
              (next,
               mkState (namespace st) (seen_actions st)
                       (extras st ++ take (next - start_index) (drop start_index arg_strings))
                       (positionals st))
            else (start_index, st) in
          (* consume the next optional and any arguments for it *)
          '(start_index, st) ← consume_optional start_index st;
          consume_loop fuel' start_index st
    end
  else Ok (start_index, st).

End ParseKnownArgs.

(** One step of the loop over [self._actions] that ends
    [_parse_known_args]: an action that was not seen is recorded when it is
    required, else its string default is converted if the namespace still
    holds it ([default is getattr(namespace, dest)], modelled by equality). *)
Definition convert_default (seen : list Action)
    (acc : list string * gmap string value) (action : Action)
    : result (list string * gmap string value) :=
  let '(required_actions, ns) := acc in
  if action_in action seen then Ok (required_actions, ns)
  else if required action then
    Ok (required_actions ++ [from_option "None" (get_action_name action)], ns)
  else
    match default action with
    | VStr s =>
        if bool_decide (ns !! dest action = Some (default action)) then
          v ← get_value action s; Ok (required_actions, <[dest action := v]> ns)
        else Ok (required_actions, ns)
    | _ => Ok (required_actions, ns)
    end.

(** [_parse_known_args] *)
Definition _parse_known_args (parser : ArgumentParser) (arg_strings : list string)
    (ns : gmap string value) : result (gmap string value * list string) :=
  (* find all option indices, and determine the arg_string_pattern *)
  classes ← classify parser arg_strings;
  let st := mkState ns [] [] (get_positional_actions parser) in
  (* consume positionals and optionals alternately, until we have passed
     the last option string *)
  '(start_index, st) ←
    consume_loop parser arg_strings classes (S (length arg_strings)) 0 st;
  (* consume any positionals following the last optional *)
  '(stop_index, st) ← consume_positionals arg_strings classes start_index st;
  (* if we didn't consume all the argument strings, there were extras *)
  let extras := extras st ++ drop stop_index arg_strings in
  (* make sure all required actions were present and also convert action
     defaults which were not given as arguments *)
  '(required_actions, ns) ←
    foldM (convert_default (seen_actions st)) ([], namespace st) (actions parser);
  if bool_decide (required_actions ≠ []) then
    error parser ("the following arguments are required: " +:+
                  Py.join ", " required_actions)
  else Ok (ns, extras).

(** [parse_known_args]: defaults go to the attributes the namespace does not
    have yet; an [ArgumentError] becomes [parser.error]. *)
Definition add_default (ns : gmap string value) (action : Action) : gmap string value :=
  match ns !! dest action with
  | Some _ => ns
  | None =>
      if bool_decide (default action ≠ VSuppress)
      then <[dest action := default action]> ns
      else ns
  end.

Definition parse_known_args (parser : ArgumentParser) (args : list string)
    (ns : gmap string value) : result (gmap string value * list string) :=
  let ns := foldl add_default ns (actions parser) in
  match _parse_known_args parser args ns with
  | Raise (ArgumentError argument_name message) =>
      error parser (ArgumentError_str argument_name message)
  | r => r
  end.

(** [parse_args] *)
Definition parse_args (parser : ArgumentParser) (args : list string)
    (ns : gmap string value) : result (gmap string value) :=
  '(args, argv) ← parse_known_args parser args ns;
  if bool_decide (argv ≠ []) then
    error parser ("unrecognized arguments: " +:+ Py.join " " argv)
  else Ok args.

End Argparse.
(** ** main.py *)
Module Main.
Import Argparse.

(** [parse_size], lines 216-221 *)
Definition units : gmap string Z :=
  {[ "B" := 1; "KB" := 1024; "MB" := 1024 * 1024; "GB" := 1024 * 1024 * 1024 ]}.

Definition getitem (d : gmap string Z) (k : string) : result Z :=
  match d !! k with
  | Some v => Ok v
  | None => Raise (KeyError k)
  end.

Definition parse_size (size_str : string) : result Z :=
  size ← Py.float_of_str (Py.strip (Py.slice_until_last 2 size_str));
  let unit := Py.upper (Py.slice_last 2 size_str) in
  factor ← getitem units unit;
  product ← Py.float_mul_int size factor;
  Py.int_of_float product.

(** [type=parse_size] *)
Definition parse_size_type : type_func :=
  TypeFunc "parse_size" (λ s, VInt <$> parse_size s).

(** The parser that [setup_parser] builds, lines 28-187.  [argv0] is
    [sys.argv[0]]. *)
Definition build_parser (argv0 : string) : result ArgumentParser :=
  parser ← ArgumentParser_init argv0;
  (* Required positional argument *)
  parser ← add_argument ["source"] (mkKwargs None None None None None) parser;
  (* Optional positional with default *)
  parser ← add_argument ["optional_destination"]
             (mkKwargs None (Some OPTIONAL) (Some (VStr "default_value")) None None) parser;
  (* Any number of arguments *)
  parser ← add_argument ["--files"]
             (mkKwargs None (Some ZERO_OR_MORE) (Some (VList [])) None None) parser;
  (* One or more arguments *)
  parser ← add_argument ["--required-files"]
             (mkKwargs None (Some ONE_OR_MORE) None None None) parser;
  (* On/off settings *)
  parser ← add_argument ["-v"; "--verbose"]
             (mkKwargs (Some "store_true") None None None None) parser;
  (* Choice from predefined options *)
  parser ← add_argument ["-m"; "--mode"]
             (mkKwargs None None (Some (VStr "auto")) None
                       (Some [VStr "auto"; VStr "manual"])) parser;
  (* Custom type conversion *)
  parser ← add_argument ["-s"; "--size"]
             (mkKwargs None None (Some (VStr "1MB")) (Some parse_size_type) None) parser;
  Ok parser.

(** [setup_parser], lines 26-207.  [argv] is [sys.argv]; the namespace is
    the class [FileProcessorNamespace] itself, so [cls] holds the attributes
    the class has when the call starts (none right after the class
    statement), and the result holds those it has at the end. *)
Definition setup_parser (argv : list string) (cls : gmap string value)
    : result (gmap string value) :=
  parser ← build_parser (List.hd "" argv);
  parse_args parser (List.tl argv) cls.

(** The class right after its definition: annotations only. *)
Definition FileProcessorNamespace : gmap string value := ∅.

(** [main], lines 224-236: the mapping that is printed. *)
Definition main (argv : list string) : result (gmap string value) :=
  pargs ← setup_parser argv FileProcessorNamespace;
  Ok (filter (λ kv, Py.startswith kv.1 "_" = false) pargs).

End Main.

(** ** validators.py *)
Module Validators.
Import Argparse.

(** What a path names on the file system ([os.path] follows symbolic
    links): nothing, a regular file, a directory, or something else (a
    device, a socket, a FIFO). *)
Inductive file_type : Type := RegularFile | Directory | OtherFile.

#[global] Instance file_type_eq_dec : EqDecision file_type.
Proof. solve_decision. Defined.

Definition filesystem : Type := string → option file_type.

Section Converters.
Variable fs : filesystem.

Definition os_path_exists (path : string) : bool := bool_decide (is_Some (fs path)).
Definition os_path_isfile (path : string) : bool := bool_decide (fs path = Some RegularFile).
Definition os_path_isdir (path : string) : bool := bool_decide (fs path = Some Directory).

(** [file], lines 12-20 *)
Definition file (path : string) : result value :=
  if negb (os_path_exists path) then
    Raise (ValueError ("Expected file, doesn't exist: '" +:+ path +:+ "'"))
  else if negb (os_path_isfile path) then
    Raise (ValueError ("Expected file, received non-file: '" +:+ path +:+ "'"))
  else Ok (VPath path).

(** [directory], lines 23-30 *)
Definition directory (path : string) : result value :=
  if negb (os_path_exists path) then
    Raise (ValueError ("Expected directory, doesn't exist: '" +:+ path +:+ "'"))
  else if negb (os_path_isdir path) then
    Raise (ValueError ("Expected directory, received non-directory: '" +:+ path +:+ "'"))
  else Ok (VPath path).

(** The parser of [setup_parser], lines 34-66 *)
Definition build_parser (argv0 : string) : result ArgumentParser :=
  parser ← ArgumentParser_init argv0;
  parser ← add_argument ["source_directory"]
             (mkKwargs None None None (Some (TypeFunc "directory" directory)) None) parser;
  parser ← add_argument ["files"]
             (mkKwargs None (Some ONE_OR_MORE) None (Some (TypeFunc "file" file)) None) parser;
  Ok parser.

(** [setup_parser], lines 33-81: [parse_args()] fills a new [Namespace]. *)
Definition setup_parser (argv : list string) : result (gmap string value) :=
  parser ← build_parser (List.hd "" argv);
  parse_args parser (List.tl argv) ∅.

(** [main], lines 84-89: the mapping [vars(pargs)] that is printed. *)
Definition main (argv : list string) : result (gmap string value) :=
  setup_parser argv.
End Converters.

End Validators.

(** * The vocabulary of the statements *)

Import Argparse.

(** The actions that [add_argument] builds for main.py, written out; the
    parser made of them is the one that [build_parser] returns. *)
Definition help_action : Action :=
  mkAction ["-h"; "--help"] "help" (NargsInt 0) VNone VSuppress None None false None HelpAction.
Definition source_action : Action :=
  mkAction [] "source" NargsNone VNone VNone None None true None StoreAction.
Definition optional_destination_action : Action :=
  mkAction [] "optional_destination" OPTIONAL VNone (VStr "default_value") None None false None StoreAction.
Definition files_action : Action :=
  mkAction ["--files"] "files" ZERO_OR_MORE VNone (VList []) None None false None StoreAction.
Definition required_files_action : Action :=
  mkAction ["--required-files"] "required_files" ONE_OR_MORE VNone VNone None None false None StoreAction.
Definition verbose_action : Action :=
  mkAction ["-v"; "--verbose"] "verbose" (NargsInt 0) (VBool true) (VBool false) None None false None StoreConstAction.
Definition mode_action : Action :=
  mkAction ["-m"; "--mode"] "mode" NargsNone VNone (VStr "auto") None (Some [VStr "auto"; VStr "manual"]) false None StoreAction.
Definition size_action : Action :=
  mkAction ["-s"; "--size"] "size" NargsNone VNone (VStr "1MB")
           (Some Main.parse_size_type) None false None StoreAction.

Definition main_actions : list Action :=
  [help_action; source_action; optional_destination_action; files_action;
   required_files_action; verbose_action; mode_action; size_action].

Definition main_parser (prog : string) : ArgumentParser := mkParser prog main_actions.

Definition positional_token (parser : ArgumentParser) (t : string) : Prop :=
  t ≠ "--" ∧ parse_optional parser t = Ok None.

(** Whitespace-only text *)
Fixpoint all_space (s : string) : bool :=
  match s with
  | EmptyString => true
  | String c s' => Py.isspace c && all_space s'
  end.

Definition is_option_at (classes : list arg_class) (i : nat) : Prop :=
  ∃ t, classes !! i = Some (ClsOption t).

(** The number of leading pattern characters that are not ['O']. *)
Definition free_prefix (s : list pat) : nat := count_prefix [PA; PDash] s.

Definition item_avoids_O (it : re_item) : Prop :=
  match it with
  | ReChar c | ReOpt c => c ≠ PO
  | ReStar cs => PO ∉ cs
  end.

(** [agree E Q r1 r2]: both results are values related by [Q], or both are
    the same exception, which satisfies [E]. *)
Definition agree {X Y} (E : exn → Prop) (Q : X → Y → Prop)
    (r1 : result X) (r2 : result Y) : Prop :=
  match r1, r2 with
  | Ok x1, Ok x2 => Q x1 x2
  | Raise e1, Raise e2 => e1 = e2 ∧ E e1
  | _, _ => False
  end.

(** The two consuming phases of [_parse_known_args]: the loop, then the
    positionals after the last option string. *)
Definition run (parser : ArgumentParser) (arg_strings : list string)
    (classes : list arg_class) (st : state) : result (nat * state) :=
  '(start_index, st) ←
    consume_loop parser arg_strings classes (S (length arg_strings)) 0 st;
  consume_positionals arg_strings classes start_index st.

(** The only error of [_parse_optional] is the ambiguous abbreviation. *)
Definition is_ambiguous_error (parser : ArgumentParser) (e : exn) : Prop :=
  ∃ detail,
    e = SystemExit 2 (prog parser +:+ ": error: " +:+ ("ambiguous option: " +:+ detail)
                      +:+ String "010" "").

Definition argument_names : list string :=
  ["-h/--help"; "source"; "optional_destination"; "--files"; "--required-files";
   "-v/--verbose"; "-m/--mode"; "-s/--size"].

Definition main_dests : gset string :=
  {[ "source"; "optional_destination"; "files"; "required_files"; "verbose";
     "mode"; "size" ]}.

(** The exceptions that can leave [_parse_known_args]: an [ArgumentError]
    that names a declared argument, the exit of [-h], and what
    [parse_size] raises beyond [ValueError]. *)
Definition inner_exn (e : exn) : Prop :=
  match e with
  | ArgumentError (Some n) _ => n ∈ argument_names
  | SystemExit status message => status = 0 ∧ message = ""
  | KeyError _ | OverflowError _ => True
  | _ => False
  end.

(** The namespace after the defaults of [parse_known_args], from a class
    without attributes. *)
Definition main_defaults : gmap string value :=
  {[ "source" := VNone; "optional_destination" := VStr "default_value";
     "files" := VList []; "required_files" := VNone; "verbose" := VBool false;
     "mode" := VStr "auto"; "size" := VStr "1MB" ]}.

(** What the final loop over the actions does to one string default. *)
Definition convert_str_default (seen : list Action) (a : Action) (v : value)
    (ns : gmap string value) : gmap string value :=
  if action_in a seen then ns
  else if bool_decide (ns !! dest a = Some (default a)) then <[dest a := v]> ns
  else ns.

Definition finish_namespace (seen : list Action) (ns : gmap string value)
    : gmap string value :=
  convert_str_default seen size_action (VInt 1048576)
    (convert_str_default seen mode_action (VStr "auto")
       (convert_str_default seen optional_destination_action (VStr "default_value") ns)).

(** The messages of [parser.error] in main.py name what is wrong: an
    argument, the missing [source], the unrecognised strings or the
    ambiguous abbreviation. *)
Definition names_argument (m : string) : Prop :=
  (∃ name detail, name ∈ argument_names ∧ m = "argument " +:+ name +:+ ": " +:+ detail)
  ∨ m = "the following arguments are required: source"
  ∨ (∃ tokens, m = "unrecognized arguments: " +:+ tokens)
  ∨ (∃ detail, m = "ambiguous option: " +:+ detail).

Definition error_exit (prog m : string) : exn :=
  SystemExit 2 (prog +:+ ": error: " +:+ m +:+ String "010" "").

(** What [parse_args] can do: return a namespace with the seven attributes,
    exit after [-h], exit with an error that names an argument, or let an
    exception of the size converter through. *)
Definition expected_outcome (prog : string) (r : result (gmap string value)) : Prop :=
  match r with
  | Ok ns => dom ns = main_dests
  | Raise (SystemExit status message) =>
      (status = 0 ∧ message = "")
      ∨ ∃ m, names_argument m ∧ SystemExit status message = error_exit prog m
  | Raise (KeyError _) | Raise (OverflowError _) => True
  | Raise _ => False
  end.

Definition required_files_tuple : option_tuple :=
  (Some required_files_action, "--required-files", None).

Definition required_files_error : exn :=
  ArgumentError (Some "--required-files") "expected at least one argument".

(** [rest] does not begin with an argument: it is empty, or its first
    string is ["--"] or is not read as a positional by [_parse_optional]. *)
Definition not_an_argument (parser : ArgumentParser) (rest : list string) : Prop :=
  match rest with
  | [] => True
  | t :: _ => t = "--" ∨ parse_optional parser t ≠ Ok None
  end.

(** What [parse_known_args] and [parse_args] make of an exception of
    [_parse_known_args]. *)
Definition reported (parser : ArgumentParser) (e : exn) : exn :=
  match e with
  | ArgumentError argument_name message =>
      SystemExit 2 (prog parser +:+ ": error: " +:+
                    ArgumentError_str argument_name message +:+ String "010" "")
  | _ => e
  end.

(** An argument string is recognised as an option of [action]. *)
Definition recognised_as (parser : ArgumentParser) (arg_string : string)
    (action : Action) : Prop :=
  ∃ option_string explicit_arg,
    parse_optional parser arg_string = Ok (Some (Some action, option_string, explicit_arg)).

(** An argument string is a flag with more text attached, as [-vs1KB]. *)
Definition flag_with_text (parser : ArgumentParser) (arg_string : string) : Prop :=
  ∃ action option_string explicit_arg,
    parse_optional parser arg_string = Ok (Some (Some action, option_string, Some explicit_arg))
    ∧ nargs action = NargsInt 0.

Definition main_positionals : list Action :=
  [source_action; optional_destination_action].

Definition only_source_namespace (t : string) : gmap string value :=
  {[ "source" := VStr t; "optional_destination" := VStr "default_value";
     "files" := VList []; "required_files" := VNone; "verbose" := VBool false;
     "mode" := VStr "auto"; "size" := VInt 1048576 ]}.


Definition with_mode (t v : string) : gmap string value :=
  <["mode" := VStr v]> (only_source_namespace t).

Definition with_size (t : string) (n : Z) : gmap string value :=
  <["size" := VInt n]> (only_source_namespace t).

(** The strings after an option string begin with ASCII text, on which
    the model reads an argument string as Python does. *)
Definition begins_ascii (rest : list string) : Prop :=
  ∀ t, head rest = Some t → Py.isascii t = true.

Definition required_files_exit (prog : string) : exn :=
  SystemExit 2 (prog +:+ ": error: argument --required-files: expected at least one argument"
                +:+ String "010" "").

(** A file system with the directory [.] and the regular file [main.py]. *)
Definition example_fs : Validators.filesystem :=
  λ path, if String.eqb path "." then Some Validators.Directory
          else if String.eqb path "main.py" then Some Validators.RegularFile
          else None.

Definition is_verbose_class (c : arg_class) : Prop :=
  ∃ s, c = ClsOption (Some verbose_action, s, None).

(** A value made of paths that the file system has with type [ty]. *)
Definition validated (fs : Validators.filesystem) (ty : Validators.file_type)
    (v : value) : Prop :=
  match v with
  | VPath p => fs p = Some ty
  | VList l => Forall (λ x, ∃ p, x = VPath p ∧ fs p = Some ty) l
  | _ => False
  end.

Definition validators_dests : gset string := {[ "source_directory"; "files" ]}.

(** The exceptions that can leave [_parse_known_args] in validators.py. *)
Definition validators_exn (e : exn) : Prop :=
  match e with
  | ArgumentError (Some n) _ => n ∈ ["-h/--help"; "source_directory"; "files"]
  | SystemExit status message => status = 0 ∧ message = ""
  | _ => False
  end.

(** What [main] of validators.py can do: print the two attributes, which
    hold validated paths, or exit with status 0 (help) or with status 2 and
    one error line. *)
Definition validators_outcome (fs : Validators.filesystem) (prog : string)
    (r : result (gmap string value)) : Prop :=
  match r with
  | Ok ns =>
      dom ns = validators_dests
      ∧ (∃ v, ns !! "source_directory" = Some v ∧ validated fs Validators.Directory v)
      ∧ (∃ v, ns !! "files" = Some v ∧ validated fs Validators.RegularFile v)
  | Raise (SystemExit status message) =>
      (status = 0 ∧ message = "")
      ∨ (status = 2 ∧ ∃ m, message = prog +:+ ": error: " +:+ m +:+ String "010" "")
  | Raise _ => False
  end.

(** The first path of [l] that is not of type [ty], as a loop over the
    paths finds it. *)
Fixpoint first_not (fs : Validators.filesystem) (ty : Validators.file_type)
    (l : list string) : option string :=
  match l with
  | [] => None
  | p :: l' => if bool_decide (fs p = Some ty) then first_not fs ty l' else Some p
  end.

Definition invalid_file (p : string) : exn :=
  ArgumentError (Some "files") ("invalid file value: " +:+ Py.repr p).

Definition validators_namespace (d : string) (files : list string)
    : gmap string value :=
  {[ "source_directory" := VPath d; "files" := VList (VPath <$> files) ]}.

Definition validators_required (prog names : string) : exn :=
  SystemExit 2 (prog +:+ ": error: the following arguments are required: " +:+ names
                +:+ String "010" "").

(** * Properties *)

Lemma build_parser_eq (argv0 : string) :
  Main.build_parser argv0 = Ok (main_parser (basename argv0)).
Proof. reflexivity. Qed.

(** ** Strings *)

Lemma string_length_app (a b : string) :
  String.length (a +:+ b) = (String.length a + String.length b)%nat.
Proof. induction a as [|c a IH]; simpl; [done | by rewrite IH]. Qed.

Lemma substring_0_app (a b : string) :
  String.substring 0 (String.length a) (a +:+ b) = a.
Proof. induction a as [|c a IH]; simpl; [by destruct b | by rewrite IH]. Qed.

Lemma substring_0_all (b : string) :
  String.substring 0 (String.length b) b = b.
Proof. induction b as [|c b IH]; simpl; [done | by rewrite IH]. Qed.

Lemma substring_skip_app (a b : string) (n : nat) :
  String.substring (String.length a) n (a +:+ b) = String.substring 0 n b.
Proof. induction a as [|c a IH]; simpl; done. Qed.

(** [(m + u)[:-2]] is [m] and [(m + u)[-2:]] is [u] when [u] has two
    characters. *)
Lemma slice_until_last_app (m u : string) :
  Py.slice_until_last (String.length u) (m +:+ u) = m.
Proof.
  unfold Py.slice_until_last. rewrite string_length_app.
  replace (String.length m + String.length u - String.length u)%nat
    with (String.length m) by lia.
  apply substring_0_app.
Qed.

Lemma slice_last_app (m u : string) :
  Py.slice_last (String.length u) (m +:+ u) = u.
Proof.
  unfold Py.slice_last. rewrite string_length_app.
  replace (String.length m + String.length u - String.length u)%nat
    with (String.length m) by lia.
  rewrite substring_skip_app. apply substring_0_all.
Qed.

Lemma slices_of_app (a w : string) :
  String.length w = 2%nat →
  Py.slice_until_last 2 (a +:+ w) = a ∧ Py.slice_last 2 (a +:+ w) = w.
Proof. intros <-. split; [apply slice_until_last_app | apply slice_last_app]. Qed.

Lemma upper_length (s : string) : String.length (Py.upper s) = String.length s.
Proof. induction s as [|c s IH]; simpl; [done | by rewrite IH]. Qed.

Lemma lstrip_app_space (ws s : string) :
  all_space ws = true → Py.lstrip (ws +:+ s) = Py.lstrip s.
Proof.
  induction ws as [|c ws IH]; simpl; [done |].
  intros [Hc Hws]%andb_prop. rewrite Hc. by apply IH.
Qed.

Lemma rstrip_space (ws : string) : all_space ws = true → Py.rstrip ws = "".
Proof.
  induction ws as [|c ws IH]; simpl; [done |].
  intros [Hc Hws]%andb_prop. by rewrite IH, Hc.
Qed.

Lemma rstrip_app_space (s ws : string) :
  all_space ws = true → Py.rstrip (s +:+ ws) = Py.rstrip s.
Proof.
  intros Hws. induction s as [|c s IH]; simpl.
  - by apply rstrip_space.
  - by rewrite IH.
Qed.

Lemma strip_app_space (ws1 m ws2 : string) :
  all_space ws1 = true → all_space ws2 = true →
  Py.strip (ws1 +:+ m +:+ ws2) = Py.strip m.
Proof.
  intros H1 H2. unfold Py.strip. rewrite lstrip_app_space by done.
  induction m as [|c m IH].
  - change ("" +:+ ws2) with ws2.
    rewrite (rstrip_space (Py.lstrip ws2)); [done |].
    clear -H2. induction ws2 as [|c ws IH]; simpl in *; [done |].
    apply andb_prop in H2 as [Hc Hws]. rewrite Hc. by apply IH.
  - change (String c m +:+ ws2) with (String c (m +:+ ws2)). simpl.
    destruct (Py.isspace c); [done |].
    change (String c (m +:+ ws2)) with (String c m +:+ ws2).
    by rewrite rstrip_app_space.
Qed.

(** ** parse_size *)

Lemma units_lookup_None (u : string) :
  u ∉ ["B"; "KB"; "MB"; "GB"] → Main.units !! u = None.
Proof.
  intros Hu. unfold Main.units.
  rewrite !lookup_insert_ne, lookup_singleton_ne; [done | | | |];
    intros <-; apply Hu; set_solver.
Qed.

(** C9: for an ASCII text, when what stands before the last two characters
    parses as a float and the last two characters, uppercased, are not one
    of B, KB, MB, GB, then [parse_size] raises [KeyError] (not
    [ValueError]), and [_get_value] lets it through instead of turning it
    into argparse's invalid-value error. *)
Theorem parse_size_unknown_unit_raises_KeyError (size_str : string) (x : Py.float)
    (action : Action) :
  Py.isascii size_str = true →
  Py.float_of_str (Py.strip (Py.slice_until_last 2 size_str)) = Ok x →
  Py.upper (Py.slice_last 2 size_str) ∉ ["B"; "KB"; "MB"; "GB"] →
  type action = Some Main.parse_size_type →
  Main.parse_size size_str = Raise (KeyError (Py.upper (Py.slice_last 2 size_str)))
  ∧ (∀ msg, Main.parse_size size_str ≠ Raise (ValueError msg))
  ∧ get_value action size_str = Raise (KeyError (Py.upper (Py.slice_last 2 size_str))).
Proof.
  intros _ Hfloat Hunit Htype.
  assert (Main.parse_size size_str
          = Raise (KeyError (Py.upper (Py.slice_last 2 size_str)))) as Hraise.
  { unfold Main.parse_size. rewrite Hfloat. simpl.
    unfold Main.getitem. by rewrite units_lookup_None. }
  split; [done |]. split.
  - intros msg. rewrite Hraise. discriminate.
  - unfold get_value. rewrite Htype. simpl. by rewrite Hraise.
Qed.

Lemma parse_size_unknown_unit_raises_KeyError_witness :
  Main.parse_size "500XY" = Raise (KeyError "XY")
  ∧ (∀ msg, Main.parse_size "500XY" ≠ Raise (ValueError msg))
  ∧ get_value size_action "500XY" = Raise (KeyError "XY").
Proof.
  apply (parse_size_unknown_unit_raises_KeyError "500XY"
           (S754_finite false 8796093022208000 (-44)) size_action).
  - reflexivity.
  - vm_compute. reflexivity.
  - vm_compute. intros H. repeat (inversion H as [|? ? ? H']; clear H; rename H' into H).
  - reflexivity.
Defined.

(** C2: the single-character unit B cannot be selected: the last TWO
    characters of ["500B"] are looked up, and ["0B"] is not a unit. *)
Theorem parse_size_500B_KeyError :
  Main.parse_size "500B" = Raise (KeyError "0B").
Proof. vm_compute. reflexivity. Qed.

(** C10: the two-character unit is matched in any casing, and whitespace
    around the magnitude is ignored. *)
Theorem parse_size_casing_and_whitespace (ws1 m ws2 u u' : string) :
  u ∈ ["KB"; "MB"; "GB"] →
  Py.upper u' = u →
  all_space ws1 = true → all_space ws2 = true →
  Main.parse_size (m +:+ u') = Main.parse_size (m +:+ u)
  ∧ Main.parse_size ((ws1 +:+ m +:+ ws2) +:+ u') = Main.parse_size (m +:+ u)
  ∧ Main.parse_size "500kb" = Ok 512000.
Proof.
  intros Hu Hupper Hws1 Hws2.
  assert (String.length u = 2%nat ∧ Py.upper u = u) as [Hlen Hup].
  { set_unfold in Hu. destruct Hu as [->|[->|[->|[]]]]; done. }
  assert (String.length u' = 2%nat) as Hlen'.
  { by rewrite <- (upper_length u'), Hupper. }
  assert (∀ a, Main.parse_size (a +:+ u') = Main.parse_size (a +:+ u)) as Hsame.
  { intros a. unfold Main.parse_size.
    destruct (slices_of_app a u Hlen) as [-> ->].
    destruct (slices_of_app a u' Hlen') as [-> ->].
    by rewrite Hupper, Hup. }
  split; [apply Hsame |]. split; [| by vm_compute].
  rewrite Hsame. unfold Main.parse_size.
  destruct (slices_of_app (ws1 +:+ m +:+ ws2) u Hlen) as [-> ->].
  destruct (slices_of_app m u Hlen) as [-> ->].
  by rewrite strip_app_space.
Qed.

Lemma parse_size_casing_and_whitespace_witness :
  Main.parse_size ("500" +:+ "kB") = Main.parse_size ("500" +:+ "KB")
  ∧ Main.parse_size ((" " +:+ "500" +:+ " ") +:+ "kB") = Main.parse_size ("500" +:+ "KB")
  ∧ Main.parse_size "500kb" = Ok 512000.
Proof.
  apply (parse_size_casing_and_whitespace " " "500" " " "KB" "kB").
  - apply list_elem_of_here.
  - reflexivity.
  - reflexivity.
  - reflexivity.
Defined.

(** ** Option indices *)

Lemma indices_from_elem k classes i t :
  (i, t) ∈ option_string_indices_from k classes
  ↔ (k ≤ i)%nat ∧ classes !! (i - k)%nat = Some (ClsOption t).
Proof.
  revert k. induction classes as [|c classes IH]; intros k; simpl.
  - split; [by intros ?%elem_of_nil | by intros [_ ?]].
  - assert ((i, t) ∈ option_string_indices_from (S k) classes
            ↔ (k < i)%nat ∧ (c :: classes) !! (i - k)%nat = Some (ClsOption t)) as Hrest.
    { rewrite IH. split.
      - intros [Hle Hl]. split; [lia |].
        by replace (i - k)%nat with (S (i - S k)) by lia.
      - intros [Hlt Hl]. split; [lia |].
        by replace (i - k)%nat with (S (i - S k)) in Hl by lia. }
    destruct (decide (i = k)) as [->|Hne].
    + rewrite Nat.sub_diag. simpl.
      destruct c as [t'| |]; rewrite ?elem_of_cons, Hrest;
        split; intros; destruct_or?; destruct_and?; simplify_eq; try lia; auto.
    + destruct c as [t'| |]; rewrite ?elem_of_cons, Hrest;
        split; intros; destruct_or?; destruct_and?; simplify_eq; try lia;
        try (split; [lia | done]); try (right; split; [lia | done]).
Qed.

Lemma indices_from_assoc k classes i :
  (k ≤ i)%nat →
  assoc i (option_string_indices_from k classes)
  = match classes !! (i - k)%nat with
    | Some (ClsOption t) => Some t
    | _ => None
    end.
Proof.
  revert k. induction classes as [|c classes IH]; intros k Hle; simpl; [done |].
  destruct (decide (i = k)) as [->|Hne].
  - rewrite Nat.sub_diag. simpl. destruct c; simpl.
    + by rewrite bool_decide_eq_true_2.
    + destruct (assoc k _) as [t|] eqn:Ha; [| done].
      assert (∀ l, assoc k l = Some t → (k, t) ∈ l) as Hin.
      { clear. induction l as [|[j u] l IHl]; simpl; [done |].
        case_bool_decide; intros; simplify_eq; [left | right; auto]. }
      apply Hin, indices_from_elem in Ha as [? _]. lia.
    + destruct (assoc k _) as [t|] eqn:Ha; [| done].
      assert (∀ l, assoc k l = Some t → (k, t) ∈ l) as Hin.
      { clear. induction l as [|[j u] l IHl]; simpl; [done |].
        case_bool_decide; intros; simplify_eq; [left | right; auto]. }
      apply Hin, indices_from_elem in Ha as [? _]. lia.
  - replace (i - k)%nat with (S (i - S k)) by lia. simpl.
    destruct c; simpl; rewrite ?bool_decide_eq_false_2 by done; apply IH; lia.
Qed.

(** [option_string_indices[i]] is the tuple recorded for the [i]-th
    argument string when it is an option string. *)
Lemma assoc_option_string_indices classes i :
  assoc i (option_string_indices classes)
  = match classes !! i with
    | Some (ClsOption t) => Some t
    | _ => None
    end.
Proof.
  unfold option_string_indices. rewrite indices_from_assoc by lia.
  by rewrite Nat.sub_0_r.
Qed.

Lemma option_string_indices_keys classes i :
  i ∈ (option_string_indices classes).*1 ↔ is_option_at classes i.
Proof.
  unfold is_option_at, option_string_indices. rewrite list_elem_of_fmap. split.
  - intros [[j t] [-> Hin]]. simpl.
    apply indices_from_elem in Hin as [_ Hin]. rewrite Nat.sub_0_r in Hin. eauto.
  - intros [t Hi]. exists (i, t). split; [done |].
    apply indices_from_elem. rewrite Nat.sub_0_r. split; [lia | done].
Qed.

Lemma foldr_max_ge (l : list nat) (i : nat) : i ∈ l → (i ≤ foldr Nat.max 0 l)%nat.
Proof.
  induction l as [|x l IH]; [by intros ?%elem_of_nil |].
  intros [->|Hin]%elem_of_cons; simpl; [lia |]. apply IH in Hin. lia.
Qed.

Lemma foldr_max_elem (l : list nat) : l ≠ [] → foldr Nat.max 0%nat l ∈ l.
Proof.
  induction l as [|x l IH]; [done |]. intros _. simpl.
  destruct l as [|y l]; [simpl; rewrite Nat.max_0_r; left |].
  destruct (Nat.max_spec x (foldr Nat.max 0%nat (y :: l))) as [[_ ->]|[_ ->]].
  - right. by apply IH.
  - left.
Qed.

Lemma foldr_min_elem (l : list nat) (i : nat) : foldr Nat.min i l ∈ i :: l.
Proof.
  induction l as [|x l IH]; simpl; [left |].
  destruct (Nat.min_spec x (foldr Nat.min i l)) as [[_ ->]|[_ ->]].
  - right; left.
  - apply elem_of_cons in IH as [->|IH]; [left | right; by right].
Qed.

Lemma foldr_min_le (l : list nat) (i j : nat) :
  j ∈ i :: l → (foldr Nat.min i l ≤ j)%nat.
Proof.
  induction l as [|x l IH]; simpl.
  - intros ->%list_elem_of_singleton. done.
  - intros Hin. apply elem_of_cons in Hin as [Heq|Hin].
    + assert (foldr Nat.min i l ≤ j)%nat by (apply IH; subst; left). lia.
    + apply elem_of_cons in Hin as [Heq|Hin]; [lia |].
      assert (foldr Nat.min i l ≤ j)%nat by (apply IH; by right). lia.
Qed.

(** An option index is at most [max_option_string_index], which is below
    the number of argument strings. *)
Lemma max_option_string_index_ge classes i :
  is_option_at classes i → Z.of_nat i ≤ max_option_string_index classes.
Proof.
  intros Hi%option_string_indices_keys. unfold max_option_string_index.
  destruct (option_string_indices classes) as [|p l] eqn:Hl.
  - by apply elem_of_nil in Hi.
  - apply foldr_max_ge in Hi. lia.
Qed.

Lemma max_option_string_index_lt classes :
  max_option_string_index classes < Z.of_nat (length classes).
Proof.
  unfold max_option_string_index.
  destruct (option_string_indices classes) as [|p l] eqn:Hl; [lia |].
  assert (foldr Nat.max 0%nat (p :: l).*1 ∈ (p :: l).*1) as Hin.
  { by apply foldr_max_elem. }
  rewrite <- Hl in Hin. apply option_string_indices_keys in Hin as [t Ht].
  apply lookup_lt_Some in Ht. rewrite <- Hl. lia.
Qed.

(** [next_option_string_index start] is the first option index from
    [start] on, when there is one. *)
Lemma next_option_string_index_spec classes start i :
  is_option_at classes i → (start ≤ i)%nat →
  (start ≤ next_option_string_index classes start ≤ i)%nat
  ∧ is_option_at classes (next_option_string_index classes start).
Proof.
  intros Hi Hle. unfold next_option_string_index.
  assert (i ∈ filter (λ j, start ≤ j)%nat (option_string_indices classes).*1) as Hin.
  { apply list_elem_of_filter. split; [done |]. by apply option_string_indices_keys. }
  destruct (filter _ _) as [|j l] eqn:Hf; [by apply elem_of_nil in Hin |].
  pose proof (foldr_min_elem l j) as Hmin. rewrite <- Hf in Hmin.
  apply list_elem_of_filter in Hmin as [Hge Hkey].
  split; [split; [done |] | by apply option_string_indices_keys].
  by apply foldr_min_le.
Qed.

Lemma next_option_string_index_exists classes start :
  Z.of_nat start ≤ max_option_string_index classes →
  ∃ i, is_option_at classes i ∧ (start ≤ i)%nat.
Proof.
  unfold max_option_string_index.
  destruct (option_string_indices classes) as [|p l] eqn:Hl; [lia |].
  intros Hle. exists (foldr Nat.max 0%nat (p :: l).*1). split; [| lia].
  apply option_string_indices_keys. rewrite Hl. by apply foldr_max_elem.
Qed.

Local Open Scope nat_scope.

(** ** Matches stop before the next option string *)

Lemma count_prefix_le cs s : PO ∉ cs → count_prefix cs s ≤ free_prefix s.
Proof.
  intros Hcs. unfold free_prefix. induction s as [|x s IH]; simpl; [done |].
  case_bool_decide as Hx; [| lia].
  rewrite bool_decide_eq_true_2; [lia |].
  destruct x; [done | left | right; left].
Qed.

Lemma countdown_elem n k : k ∈ countdown n ↔ k ≤ n.
Proof.
  induction n as [|n IH]; simpl.
  - rewrite list_elem_of_singleton. lia.
  - rewrite elem_of_cons, IH. lia.
Qed.

Lemma item_matches_le it s n :
  item_avoids_O it → n ∈ item_matches it s → n ≤ free_prefix s.
Proof.
  unfold free_prefix. destruct it as [c|c|cs]; simpl; intros Hit.
  - destruct s as [|x s]; [by intros ?%elem_of_nil |].
    case_bool_decide; [| by intros ?%elem_of_nil].
    intros ->%list_elem_of_singleton. subst. simpl.
    rewrite bool_decide_eq_true_2; [lia |]. destruct c; [done | left | right; left].
  - destruct s as [|x s]; [intros ->%list_elem_of_singleton; simpl; lia |].
    case_bool_decide.
    + subst. simpl. rewrite bool_decide_eq_true_2;
        [| destruct c; [done | left | right; left]].
      intros [->|[->|[]%elem_of_nil]%elem_of_cons]%elem_of_cons; lia.
    + intros ->%list_elem_of_singleton. lia.
  - intros Hn%countdown_elem. pose proof (count_prefix_le cs s Hit).
    unfold free_prefix in *. lia.
Qed.

Lemma free_prefix_drop s n : n ≤ free_prefix s → free_prefix (drop n s) = free_prefix s - n.
Proof.
  unfold free_prefix. revert n. induction s as [|x s IH]; intros n; simpl.
  - intros. rewrite drop_nil. simpl. lia.
  - destruct n as [|n]; simpl; [lia |].
    case_bool_decide; [| lia]. intros Hn. rewrite IH; lia.
Qed.

Lemma group_matches_le g : ∀ s n,
  Forall item_avoids_O g → n ∈ group_matches g s → n ≤ free_prefix s.
Proof.
  induction g as [|it g IH]; intros s n Hg; simpl.
  - intros ->%list_elem_of_singleton. lia.
  - inversion Hg as [|? ? Hit Hg']; subst.
    intros (n1 & Hn & Hn1)%list_elem_of_bind.
    apply (item_matches_le _ _ _ Hit) in Hn1.
    apply list_elem_of_fmap in Hn as (k & -> & Hk).
    apply IH in Hk; [| done]. rewrite free_prefix_drop in Hk by done. lia.
Qed.

Lemma first_some_Some {X Y} (f : X → option Y) l y :
  first_some f l = Some y → ∃ x, x ∈ l ∧ f x = Some y.
Proof.
  induction l as [|x l IH]; simpl; [done |].
  destruct (f x) eqn:Hfx.
  - intros ?; simplify_eq. exists x. split; [left | done].
  - intros (x' & ? & ?)%IH. exists x'. split; [by right | done].
Qed.

Lemma re_match_le gs : ∀ s counts,
  Forall (Forall item_avoids_O) gs → re_match gs s = Some counts →
  sum_list counts ≤ free_prefix s ∧ length counts = length gs.
Proof.
  induction gs as [|g gs IH]; intros s counts Hgs; simpl.
  - intros ?; simplify_eq. simpl. lia.
  - inversion Hgs as [|? ? Hg Hgs']; subst.
    intros (n & Hn & Hrest)%first_some_Some.
    apply (group_matches_le _ _ _ Hg) in Hn.
    destruct (re_match gs (drop n s)) as [counts'|] eqn:Hm; simplify_eq/=.
    apply IH in Hm as [Hm ?]; [| done]. rewrite free_prefix_drop in Hm by done.
    lia.
Qed.

Lemma join_A_avoids n : Forall item_avoids_O (join_A n).
Proof.
  induction n as [|n IH]; simpl; [constructor |].
  destruct n; repeat constructor; try done.
  by intros ?%list_elem_of_singleton.
Qed.

Lemma remove_dashes_avoids g : Forall item_avoids_O g → Forall item_avoids_O (remove_dashes g).
Proof.
  intros Hg. unfold remove_dashes. apply Forall_fmap.
  apply Forall_forall. intros it [_ Hit]%list_elem_of_filter.
  apply list_elem_of_filter in Hit as [_ Hit].
  pose proof (proj1 (Forall_forall _ _) Hg it Hit) as Hav.
  destruct it; simpl in *; try done.
  by intros [_ ?]%list_elem_of_filter.
Qed.

Lemma get_nargs_pattern_avoids a : Forall item_avoids_O (get_nargs_pattern a).
Proof.
  assert (PO ∉ [PDash]) by (by intros ?%list_elem_of_singleton).
  assert (PO ∉ [PA; PDash]).
  { intros [?|?%list_elem_of_singleton]%elem_of_cons; done. }
  unfold get_nargs_pattern.
  assert (Forall item_avoids_O
            match nargs a with
            | NargsNone => [ReStar [PDash]; ReChar PA; ReStar [PDash]]
            | OPTIONAL => [ReStar [PDash]; ReOpt PA; ReStar [PDash]]
            | ZERO_OR_MORE => [ReStar [PDash]; ReStar [PA; PDash]]
            | ONE_OR_MORE => [ReStar [PDash]; ReChar PA; ReStar [PA; PDash]]
            | NargsInt n => ReStar [PDash] :: join_A n ++ [ReStar [PDash]]
            end) as Hp.
  { destruct (nargs a); repeat constructor; try done.
    apply Forall_app. split; [apply join_A_avoids | by repeat constructor]. }
  case_bool_decide; [by apply remove_dashes_avoids | done].
Qed.

Lemma match_argument_le a p n : match_argument a p = Ok n → n ≤ free_prefix p.
Proof.
  unfold match_argument.
  destruct (re_match _ _) as [counts|] eqn:Hm; [| done].
  apply re_match_le in Hm as [Hm _];
    [| repeat constructor; apply get_nargs_pattern_avoids].
  destruct counts as [|k [|]]; try done. intros ?; simplify_eq. simpl in Hm. lia.
Qed.

Lemma match_arguments_partial_le acts p :
  sum_list (match_arguments_partial acts p) ≤ free_prefix p.
Proof.
  unfold match_arguments_partial. generalize (length acts) as i.
  induction i as [|i IH]; simpl; [lia |].
  destruct (re_match _ _) as [counts|] eqn:Hm; [| done].
  apply re_match_le in Hm as [Hm _]; [done |].
  apply Forall_fmap, Forall_forall. intros a _. apply get_nargs_pattern_avoids.
Qed.

Lemma free_prefix_O s : free_prefix (PO :: s) = 0.
Proof. done. Qed.

Lemma free_prefix_cons_le x s : free_prefix (x :: s) ≤ S (free_prefix s).
Proof. unfold free_prefix. simpl. case_bool_decide; lia. Qed.

(** The pattern before an option index holds no further ['O'] to skip. *)
Lemma free_prefix_before_option classes start i :
  is_option_at classes i → start ≤ i →
  start + free_prefix (drop start (arg_strings_pattern classes)) ≤ i.
Proof.
  intros [t Ht] Hle. unfold arg_strings_pattern.
  revert start i Ht Hle. induction classes as [|c classes IH]; intros start i Ht Hle.
  - done.
  - rewrite fmap_cons. destruct start as [|start], i as [|i].
    + simpl in Ht. simplify_eq. rewrite drop_0. simpl pat_of. rewrite free_prefix_O. lia.
    + specialize (IH 0 i Ht). rewrite drop_0 in IH. rewrite drop_0.
      pose proof (free_prefix_cons_le (pat_of c) (pat_of <$> classes)). lia.
    + lia.
    + specialize (IH start i Ht). rewrite skipn_cons. lia.
Qed.

(** *** The indices that the two consumers return *)

Section Indices.
Context (parser : ArgumentParser) (arg_strings : list string)
        (classes : list arg_class).

Lemma consume_optional_following_index start a s tuples r :
  consume_optional_following arg_strings classes start a s tuples = Ok r →
  start < r.2 ≤ start + 1 + free_prefix (drop (start + 1) (arg_strings_pattern classes)).
Proof.
  unfold consume_optional_following.
  destruct (match_argument a _) as [n|] eqn:Hm; [| done].
  apply match_argument_le in Hm. simpl. intros ?; simplify_eq. simpl. lia.
Qed.

Lemma consume_optional_explicit_index start explicit_arg : ∀ a s tuples r,
  consume_optional_explicit parser arg_strings classes start a s explicit_arg tuples = Ok r →
  start < r.2 ≤ start + 1 + free_prefix (drop (start + 1) (arg_strings_pattern classes)).
Proof.
  induction explicit_arg as [|c rest IH]; intros a s tuples r; simpl.
  - destruct (match_argument a [PA]) as [n|]; [| done]. simpl.
    destruct (_ && _); case_bool_decide; intros; simplify_eq; simpl; lia.
  - destruct (match_argument a [PA]) as [n|]; [| done]. simpl.
    destruct (_ && _).
    + destruct (assoc _ _) as [a'|]; [| done].
      destruct rest; [apply consume_optional_following_index | apply IH].
    + case_bool_decide; intros; simplify_eq; simpl; lia.
Qed.

Lemma consume_optional_index start st r :
  consume_optional parser arg_strings classes start st = Ok r →
  start < r.1 ≤ start + 1 + free_prefix (drop (start + 1) (arg_strings_pattern classes)).
Proof.
  unfold consume_optional.
  destruct (assoc start _) as [[[[a|] s] e]|]; [| | done].
  - destruct (match e with Some _ => _ | None => _ end) as [[tuples stop]|] eqn:Hc;
      [| done].
    simpl. destruct (foldM _ _ _); [| done]. simpl. intros ?; simplify_eq. simpl.
    destruct e.
    + by apply consume_optional_explicit_index in Hc.
    + by apply consume_optional_following_index in Hc.
  - intros ?; simplify_eq. simpl. lia.
Qed.

Lemma take_positionals_index (l : list (Action * nat)) : ∀ start st r,
  foldM (λ '(start_index, st) '(action, arg_count),
           let args := take arg_count (drop start_index arg_strings) in
           st ← take_action st action args;
           Ok ((start_index + arg_count)%nat, st)) (start, st) l = Ok r →
  r.1 = start + sum_list l.*2.
Proof.
  induction l as [|[a n] l IH]; intros start st r; simpl.
  - intros ?; simplify_eq. simpl. lia.
  - destruct (take_action st a _) as [st'|]; [| done]. simpl.
    intros ->%IH. unfold fmap. lia.
Qed.

Lemma sum_list_zip_le {X} (xs : list X) (ns : list nat) :
  sum_list (zip xs ns).*2 ≤ sum_list ns.
Proof.
  revert ns. induction xs as [|x xs IH]; intros [|n ns]; simpl; try lia.
  specialize (IH ns). unfold fmap in *. lia.
Qed.

Lemma consume_positionals_index start st r :
  consume_positionals arg_strings classes start st = Ok r →
  start ≤ r.1 ≤ start + free_prefix (drop start (arg_strings_pattern classes)).
Proof.
  unfold consume_positionals.
  destruct (foldM _ _ _) as [[i st']|] eqn:Hf; [| done]. simpl.
  intros ?; simplify_eq. simpl.
  apply take_positionals_index in Hf. simpl in Hf. subst.
  pose proof (sum_list_zip_le (positionals st)
                (match_arguments_partial (positionals st)
                   (drop start (arg_strings_pattern classes)))).
  pose proof (match_arguments_partial_le (positionals st)
                (drop start (arg_strings_pattern classes))).
  lia.
Qed.

End Indices.

Local Open Scope Z_scope.

(** ** Reasoning about two runs of the parsing loop *)

Lemma agree_bind_eq {X Y X' Y'} (E : exn → Prop) (Q : X → Y → Prop) (Q' : X' → Y' → Prop)
    (m1 : result X) (m2 : result Y) (f1 : X → result X') (f2 : Y → result Y') :
  agree E Q m1 m2 →
  (∀ x1 x2, m1 = Ok x1 → m2 = Ok x2 → Q x1 x2 → agree E Q' (f1 x1) (f2 x2)) →
  agree E Q' (m1 ≫= f1) (m2 ≫= f2).
Proof.
  destruct m1 as [x1|e1], m2 as [x2|e2]; simpl; try done.
  intros HQ Hf. by apply Hf.
Qed.

Lemma agree_bind {X Y X' Y'} (E : exn → Prop) (Q : X → Y → Prop) (Q' : X' → Y' → Prop)
    (m1 : result X) (m2 : result Y) (f1 : X → result X') (f2 : Y → result Y') :
  agree E Q m1 m2 →
  (∀ x1 x2, Q x1 x2 → agree E Q' (f1 x1) (f2 x2)) →
  agree E Q' (m1 ≫= f1) (m2 ≫= f2).
Proof. intros HQ Hf. eapply agree_bind_eq; eauto. Qed.

Lemma agree_same {X} (E : exn → Prop) (m : result X) :
  (∀ e, m = Raise e → E e) → agree E eq m m.
Proof. destruct m; simpl; auto. Qed.

Lemma agree_mono {X Y} (E : exn → Prop) (Q Q' : X → Y → Prop) r1 r2 :
  agree E Q r1 r2 → (∀ x y, Q x y → Q' x y) → agree E Q' r1 r2.
Proof. destruct r1, r2; simpl; auto. Qed.

Section Engine.
Context (parser : ArgumentParser) (arg_strings : list string)
        (classes : list arg_class).
(** [R] relates the namespace and the seen actions of the two runs, [A]
    holds of the actions that can be taken, [E] of the exceptions that can
    be raised. *)
Context (R : gmap string value → list Action → gmap string value → list Action → Prop)
        (A : Action → Prop) (E : exn → Prop).

Definition related (st1 st2 : state) : Prop :=
  R (namespace st1) (seen_actions st1) (namespace st2) (seen_actions st2)
  ∧ extras st1 = extras st2
  ∧ positionals st1 = positionals st2
  ∧ Forall A (positionals st1).

Hypothesis take_action_related : ∀ st1 st2 a args,
  A a → related st1 st2 →
  agree E related (take_action st1 a args) (take_action st2 a args).
Hypothesis classes_A : ∀ i a s e,
  assoc i (option_string_indices classes) = Some (Some a, s, e) → A a.
(** Some option that takes no argument comes with an explicit argument:
    the only way to the single-dash options inside an argument string. *)
Definition chains : Prop :=
  ∃ i a s e, assoc i (option_string_indices classes) = Some (Some a, s, Some e)
             ∧ match_argument a [PA] = Ok 0%nat.
Hypothesis short_options_A : chains → ∀ c0 c a,
  assoc (String c0 (String c "")) (option_string_actions parser) = Some a → A a.
Hypothesis E_ArgumentError : ∀ a msg, A a → E (ArgumentError (get_action_name a) msg).
Hypothesis E_KeyError : ∀ k, E (KeyError k).

Lemma match_argument_raises a p e :
  A a → match_argument a p = Raise e → E e.
Proof.
  intros Ha. unfold match_argument, raise_ArgumentError.
  repeat case_match; intros; simplify_eq; by apply E_ArgumentError.
Qed.

Definition tuples_ok (r : list action_tuple * nat) : Prop :=
  Forall (λ t : action_tuple, A t.1.1) r.1.

Lemma consume_optional_following_ok start a s tuples :
  A a → Forall (λ t : action_tuple, A t.1.1) tuples →
  agree E (λ r r', r = r' ∧ tuples_ok r)
    (consume_optional_following arg_strings classes start a s tuples)
    (consume_optional_following arg_strings classes start a s tuples).
Proof.
  intros Ha Htuples. unfold consume_optional_following.
  destruct (match_argument a _) as [n|e] eqn:Hm; simpl.
  - split; [done |]. unfold tuples_ok; simpl.
    apply Forall_app; split; [done |]. by constructor.
  - split; [done |]. by eapply match_argument_raises.
Qed.

Lemma consume_optional_explicit_ok start explicit_arg : ∀ a s tuples,
  A a → Forall (λ t : action_tuple, A t.1.1) tuples →
  (match_argument a [PA] = Ok 0%nat → chains) →
  agree E (λ r r', r = r' ∧ tuples_ok r)
    (consume_optional_explicit parser arg_strings classes start a s explicit_arg tuples)
    (consume_optional_explicit parser arg_strings classes start a s explicit_arg tuples).
Proof.
  induction explicit_arg as [|c rest IH]; intros a s tuples Ha Htuples Hch; simpl.
  - destruct (match_argument a [PA]) as [n|e] eqn:Hm; simpl;
      [| split; [done | by eapply match_argument_raises]].
    destruct (_ && _); case_bool_decide; simpl; unfold tuples_ok; simpl;
      try (split; [done |]);
      try (apply Forall_app; split; [done | by constructor]);
      by apply E_ArgumentError.
  - destruct (match_argument a [PA]) as [n|e] eqn:Hm; simpl;
      [| split; [done | by eapply match_argument_raises]].
    destruct (_ && _) eqn:Hzero.
    + apply andb_true_iff in Hzero as [Hzero%bool_decide_eq_true _]. subst n.
      specialize (Hch eq_refl).
      destruct (assoc _ _) as [a'|] eqn:Ha'; simpl;
        [| split; [done | by apply E_ArgumentError]].
      assert (A a') as HA' by (by eapply short_options_A).
      assert (Forall (λ t : action_tuple, A t.1.1) (tuples ++ [(a, [], s)])) as Ht'.
      { apply Forall_app; split; [done | by constructor]. }
      destruct rest.
      * by apply consume_optional_following_ok.
      * by apply IH.
    + clear Hzero. case_bool_decide; simpl; unfold tuples_ok; simpl.
      * split; [done |]. apply Forall_app; split; [done | by constructor].
      * split; [done |]. by apply E_ArgumentError.
Qed.

Definition related_at (r1 r2 : nat * state) : Prop :=
  r1.1 = r2.1 ∧ related r1.2 r2.2.

Lemma take_actions_related tuples : ∀ st1 st2,
  Forall (λ t : action_tuple, A t.1.1) tuples → related st1 st2 →
  agree E related
    (foldM (λ st '(action, args, _), take_action st action args) st1 tuples)
    (foldM (λ st '(action, args, _), take_action st action args) st2 tuples).
Proof.
  induction tuples as [|[[a args] s] tuples IH]; intros st1 st2 Hall Hrel; simpl; [done |].
  inversion Hall as [|? ? Ha Hrest]; subst.
  eapply agree_bind; [by apply take_action_related |].
  intros st1' st2' Hrel'. by apply IH.
Qed.

Lemma related_update st1 st2 ex pos :
  related st1 st2 → Forall A pos →
  related (mkState (namespace st1) (seen_actions st1) ex pos)
          (mkState (namespace st2) (seen_actions st2) ex pos).
Proof. intros (HR & _ & _ & _) Hpos. by repeat split. Qed.

Lemma consume_optional_related start st1 st2 :
  related st1 st2 →
  agree E related_at
    (consume_optional parser arg_strings classes start st1)
    (consume_optional parser arg_strings classes start st2).
Proof.
  intros Hrel. unfold consume_optional.
  destruct (assoc start _) as [[[[a|] s] e]|] eqn:Hidx; simpl.
  - assert (A a) as Ha by (by eapply classes_A).
    eapply agree_bind.
    { destruct e.
      - apply consume_optional_explicit_ok; [done | done |].
        intros Hzero. by eexists _, _, _, _.
      - by apply consume_optional_following_ok. }
    intros [tuples stop] ? [<- Hok]. simpl.
    eapply agree_bind; [by apply take_actions_related |].
    intros st1' st2' Hrel'. by split.
  - split; [done |]. simpl.
    destruct Hrel as (HR & Hex & Hpos & HA). rewrite Hex, Hpos.
    repeat split; try done. by rewrite <- Hpos.
  - split; [done | apply E_KeyError].
Qed.

Lemma take_positionals_related (l : list (Action * nat)) : ∀ start st1 st2,
  Forall (λ p, A p.1) l → related st1 st2 →
  agree E related_at
    (foldM (λ '(start_index, st) '(action, arg_count),
              let args := take arg_count (drop start_index arg_strings) in
              st ← take_action st action args;
              Ok ((start_index + arg_count)%nat, st)) (start, st1) l)
    (foldM (λ '(start_index, st) '(action, arg_count),
              let args := take arg_count (drop start_index arg_strings) in
              st ← take_action st action args;
              Ok ((start_index + arg_count)%nat, st)) (start, st2) l).
Proof.
  induction l as [|[a n] l IH]; intros start st1 st2 Hall Hrel; simpl; [done |].
  inversion Hall as [|? ? Ha Hrest]; subst.
  eapply agree_bind.
  { eapply agree_bind; [by apply take_action_related |].
    intros st1' st2' Hrel'.
    instantiate (1 := related_at). by split. }
  intros [i1 st1'] [i2 st2'] [Hi Hrel']. simpl in *. subst. by apply IH.
Qed.

Lemma consume_positionals_related start st1 st2 :
  related st1 st2 →
  agree E related_at
    (consume_positionals arg_strings classes start st1)
    (consume_positionals arg_strings classes start st2).
Proof.
  intros Hrel. unfold consume_positionals.
  destruct Hrel as (HR & Hex & Hpos & HA).
  rewrite <- Hpos.
  eapply agree_bind.
  { apply take_positionals_related; [| by repeat split].
    apply Forall_forall. intros [a n] Hin. simpl.
    apply elem_of_zip_l in Hin. by eapply (proj1 (Forall_forall _ _) HA). }
  intros [i1 st1'] [i2 st2'] [Hi (HR' & Hex' & Hpos' & HA')]. simpl in *. subst.
  split; [done |]. simpl. rewrite Hex', Hpos'.
  repeat split; simpl; try done. apply Forall_drop. by rewrite <- Hpos'.
Qed.

(** The loop, with fuel enough for the argument strings that are left:
    it does not run out of it. *)
Lemma consume_loop_related fuel : ∀ start st1 st2,
  (length classes < fuel + start)%nat →
  related st1 st2 →
  agree E related_at
    (consume_loop parser arg_strings classes fuel start st1)
    (consume_loop parser arg_strings classes fuel start st2).
Proof.
  pose proof (max_option_string_index_lt classes) as Hmax.
  induction fuel as [|fuel IH]; intros start st1 st2 Hfuel Hrel; simpl.
  - destruct (Z.leb_spec (Z.of_nat start) (max_option_string_index classes));
      [lia | split; [reflexivity | exact Hrel]].
  - destruct (Z.leb_spec (Z.of_nat start) (max_option_string_index classes)) as [Hle|];
      [| split; [reflexivity | exact Hrel]].
    destruct (next_option_string_index_exists classes start Hle) as (i & Hi & Hsi).
    destruct (next_option_string_index_spec classes start i Hi Hsi) as [Hnext _].
    eapply agree_bind with
      (Q := λ r1 r2 : bool * nat * state,
              r1 = (r2.1, r1.2) ∧ related r1.2 r2.2
              ∧ (if r1.1.1 then start < r1.1.2 else start = r1.1.2)%nat).
    { case_bool_decide; simpl; [| split; [reflexivity | split; [exact Hrel | done]]].
      eapply agree_bind_eq; [by apply consume_positionals_related |].
      intros [i1 st1'] [i2 st2'] Hp _ [Hi' Hrel']. simpl in *. subst.
      apply consume_positionals_index in Hp. simpl in Hp.
      split; [reflexivity | split; [exact Hrel' |]]. simpl.
      case_bool_decide; lia. }
    intros [[c1 i1] st1'] [[c2 i2] st2'] (Heq & Hrel' & Hidx). simpl in *.
    injection Heq as <- <-.
    destruct c1; [apply IH; [lia | done] |]. subst i1.
    assert (∀ k st1'' st2'', (start ≤ k)%nat → related st1'' st2'' →
              agree E related_at
                (consume_optional parser arg_strings classes k st1'' ≫=
                   λ '(start_index, st), consume_loop parser arg_strings classes fuel start_index st)
                (consume_optional parser arg_strings classes k st2'' ≫=
                   λ '(start_index, st), consume_loop parser arg_strings classes fuel start_index st))
      as Hstep.
    { intros k st1'' st2'' Hk Hrel''.
      eapply agree_bind_eq; [by apply consume_optional_related |].
      intros [j1 s1] [j2 s2] Ho _ [Hj Hs]. simpl in *. subst.
      apply IH; [| done].
      apply consume_optional_index in Ho; simpl in Ho; lia. }
    case_bool_decide.
    + apply Hstep; [lia |].
      destruct Hrel' as (HR' & Hex' & Hpos' & HA').
      repeat split; simpl; try done. by rewrite Hex'.
    + by apply Hstep.
Qed.

(** The two consuming phases of [_parse_known_args]. *)
Lemma run_related st1 st2 :
  length classes = length arg_strings →
  related st1 st2 →
  agree E related_at
    (run parser arg_strings classes st1) (run parser arg_strings classes st2).
Proof.
  intros Hlen Hrel. unfold run. eapply agree_bind.
  - apply consume_loop_related; [lia | done].
  - intros [i1 s1] [i2 s2] [Hi Hst]. simpl in *. subst.
    by apply consume_positionals_related.
Qed.
End Engine.

(** [take_action] in two runs: the values do not depend on the state, so
    both runs raise the same exception or both store the same value. *)
Lemma take_action_agree (E : exn → Prop) (Q : state → state → Prop)
    (st1 st2 : state) (a : Action) (args : list string) :
  (∀ e, get_values a args = Raise e → E e) →
  (action_class_of a = HelpAction → E (SystemExit 0 "")) →
  (∀ v, get_values a args = Ok v → v = VSuppress →
        Q (mkState (namespace st1) (a :: seen_actions st1) (extras st1) (positionals st1))
          (mkState (namespace st2) (a :: seen_actions st2) (extras st2) (positionals st2))) →
  (∀ v, get_values a args = Ok v → v ≠ VSuppress → action_class_of a ≠ HelpAction →
        let w := match action_class_of a with StoreAction => v | _ => const a end in
        Q (mkState (<[dest a := w]> (namespace st1)) (a :: seen_actions st1)
                   (extras st1) (positionals st1))
          (mkState (<[dest a := w]> (namespace st2)) (a :: seen_actions st2)
                   (extras st2) (positionals st2))) →
  agree E Q (take_action st1 a args) (take_action st2 a args).
Proof.
  intros Hraise Hhelp Hsup Hstore. unfold take_action.
  destruct (get_values a args) as [v|e] eqn:Hv; simpl; [| split; [done | by apply Hraise]].
  case_bool_decide as Hs; simpl; [by eapply Hsup |].
  specialize (Hstore v eq_refl Hs). unfold call_action.
  destruct (action_class_of a); simpl.
  - by apply Hstore.
  - by apply Hstore.
  - split; [done | by apply Hhelp].
Qed.

(** ** What the first loop records *)

Lemma assoc_Some_elem {K X} `{EqDecision K} (k : K) (l : list (K * X)) x :
  assoc k l = Some x → (k, x) ∈ l.
Proof.
  induction l as [|[k' x'] l IH]; simpl; [done |].
  case_bool_decide; intros; simplify_eq; [left | right; auto].
Qed.

Lemma option_string_actions_elem parser s a :
  (s, a) ∈ option_string_actions parser → a ∈ actions parser ∧ s ∈ option_strings a.
Proof.
  unfold option_string_actions. intros (a' & Hin & Ha')%list_elem_of_bind.
  apply list_elem_of_fmap in Hin as (s' & ? & ?). by simplify_eq.
Qed.

Lemma assoc_option_string_actions parser s a :
  assoc s (option_string_actions parser) = Some a → a ∈ actions parser.
Proof. intros Ha%assoc_Some_elem. by apply option_string_actions_elem in Ha as [? _]. Qed.

Lemma get_option_tuples_spec parser c0 rest :
  in_prefix_chars c0 = true →
  ∃ l, get_option_tuples parser (String c0 rest) = Ok l
       ∧ ∀ a s e, (Some a, s, e) ∈ l → a ∈ actions parser.
Proof.
  intros Hc0. unfold get_option_tuples.
  assert (∀ (f : string * Action → option option_tuple),
            (∀ s a t, f (s, a) = Some t → t.1.1 = Some a) →
            ∀ a s e, (Some a, s, e) ∈ omap f (option_string_actions parser) →
                     a ∈ actions parser) as Homap.
  { intros f Hf a s e ([s' a'] & Hin & Hfa)%list_elem_of_omap.
    apply Hf in Hfa. simpl in Hfa. simplify_eq.
    by apply option_string_actions_elem in Hin as [? _]. }
  simpl String.get. simpl from_option at 1. rewrite !Hc0. simpl andb.
  destruct (in_prefix_chars (from_option _ _)).
  - destruct (Py.split_once _ _) as [[p ea]|]; eexists; (split; [reflexivity |]);
      apply Homap; intros s' a' t'; by repeat case_match; intros; simplify_eq.
  - simpl. rewrite Hc0. simpl. eexists; split; [reflexivity |].
    apply Homap. intros s' a' t'. by repeat case_match; intros; simplify_eq.
Qed.

Lemma parse_optional_spec parser arg_string :
  match parse_optional parser arg_string with
  | Ok (Some (Some a, _, _)) => a ∈ actions parser
  | Ok _ => True
  | Raise e => is_ambiguous_error parser e
  end.
Proof.
  unfold parse_optional.
  destruct arg_string as [|c0 rest]; [done |].
  destruct (in_prefix_chars c0) eqn:Hc0; [| done]. simpl negb. cbv iota.
  destruct (assoc _ _) as [a|] eqn:Ha.
  { by apply assoc_option_string_actions in Ha. }
  destruct (String.eqb rest ""); [done |].
  assert (match
            get_option_tuples parser (String c0 rest) ≫= λ option_tuples,
              match option_tuples with
              | [] =>
                  if negative_number_matcher (String c0 rest)
                     && negb (has_negative_number_optionals parser) then Ok None
                  else if Py.contains_char " " (String c0 rest) then Ok None
                  else Ok (Some (None, String c0 rest, None))
              | [t] => Ok (Some t)
              | _ :: _ :: _ =>
                  error parser
                    ("ambiguous option: " +:+ String c0 rest +:+ " could match " +:+
                     Py.join ", " ((λ t : option_tuple, t.1.2) <$> option_tuples))
              end
          with
          | Ok (Some (Some a, _, _)) => a ∈ actions parser
          | Ok _ => True
          | Raise e => is_ambiguous_error parser e
          end) as Htuples.
  { destruct (get_option_tuples_spec parser c0 rest Hc0) as (l & -> & Hg). simpl.
    destruct l as [|[[[a|] s] e] [|]]; simpl.
    - destruct (_ && _); [done |]. by destruct (_ || _).
    - eapply Hg; left.
    - by eexists.
    - done.
    - by eexists. }
  destruct (Py.split_once _ _) as [[os ea]|]; [| done].
  destruct (assoc os _) as [a|] eqn:Ha'; [| done].
  by apply assoc_option_string_actions in Ha'.
Qed.

Lemma classify_spec parser arg_strings :
  match classify parser arg_strings with
  | Ok classes =>
      length classes = length arg_strings
      ∧ ∀ a s e, ClsOption (Some a, s, e) ∈ classes → a ∈ actions parser
  | Raise e => is_ambiguous_error parser e
  end.
Proof.
  induction arg_strings as [|t rest IH]; simpl.
  - split; [done |]. by intros a s e ?%elem_of_nil.
  - destruct (String.eqb t "--").
    + split; [simpl; by rewrite length_fmap |].
      intros a s e [?|Hin]%elem_of_cons; [done |].
      by apply list_elem_of_fmap in Hin as (? & ? & ?).
    + pose proof (parse_optional_spec parser t) as Hp.
      destruct (parse_optional parser t) as [o|e]; simpl; [| done].
      destruct (classify parser rest) as [classes|e]; simpl; [| done].
      destruct IH as [Hlen Hact]. split; [simpl; by rewrite Hlen |].
      intros a s e [Heq|Hin]%elem_of_cons; [| by eapply Hact].
      destruct o as [[[[a'|] s'] e']|]; by simplify_eq.
Qed.

(** ** Exceptions of the converters *)

Lemma float_of_str_raises s e : Py.float_of_str s = Raise e → ∃ msg, e = ValueError msg.
Proof.
  unfold Py.float_of_str.
  destruct (Py.remove_underscores _ _); [| intros; simplify_eq; eauto].
  destruct (Py.parse_sign _) as [neg body].
  destruct (_ || _); [done |]. destruct (String.eqb _ _); [done |].
  destruct (Py.parse_decimal _ _); [done |]. intros; simplify_eq; eauto.
Qed.

(** [parse_size] raises [ValueError], [KeyError] or [OverflowError]. *)
Lemma parse_size_raises s e :
  Main.parse_size s = Raise e →
  (∃ msg, e = ValueError msg) ∨ (∃ k, e = KeyError k) ∨ (∃ msg, e = OverflowError msg).
Proof.
  unfold Main.parse_size.
  destruct (Py.float_of_str _) as [x|e'] eqn:Hf; simpl.
  2:{ intros; simplify_eq. left. by eapply float_of_str_raises. }
  unfold Main.getitem. destruct (Main.units !! _) as [factor|]; simpl.
  2:{ intros; simplify_eq. right; left. eauto. }
  unfold Py.float_mul_int, Py.float_of_int.
  destruct (binary_normalize _ _ _ _ _); simpl;
    try (intros; simplify_eq; right; right; by eauto);
    unfold Py.int_of_float; destruct (SFmul _ _ _ _);
    intros; simplify_eq; eauto.
Qed.

(** ** Exceptions of [_get_values] *)

Section GetValues.
Context (E : exn → Prop) (a : Action).
Hypothesis E_ArgumentError : ∀ msg, E (ArgumentError (get_action_name a) msg).
Hypothesis E_type : ∀ f s e,
  type a = Some f → type_call f s = Raise e → (∃ msg, e = ValueError msg) ∨ E e.

Lemma get_value_raises s e : get_value a s = Raise e → E e.
Proof.
  unfold get_value. destruct (type a) as [f|] eqn:Hty; [| done].
  destruct (type_call f s) as [v|e'] eqn:Hcall; [done |].
  destruct (E_type f s e' eq_refl Hcall) as [[msg ->]|He'].
  - unfold raise_ArgumentError. intros; simplify_eq. apply E_ArgumentError.
  - unfold raise_ArgumentError.
    destruct e'; intros; simplify_eq; try done; apply E_ArgumentError.
Qed.

Lemma check_value_raises v e : check_value a v = Raise e → E e.
Proof.
  unfold check_value, raise_ArgumentError. destruct (choices a); [| done].
  case_bool_decide; intros; simplify_eq. apply E_ArgumentError.
Qed.

Lemma mapM_raises {X Y} (f : X → result Y) l e :
  (∀ x e, f x = Raise e → E e) → mapM f l = Raise e → E e.
Proof.
  intros Hf. induction l as [|x l IH]; simpl; [done |].
  destruct (f x) eqn:Hfx; simpl; [| intros; simplify_eq; by eapply Hf].
  destruct (mapM f l); simpl; [done |]. intros; simplify_eq. by apply IH.
Qed.

Lemma convert_and_check_raises s e :
  (get_value a s ≫= λ v, check_value a v ≫= λ _, Ok v) = Raise e → E e.
Proof.
  destruct (get_value a s) as [v|e'] eqn:Hv; simpl;
    [| intros; simplify_eq; by eapply get_value_raises].
  destruct (check_value a v) eqn:Hc; simpl; [done |].
  intros; simplify_eq. by eapply check_value_raises.
Qed.

Lemma get_values_raises args e : get_values a args = Raise e → E e.
Proof.
  unfold get_values.
  case_bool_decide.
  { destruct (if bool_decide _ then const a else default a); try done.
    apply convert_and_check_raises. }
  case_bool_decide.
  { destruct (check_value a _) eqn:Hc; simpl; [done |].
    intros; simplify_eq. by eapply check_value_raises. }
  assert ((mapM (get_value a) (remove_first "--" args) ≫= λ vs,
             mapM (check_value a) vs ≫= λ _, Ok (VList vs)) = Raise e → E e) as Hlist.
  { destruct (mapM (get_value a) _) as [vs|e'] eqn:Hm; simpl.
    - destruct (mapM (check_value a) vs) eqn:Hc; simpl; [done |].
      intros; simplify_eq. eapply mapM_raises; [| done]. apply check_value_raises.
    - intros; simplify_eq. eapply mapM_raises; [| done]. apply get_value_raises. }
  destruct (remove_first "--" args) as [|t [|]]; try done.
  destruct (bool_decide _); [| done]. apply convert_and_check_raises.
Qed.
End GetValues.

(** ** The arguments of main.py *)

Ltac main_action_cases H :=
  unfold main_actions in H;
  repeat (apply elem_of_cons in H as [->|H]);
  [ .. | by apply elem_of_nil in H ].

Lemma inner_exn_ArgumentError a msg :
  a ∈ main_actions → inner_exn (ArgumentError (get_action_name a) msg).
Proof.
  intros Ha. main_action_cases Ha; simpl; unfold argument_names;
    repeat first [apply list_elem_of_here | apply list_elem_of_further].
Qed.

Lemma main_type_raises a f s e :
  a ∈ main_actions → type a = Some f → type_call f s = Raise e →
  (∃ msg, e = ValueError msg) ∨ inner_exn e.
Proof.
  intros Ha. main_action_cases Ha; simpl; try done.
  intros ?; simplify_eq. simpl.
  destruct (Main.parse_size s) as [n|e'] eqn:Hp; simpl; [done |].
  intros ?; simplify_eq.
  apply parse_size_raises in Hp as [[? ->]|[[? ->]|[? ->]]]; eauto; by right.
Qed.

Lemma main_get_values_raises a args e :
  a ∈ main_actions → get_values a args = Raise e → inner_exn e.
Proof.
  intros Ha. apply get_values_raises.
  - intros msg. by apply inner_exn_ArgumentError.
  - intros f s e'. by apply main_type_raises.
Qed.

Lemma main_dest_store a :
  a ∈ main_actions → action_class_of a ≠ HelpAction → dest a ∈ main_dests.
Proof.
  intros Ha. main_action_cases Ha; simpl; try done; intros _; unfold main_dests;
    rewrite !elem_of_union, !elem_of_singleton; tauto.
Qed.

(** [take_action] on an argument of main.py keeps the attributes of the
    namespace. *)
Lemma main_take_action st a args :
  a ∈ main_actions → dom (namespace st) = main_dests →
  match take_action st a args with
  | Ok st' =>
      dom (namespace st') = main_dests
      ∧ extras st' = extras st ∧ positionals st' = positionals st
  | Raise e => inner_exn e
  end.
Proof.
  intros Ha Hdom. unfold take_action.
  destruct (get_values a args) as [v|e] eqn:Hv; simpl;
    [| by eapply main_get_values_raises].
  case_bool_decide; simpl; [done |].
  unfold call_action.
  pose proof (main_dest_store a Ha) as Hdest.
  destruct (action_class_of a); simpl; try done.
  - repeat split. rewrite dom_insert_L, Hdom.
    apply subseteq_union_1_L, singleton_subseteq_l. by apply Hdest.
  - repeat split. rewrite dom_insert_L, Hdom.
    apply subseteq_union_1_L, singleton_subseteq_l. by apply Hdest.
Qed.

(** ** Defaults and their conversion in main.py *)

Lemma main_defaults_eq : foldl add_default ∅ main_actions = main_defaults.
Proof. reflexivity. Qed.

Lemma main_defaults_dom : dom main_defaults = main_dests.
Proof. reflexivity. Qed.

(** With all seven attributes present, no default is applied. *)
Lemma add_defaults_present (ns : gmap string value) :
  dom ns = main_dests → foldl add_default ns main_actions = ns.
Proof.
  intros Hdom.
  assert (∀ k, k ∈ main_dests → is_Some (ns !! k)) as Hin.
  { intros k Hk. apply elem_of_dom. by rewrite Hdom. }
  assert (∀ a, dest a ∈ main_dests → add_default ns a = ns) as Hstep.
  { intros a Ha. unfold add_default. by destruct (Hin _ Ha) as [v ->]. }
  unfold main_actions. simpl foldl.
  assert (add_default ns help_action = ns) as ->.
  { unfold add_default. simpl dest. simpl default.
    destruct (ns !! "help"); [done |].
    rewrite bool_decide_eq_false_2; [reflexivity |]. intros H. exact (H eq_refl). }
  rewrite !Hstep; [done | ..]; simpl; unfold main_dests;
    rewrite !elem_of_union, !elem_of_singleton; tauto.
Qed.

Lemma convert_default_no_str seen acc a :
  required a = false →
  match default a with VStr _ => False | _ => True end →
  convert_default seen acc a = Ok acc.
Proof.
  intros Hreq Hdef. destruct acc as [req ns]. unfold convert_default.
  destruct (action_in a seen); [done |]. rewrite Hreq. by destruct (default a).
Qed.

Lemma convert_default_str seen req ns a s v :
  required a = false → default a = VStr s → get_value a s = Ok v →
  convert_default seen (req, ns) a = Ok (req, convert_str_default seen a v ns).
Proof.
  intros Hreq Hdef Hv. unfold convert_default, convert_str_default.
  destruct (action_in a seen); [done |]. rewrite Hreq, Hdef.
  case_bool_decide; [| done]. by rewrite Hv.
Qed.

Lemma convert_default_source seen req ns :
  convert_default seen (req, ns) source_action
  = Ok (if action_in source_action seen then req else req ++ ["source"], ns).
Proof. unfold convert_default. by destruct (action_in _ _). Qed.

Lemma finish_spec seen ns :
  foldM (convert_default seen) ([], ns) main_actions
  = Ok (if action_in source_action seen then [] else ["source"],
        finish_namespace seen ns).
Proof.
  unfold main_actions. cbn [foldM].
  rewrite (convert_default_no_str seen _ help_action) by done. cbn [mbind result_bind].
  rewrite convert_default_source. cbn [mbind result_bind].
  rewrite (convert_default_str seen _ _ optional_destination_action
             "default_value" (VStr "default_value")) by done.
  cbn [mbind result_bind].
  rewrite (convert_default_no_str seen _ files_action) by done. cbn [mbind result_bind].
  rewrite (convert_default_no_str seen _ required_files_action) by done.
  cbn [mbind result_bind].
  rewrite (convert_default_no_str seen _ verbose_action) by done. cbn [mbind result_bind].
  rewrite (convert_default_str seen _ _ mode_action "auto" (VStr "auto")) by done.
  cbn [mbind result_bind].
  rewrite (convert_default_str seen _ _ size_action "1MB" (VInt 1048576))
    by (done || by vm_compute).
  done.
Qed.

Lemma convert_str_default_dom seen a v ns :
  dom (convert_str_default seen a v ns) = dom ns.
Proof.
  unfold convert_str_default. destruct (action_in a seen); [done |].
  case_bool_decide as Hl; [| done]. rewrite dom_insert_L.
  apply subseteq_union_1_L, singleton_subseteq_l, elem_of_dom. by rewrite Hl.
Qed.

Lemma finish_namespace_dom seen ns : dom (finish_namespace seen ns) = dom ns.
Proof. unfold finish_namespace. by rewrite !convert_str_default_dom. Qed.

(** ** The outcomes of parsing in main.py *)

Section MainRun.
Context (prog : string) (arg_strings : list string) (classes : list arg_class).
Hypothesis classified : classify (main_parser prog) arg_strings = Ok classes.

Lemma classes_length : length classes = length arg_strings.
Proof. pose proof (classify_spec (main_parser prog) arg_strings) as H.
       rewrite classified in H. apply H. Qed.

Lemma classes_actions i a s e :
  assoc i (option_string_indices classes) = Some (Some a, s, e) → a ∈ main_actions.
Proof.
  rewrite assoc_option_string_indices.
  destruct (classes !! i) as [[t| |]|] eqn:Hi; try done. intros ?; simplify_eq.
  pose proof (classify_spec (main_parser prog) arg_strings) as H.
  rewrite classified in H. destruct H as [_ H]. eapply H.
  by eapply list_elem_of_lookup_2.
Qed.

Lemma short_option_actions s a :
  assoc s (option_string_actions (main_parser prog)) = Some a → a ∈ main_actions.
Proof. apply assoc_option_string_actions. Qed.

Definition keeps_dests (ns : gmap string value) (seen : list Action)
    (ns' : gmap string value) (seen' : list Action) : Prop :=
  ns = ns' ∧ seen = seen' ∧ dom ns = main_dests.

Lemma run_outcome st :
  dom (namespace st) = main_dests → Forall (.∈ main_actions) (positionals st) →
  match run (main_parser prog) arg_strings classes st with
  | Ok (_, st') => dom (namespace st') = main_dests
  | Raise e => inner_exn e
  end.
Proof.
  intros Hdom Hpos.
  assert (related keeps_dests (.∈ main_actions) st st) as Hrel.
  { by repeat split. }
  assert (∀ st1 st2 a args,
            a ∈ main_actions → related keeps_dests (.∈ main_actions) st1 st2 →
            agree inner_exn (related keeps_dests (.∈ main_actions))
              (take_action st1 a args) (take_action st2 a args)) as Htake.
  { intros st1 st2 a args Ha ((Hns & Hseen & Hd) & Hex & Hp & HA).
    apply take_action_agree.
    - intros e. by apply main_get_values_raises.
    - done.
    - intros v _ _. repeat split; simpl; try done. by rewrite Hseen.
    - intros v _ _ Hcls w. repeat split; simpl; try done.
      + by rewrite Hns.
      + by rewrite Hseen.
      + rewrite dom_insert_L, Hd.
        apply subseteq_union_1_L, singleton_subseteq_l. by apply main_dest_store. }
  assert (agree inner_exn (related_at keeps_dests (.∈ main_actions)) (run (main_parser prog) arg_strings classes st)
            (run (main_parser prog) arg_strings classes st))
    as Hrun.
  { apply run_related; try done.
    - apply classes_actions.
    - intros _ c0 c a. apply short_option_actions.
    - intros a msg. apply inner_exn_ArgumentError.
    - apply classes_length. }
  destruct (run _ _ _ st) as [[i st']|e]; simpl in *.
  - by destruct Hrun as (_ & (_ & _ & ?) & _).
  - by destruct Hrun as [_ ?].
Qed.
End MainRun.

Lemma expected_error prog m :
  names_argument m → expected_outcome prog (Raise (error_exit prog m)).
Proof. intros Hm. right. by exists m. Qed.

Lemma expected_inner_exn prog e
    (k : gmap string value * list string → result (gmap string value)) :
  inner_exn e →
  expected_outcome prog
    (match Raise e with
     | Raise (ArgumentError argument_name message) =>
         error (main_parser prog) (ArgumentError_str argument_name message)
     | r => r
     end ≫= k).
Proof.
  destruct e as [| | |[n|]| |]; try done; simpl.
  - intros Hn. apply (expected_error prog). left. by eexists _, _.
  - intros [Hs Hm]. subst. by left.
Qed.

Lemma parse_args_outcome prog args ns :
  dom (foldl add_default ns main_actions) = main_dests →
  expected_outcome prog (parse_args (main_parser prog) args ns).
Proof.
  intros Hdom. unfold parse_args, parse_known_args, _parse_known_args.
  change (actions (main_parser prog)) with main_actions.
  remember (foldl add_default ns main_actions) as ns0 eqn:Hns0. clear Hns0.
  pose proof (classify_spec (main_parser prog) args) as Hc.
  destruct (classify (main_parser prog) args) as [classes|e] eqn:Hclass;
    cbn [mbind result_bind].
  2:{ destruct Hc as [detail ->]. apply expected_error.
      right; right; right. by eexists. }
  assert (Forall (.∈ main_actions) (get_positional_actions (main_parser prog))) as Hpa.
  { by repeat constructor. }
  pose proof (run_outcome prog args classes Hclass
                (mkState ns0 [] [] (get_positional_actions (main_parser prog)))
                Hdom Hpa) as Hrun.
  unfold run in Hrun.
  destruct (consume_loop _ _ _ _ _ _) as [[i st]|e] eqn:Hloop;
    cbn [mbind result_bind] in *; [| by apply expected_inner_exn].
  destruct (consume_positionals _ _ _ _) as [[j st']|e] eqn:Hpos;
    cbn [mbind result_bind] in *; [| by apply expected_inner_exn].
  rewrite finish_spec. cbn [mbind result_bind].
  destruct (action_in source_action (seen_actions st')).
  - rewrite bool_decide_eq_false_2 by (intros H; by apply H).
    cbv iota. cbn [mbind result_bind].
    destruct (bool_decide (_ ≠ [])); cbn [mbind result_bind].
    + apply expected_error. right; right; left. by eexists.
    + unfold expected_outcome. by rewrite finish_namespace_dom.
  - rewrite bool_decide_eq_true_2 by done.
    apply expected_error. by right; left.
Qed.

(** ** Parsing again into the namespace of a first parse *)

Lemma mapM_Ok_length {X Y} (f : X → result Y) l r : mapM f l = Ok r → length r = length l.
Proof.
  revert r. induction l as [|x l IH]; intros r; simpl; [by intros; simplify_eq |].
  destruct (f x); simpl; [| done]. destruct (mapM f l); simpl; [| done].
  intros; simplify_eq. simpl. by rewrite (IH _ eq_refl).
Qed.

(** [_get_values] returns [SUPPRESS] only from a [const] or [default]. *)
Lemma get_values_not_suppress a args v :
  (∀ s v, get_value a s = Ok v → v ≠ VSuppress) →
  (nargs a = OPTIONAL → const a ≠ VSuppress ∧ default a ≠ VSuppress) →
  (nargs a = ZERO_OR_MORE → default a ≠ VSuppress) →
  get_values a args = Ok v → v ≠ VSuppress.
Proof.
  intros Hvalue Hopt Hstar. unfold get_values.
  assert (∀ s w, (get_value a s ≫= λ v', check_value a v' ≫= λ _, Ok v') = Ok w →
                 w ≠ VSuppress) as Hone.
  { intros s w. destruct (get_value a s) as [v'|] eqn:Hv'; simpl; [| done].
    destruct (check_value a v'); simpl; [| done]. intros ?; simplify_eq. by eapply Hvalue. }
  case_bool_decide as H1.
  { destruct H1 as [_ H1]. destruct (Hopt H1) as [Hc Hd].
    destruct (if bool_decide _ then const a else default a) eqn:Hv0;
      try (intros ?; by simplify_eq); try (by eapply Hone).
    intros _ _. by case_bool_decide. }
  case_bool_decide as H2.
  { destruct H2 as (_ & H2 & _). specialize (Hstar H2).
    destruct (check_value a _); simpl; [| done]. intros ?; simplify_eq.
    by case_bool_decide. }
  assert (∀ l, (mapM (get_value a) l ≫= λ vs,
                  mapM (check_value a) vs ≫= λ _, Ok (VList vs)) = Ok v →
               v ≠ VSuppress) as Hlist.
  { intros l. destruct (mapM (get_value a) l); simpl; [| done].
    destruct (mapM (check_value a) _); simpl; [| done]. by intros ?; simplify_eq. }
  destruct (remove_first "--" args) as [|t [|]]; try apply Hlist.
  destruct (bool_decide _); [apply Hone | apply Hlist].
Qed.

Lemma main_get_values_not_suppress a args v :
  a ∈ main_actions → get_values a args = Ok v → v ≠ VSuppress.
Proof.
  intros Ha. apply get_values_not_suppress.
  - intros s w. unfold get_value.
    main_action_cases Ha; simpl; try (intros ?; by simplify_eq).
    unfold raise_ArgumentError.
    destruct (Main.parse_size s) as [n|[]]; simpl; intros ?; by simplify_eq.
  - main_action_cases Ha; simpl; by intros.
  - main_action_cases Ha; simpl; by intros.
Qed.

(** In main.py two arguments never share a destination. *)
Lemma main_dest_inj a b :
  a ∈ main_actions → b ∈ main_actions → dest a = dest b → a = b.
Proof.
  intros Ha Hb. main_action_cases Ha; main_action_cases Hb; simpl; done.
Qed.

Lemma main_action_in a seen :
  a ∈ main_actions → Forall (.∈ main_actions) seen →
  action_in a seen = true ↔ dest a ∈ dest <$> seen.
Proof.
  intros Ha Hseen. unfold action_in. rewrite existsb_exists, list_elem_of_fmap.
  split.
  - intros (b & Hb & Heq). exists b. unfold action_eqb in Heq.
    apply bool_decide_eq_true in Heq as [_ Hd]. split; [done |].
    by apply list_elem_of_In.
  - intros (b & Hd & Hb). exists b. split; [by apply list_elem_of_In |].
    assert (a = b) as ->.
    { apply main_dest_inj; [done | | done].
      by apply (proj1 (Forall_forall _ _) Hseen). }
    unfold action_eqb. by apply bool_decide_eq_true.
Qed.

(** The conversion of the string defaults only changes [size], once. *)
Lemma convert_str_default_same seen a ns :
  convert_str_default seen a (default a) ns = ns.
Proof.
  unfold convert_str_default. destruct (action_in a seen); [done |].
  case_bool_decide; [| done]. by apply insert_id.
Qed.

Lemma finish_namespace_size seen ns :
  finish_namespace seen ns = convert_str_default seen size_action (VInt 1048576) ns.
Proof.
  unfold finish_namespace.
  rewrite (convert_str_default_same seen optional_destination_action).
  by rewrite (convert_str_default_same seen mode_action).
Qed.

Lemma finish_namespace_idem seen ns :
  finish_namespace seen (finish_namespace seen ns) = finish_namespace seen ns.
Proof.
  rewrite !finish_namespace_size. unfold convert_str_default.
  destruct (action_in size_action seen); [done |].
  destruct (bool_decide (ns !! dest size_action = Some (default size_action))) eqn:H1.
  - rewrite bool_decide_eq_false_2; [done |].
    simpl. by rewrite lookup_insert_eq.
  - by rewrite H1.
Qed.

Lemma finish_namespace_lookup seen ns k :
  Forall (.∈ main_actions) seen → k ∈ dest <$> seen →
  finish_namespace seen ns !! k = ns !! k.
Proof.
  intros Hseen Hk. rewrite finish_namespace_size. unfold convert_str_default.
  destruct (action_in size_action seen) eqn:Hin; [done |].
  case_bool_decide; [| done].
  apply lookup_insert_ne. intros <-.
  apply main_action_in in Hk; [| by repeat constructor | done].
  by rewrite Hk in Hin.
Qed.

Section Again.
Context (prog : string) (arg_strings : list string) (classes : list arg_class).
Hypothesis classified : classify (main_parser prog) arg_strings = Ok classes.
(** The namespace the second parse starts from. *)
Context (N : gmap string value).

Definition same_stores (ns1 : gmap string value) (seen1 : list Action)
    (ns2 : gmap string value) (seen2 : list Action) : Prop :=
  seen1 = seen2
  ∧ Forall (.∈ main_actions) seen1
  ∧ (∀ k, k ∈ dest <$> seen1 → ns1 !! k = ns2 !! k)
  ∧ (∀ k, k ∉ dest <$> seen1 → ns2 !! k = N !! k).

Lemma take_action_same_stores st1 st2 a args :
  a ∈ main_actions → related same_stores (.∈ main_actions) st1 st2 →
  agree (λ _, True) (related same_stores (.∈ main_actions))
    (take_action st1 a args) (take_action st2 a args).
Proof.
  intros Ha ((Hseen & Hmain & Hin & Hout) & Hex & Hp & HA).
  apply take_action_agree; try done.
  - intros v Hv ->. by apply main_get_values_not_suppress in Hv.
  - intros v _ _ _ w. unfold related.
    cbn [namespace seen_actions extras positionals].
    split; [| done]. split; [by rewrite Hseen |]. split; [by constructor |].
    split.
    + intros k Hk. destruct (decide (k = dest a)) as [->|Hne].
      * by rewrite !lookup_insert_eq.
      * rewrite !lookup_insert_ne by done. apply Hin.
        rewrite fmap_cons in Hk. by apply elem_of_cons in Hk as [?|?].
    + intros k Hk. rewrite fmap_cons in Hk.
      apply not_elem_of_cons in Hk as [Hne Hk].
      rewrite lookup_insert_ne by done. by apply Hout.
Qed.

Lemma run_again st1 st2 :
  related same_stores (.∈ main_actions) st1 st2 →
  agree (λ _, True) (related_at same_stores (.∈ main_actions))
    (run (main_parser prog) arg_strings classes st1)
    (run (main_parser prog) arg_strings classes st2).
Proof.
  intros Hrel. apply run_related; try done.
  - intros. by apply take_action_same_stores.
  - apply (classes_actions prog arg_strings classes classified).
  - intros _ c0 c a. apply short_option_actions.
  - apply (classes_length prog arg_strings classes classified).
Qed.
End Again.

Lemma parse_args_again prog args ns :
  parse_args (main_parser prog) args ∅ = Ok ns →
  parse_args (main_parser prog) args ns = Ok ns.
Proof.
  intros Hfirst.
  assert (dom ns = main_dests) as Hdom.
  { pose proof (parse_args_outcome prog args ∅) as H.
    rewrite main_defaults_eq, Hfirst in H. by apply H, main_defaults_dom. }
  revert Hfirst. unfold parse_args, parse_known_args, _parse_known_args.
  change (actions (main_parser prog)) with main_actions.
  rewrite main_defaults_eq, (add_defaults_present ns Hdom).
  destruct (classify (main_parser prog) args) as [classes|e] eqn:Hclass;
    cbn [mbind result_bind]; [| by destruct e].
  assert (agree (λ _, True) (related_at (same_stores ns) (.∈ main_actions))
            (run (main_parser prog) args classes
               (mkState main_defaults [] [] (get_positional_actions (main_parser prog))))
            (run (main_parser prog) args classes
               (mkState ns [] [] (get_positional_actions (main_parser prog))))) as Hrun.
  { apply run_again; [done |]. unfold related, same_stores.
    cbn [namespace seen_actions extras positionals].
    split; [| split; [done | split; [done | by repeat constructor]]].
    split; [done |]. split; [constructor |].
    split; [by intros k ?%elem_of_nil | done]. }
  unfold run in Hrun.
  destruct (consume_loop _ _ _ _ _ (mkState main_defaults _ _ _)) as [[i st1]|e] eqn:Hloop1;
    cbn [mbind result_bind] in *; [| by destruct e].
  destruct (consume_positionals _ _ _ st1) as [[j st1']|e] eqn:Hpos1;
    cbn [mbind result_bind] in *; [| by destruct e].
  rewrite finish_spec. cbn [mbind result_bind].
  destruct (action_in source_action (seen_actions st1')) eqn:Hsrc;
    [| by rewrite bool_decide_eq_true_2].
  rewrite bool_decide_eq_false_2 by (intros H; by apply H).
  cbv iota. cbn [mbind result_bind].
  destruct (bool_decide (_ ≠ [])) eqn:Hextras; cbn [mbind result_bind]; [done |].
  intros Hns. injection Hns as Hns.
  destruct (consume_loop _ _ _ _ _ (mkState ns _ _ _)) as [[i2 st2]|e];
    cbn [mbind result_bind] in *; [| done].
  destruct (consume_positionals _ _ _ st2) as [[j2 st2']|e];
    cbn [mbind result_bind] in *; [| done].
  destruct Hrun as (Hj & (Hseen & Hmain & Hin & Hout) & Hex & Hp & HA).
  simpl in Hj. subst j2.
  assert (namespace st2' = ns) as Hns2.
  { apply map_eq. intros k.
    destruct (decide (k ∈ dest <$> seen_actions st1')) as [Hk|Hk].
    - simpl in Hin. rewrite <- Hin by done. rewrite <- Hns.
      by rewrite finish_namespace_lookup.
    - by apply Hout. }
  rewrite finish_spec. cbn [mbind result_bind].
  simpl in Hseen, Hex.
  rewrite <- Hseen, Hsrc, <- Hex.
  rewrite bool_decide_eq_false_2 by (intros H; by apply H).
  cbv iota. cbn [mbind result_bind]. rewrite Hextras. cbn [mbind result_bind].
  f_equal. rewrite Hns2, <- Hns. apply finish_namespace_idem.
Qed.

(** ** An option that cannot take its arguments stops the loop *)

Section StopsAt.
Context (parser : ArgumentParser) (arg_strings : list string)
        (classes : list arg_class) (i : nat).
Hypothesis option_at_i : is_option_at classes i.
Hypothesis fails_at_i : ∀ st, ∃ e, consume_optional parser arg_strings classes i st = Raise e.

Lemma consume_loop_stops_at fuel : ∀ start st,
  (start ≤ i)%nat →
  ∃ e, consume_loop parser arg_strings classes fuel start st = Raise e.
Proof.
  pose proof (max_option_string_index_ge classes i option_at_i) as Hmax.
  induction fuel as [|fuel IH]; intros start st Hle; simpl.
  - destruct (Z.leb_spec (Z.of_nat start) (max_option_string_index classes));
      [by eexists | lia].
  - destruct (Z.leb_spec (Z.of_nat start) (max_option_string_index classes));
      [| lia].
    destruct (next_option_string_index_spec classes start i option_at_i Hle)
      as [Hnext _].
    assert (∀ k st', (k ≤ i)%nat →
              ∃ e, (consume_optional parser arg_strings classes k st' ≫=
                      λ '(start_index, st),
                        consume_loop parser arg_strings classes fuel start_index st)
                   = Raise e) as Hstep.
    { intros k st' Hk. destruct (decide (k = i)) as [->|Hne].
      - destruct (fails_at_i st') as [e ->]. by eexists.
      - destruct (consume_optional _ _ _ k st') as [[j st'']|e] eqn:Ho;
          cbn [mbind result_bind]; [| by eexists].
        apply consume_optional_index in Ho. simpl in Ho.
        pose proof (free_prefix_before_option classes (k + 1) i option_at_i).
        apply IH. lia. }
    case_bool_decide; cbn [mbind result_bind].
    + destruct (consume_positionals _ _ _ _) as [[e st']|ex] eqn:Hp;
        cbn [mbind result_bind]; [| by eexists].
      apply consume_positionals_index in Hp. simpl in Hp.
      pose proof (free_prefix_before_option classes start i option_at_i Hle).
      case_bool_decide; [apply IH; lia |].
      assert (e = start) as -> by lia.
      case_bool_decide; apply Hstep; lia.
    + case_bool_decide; apply Hstep; lia.
Qed.
End StopsAt.

(** ** Classification, argument string by argument string *)

Lemma classify_app_no_dashdash parser pre rest :
  "--" ∉ pre →
  classify parser (pre ++ rest)
  = (cs ← mapM (λ t, o ← parse_optional parser t;
                     Ok match o with None => ClsArgument | Some t => ClsOption t end) pre;
     cs' ← classify parser rest; Ok (cs ++ cs')).
Proof.
  induction pre as [|t pre IH]; intros Hpre; simpl.
  - by destruct (classify parser rest).
  - apply not_elem_of_cons in Hpre as [Hne Hpre].
    rewrite (proj2 (String.eqb_neq t "--")) by done.
    destruct (parse_optional parser t) as [o|]; simpl; [| done].
    rewrite IH by done.
    destruct (mapM _ pre); simpl; [| done].
    by destruct (classify parser rest).
Qed.

Lemma classify_cons parser t rest :
  t ≠ "--" →
  classify parser (t :: rest)
  = (o ← parse_optional parser t;
     classes ← classify parser rest;
     Ok (match o with None => ClsArgument | Some t => ClsOption t end :: classes)).
Proof. intros Hne. cbn [classify]. by rewrite (proj2 (String.eqb_neq _ _) Hne). Qed.

Lemma mapM_Ok_lookup {X Y} (f : X → result Y) l r i x :
  mapM f l = Ok r → l !! i = Some x → ∃ y, r !! i = Some y ∧ f x = Ok y.
Proof.
  revert r i. induction l as [|x' l IH]; intros r i; simpl; [done |].
  destruct (f x') as [y'|] eqn:Hf; simpl; [| done].
  destruct (mapM f l) as [r'|]; simpl; [| done]. intros ?; simplify_eq.
  destruct i as [|i]; simpl.
  - intros ?; simplify_eq. eauto.
  - by apply IH.
Qed.

(** Every option class comes from an argument string that
    [_parse_optional] recognises. *)
Lemma classify_option_elem parser arg_strings classes t :
  classify parser arg_strings = Ok classes → ClsOption t ∈ classes →
  ∃ arg_string, arg_string ∈ arg_strings ∧ parse_optional parser arg_string = Ok (Some t).
Proof.
  revert classes. induction arg_strings as [|a rest IH]; intros classes; simpl.
  - intros ?; simplify_eq. by intros ?%elem_of_nil.
  - destruct (String.eqb a "--").
    + intros ?; simplify_eq. intros [?|Hin]%elem_of_cons; [done |].
      by apply list_elem_of_fmap in Hin as (? & ? & ?).
    + destruct (parse_optional parser a) as [o|] eqn:Ho; simpl; [| done].
      destruct (classify parser rest) as [cs|]; simpl; [| done].
      intros ?; simplify_eq. intros [Heq|Hin]%elem_of_cons.
      * destruct o; simplify_eq. exists a. split; [left | done].
      * destruct (IH cs eq_refl Hin) as (x & ? & ?). exists x. split; [by right | done].
Qed.

(** ** [--required-files] without values *)

Lemma parse_optional_required_files prog :
  parse_optional (main_parser prog) "--required-files" = Ok (Some required_files_tuple).
Proof. by vm_compute. Qed.

Lemma match_argument_required_files p :
  head p ≠ Some PA →
  match_argument required_files_action p = Raise required_files_error.
Proof.
  intros Hp. unfold match_argument.
  change (get_nargs_pattern required_files_action) with [ReChar PA; ReStar [PA]].
  destruct p as [|[] p]; simpl in *; done.
Qed.

Lemma head_drop_fmap {X Y} (f : X → Y) (l : list X) n :
  head (drop n (f <$> l)) = f <$> l !! n.
Proof.
  revert n. induction l as [|x l IH]; intros [|n]; simpl; try done.
Qed.

Lemma consume_optional_required_files prog args classes i st :
  classes !! i = Some (ClsOption required_files_tuple) →
  classes !! S i ≠ Some ClsArgument →
  consume_optional (main_parser prog) args classes i st = Raise required_files_error.
Proof.
  intros Hi Hnext. unfold consume_optional.
  rewrite assoc_option_string_indices, Hi. unfold required_files_tuple.
  unfold consume_optional_following.
  rewrite match_argument_required_files; [done |].
  unfold arg_strings_pattern. rewrite head_drop_fmap.
  replace (i + 1)%nat with (S i) by lia.
  destruct (classes !! S i) as [[]|]; simpl; done.
Qed.

(** The classes of [pre ++ "--required-files" :: rest] when no ["--"]
    stands in [pre] and [rest] does not begin with an argument. *)
Lemma classify_required_files prog pre rest classes :
  "--" ∉ pre → not_an_argument (main_parser prog) rest →
  classify (main_parser prog) (pre ++ "--required-files" :: rest) = Ok classes →
  classes !! length pre = Some (ClsOption required_files_tuple)
  ∧ classes !! S (length pre) ≠ Some ClsArgument
  ∧ ∀ k, (k < length pre)%nat →
         ∃ t o, pre !! k = Some t ∧ parse_optional (main_parser prog) t = Ok o
                ∧ classes !! k = Some match o with
                                      | None => ClsArgument
                                      | Some t => ClsOption t
                                      end.
Proof.
  intros Hpre Hrest. rewrite classify_app_no_dashdash by done.
  destruct (mapM _ pre) as [cs|] eqn:Hcs; cbn [mbind result_bind]; [| done].
  pose proof (mapM_Ok_length _ _ _ Hcs) as Hlen.
  rewrite classify_cons by done.
  rewrite parse_optional_required_files. cbn [mbind result_bind].
  destruct (classify (main_parser prog) rest) as [cs'|] eqn:Hcs';
    cbn [mbind result_bind]; [| done].
  intros ?; simplify_eq. split; [| split].
  - rewrite lookup_app_r by lia. by rewrite Hlen, Nat.sub_diag.
  - rewrite lookup_app_r by lia. rewrite Hlen.
    replace (S (length pre) - length pre)%nat with 1%nat by lia. simpl.
    destruct rest as [|t rest]; simpl in *; [by simplify_eq |].
    destruct (String.eqb t "--") eqn:Ht.
    + by simplify_eq.
    + destruct Hrest as [->|Hrest]; [done |].
      destruct (parse_optional (main_parser prog) t) as [[o|]|]; simpl in *; try done.
      destruct (classify (main_parser prog) rest); simpl in *; by simplify_eq.
  - intros k Hk. destruct (lookup_lt_is_Some_2 pre k Hk) as [t Ht].
    destruct (mapM_Ok_lookup _ _ _ _ _ Hcs Ht) as (c & Hc & Hf).
    destruct (parse_optional (main_parser prog) t) as [o|] eqn:Ho; simpl in Hf; [| done].
    exists t, o. split; [done |]. split; [done |].
    rewrite lookup_app_l by lia. by simplify_eq.
Qed.

(** No parse succeeds when [--required-files] is followed by no value. *)
Lemma required_files_without_values_fails argv0 pre rest cls :
  "--" ∉ pre → not_an_argument (main_parser (basename argv0)) rest →
  ∃ e, Main.setup_parser (argv0 :: pre ++ "--required-files" :: rest) cls = Raise e.
Proof.
  intros Hpre Hrest. unfold Main.setup_parser. simpl List.hd. simpl List.tl.
  rewrite build_parser_eq. cbn [mbind result_bind].
  unfold parse_args, parse_known_args, _parse_known_args.
  destruct (classify _ _) as [classes|e] eqn:Hclass; cbn [mbind result_bind].
  2:{ destruct e; by eexists. }
  destruct (classify_required_files _ pre rest classes Hpre Hrest Hclass)
    as (Hi & Hnext & _).
  edestruct (consume_loop_stops_at (main_parser (basename argv0))
               (pre ++ "--required-files" :: rest) classes (length pre)) as [e ->].
  - by eexists.
  - intros st. eexists. by apply consume_optional_required_files.
  - lia.
  - cbn [mbind result_bind]. destruct e; by eexists.
Qed.

Local Open Scope nat_scope.

(** ** What stands before an option string decides whether it is reached *)

(** *** A match does not look past the next ['O'] *)

Lemma free_prefix_app_O s r : free_prefix (s ++ PO :: r) ≤ length s.
Proof.
  unfold free_prefix. induction s as [|x s IH]; simpl; [done |].
  case_bool_decide; lia.
Qed.

Lemma count_prefix_app_O cs s r1 r2 :
  PO ∉ cs → count_prefix cs (s ++ PO :: r1) = count_prefix cs (s ++ PO :: r2).
Proof.
  intros Hcs. induction s as [|x s IH]; simpl.
  - by rewrite !bool_decide_eq_false_2.
  - by rewrite IH.
Qed.

Lemma item_matches_app_O it s r1 r2 :
  item_avoids_O it →
  item_matches it (s ++ PO :: r1) = item_matches it (s ++ PO :: r2).
Proof.
  destruct it as [c|c|cs]; simpl; intros Hit.
  - by destruct s.
  - by destruct s.
  - by rewrite (count_prefix_app_O cs s r1 r2).
Qed.

Lemma list_bind_ext_in {X Y} (f g : X → list Y) (l : list X) :
  (∀ x, x ∈ l → f x = g x) → l ≫= f = l ≫= g.
Proof.
  induction l as [|x l IH]; intros Hfg; [done |].
  cbn [mbind list_bind]. rewrite (Hfg x) by left.
  f_equal. apply IH. intros y Hy. apply Hfg. by right.
Qed.

Lemma first_some_ext_in {X Y} (f g : X → option Y) (l : list X) :
  (∀ x, x ∈ l → f x = g x) → first_some f l = first_some g l.
Proof.
  induction l as [|x l IH]; intros Hfg; [done |].
  simpl. rewrite (Hfg x) by left. destruct (g x); [done |].
  apply IH. intros y Hy. apply Hfg. by right.
Qed.

Lemma group_matches_app_O g : ∀ s r1 r2,
  Forall item_avoids_O g →
  group_matches g (s ++ PO :: r1) = group_matches g (s ++ PO :: r2).
Proof.
  induction g as [|it g IH]; intros s r1 r2 Hg; [done |].
  inversion Hg as [|? ? Hit Hg']; subst. cbn [group_matches].
  rewrite (item_matches_app_O it s r1 r2) by done.
  apply list_bind_ext_in. intros n Hn.
  apply item_matches_le in Hn; [| done].
  pose proof (free_prefix_app_O s r2).
  rewrite !drop_app_le by lia. by rewrite (IH (drop n s) r1 r2).
Qed.

Lemma re_match_app_O gs : ∀ s r1 r2,
  Forall (Forall item_avoids_O) gs →
  re_match gs (s ++ PO :: r1) = re_match gs (s ++ PO :: r2).
Proof.
  induction gs as [|g gs IH]; intros s r1 r2 Hgs; [done |].
  inversion Hgs as [|? ? Hg Hgs']; subst. cbn [re_match].
  rewrite (group_matches_app_O g s r1 r2) by done.
  apply first_some_ext_in. intros n Hn.
  apply group_matches_le in Hn; [| done].
  pose proof (free_prefix_app_O s r2).
  rewrite !drop_app_le by lia. by rewrite (IH (drop n s) r1 r2).
Qed.

Lemma match_argument_app_O a s r1 r2 :
  match_argument a (s ++ PO :: r1) = match_argument a (s ++ PO :: r2).
Proof.
  unfold match_argument. rewrite (re_match_app_O _ s r1 r2); [done |].
  repeat constructor. apply get_nargs_pattern_avoids.
Qed.

Lemma match_arguments_partial_app_O acts s r1 r2 :
  match_arguments_partial acts (s ++ PO :: r1)
  = match_arguments_partial acts (s ++ PO :: r2).
Proof.
  unfold match_arguments_partial. generalize (length acts) as i.
  induction i as [|i IH]; [done |]. cbn [match_arguments_partial_upto].
  rewrite (re_match_app_O _ s r1 r2), IH; [done |].
  apply Forall_fmap, Forall_forall. intros a _. apply get_nargs_pattern_avoids.
Qed.

(** *** Two command lines with the same beginning *)

Section TwoRuns.
Context (parser : ArgumentParser) (pre : list string) (cpre : list arg_class)
        (tup : option_tuple).
Context (tail1 tail2 : list string) (c1 c2 : list arg_class).
Hypothesis cpre_length : length cpre = length pre.

Let args1 : list string := pre ++ tail1.
Let args2 : list string := pre ++ tail2.
Let classes1 : list arg_class := cpre ++ ClsOption tup :: c1.
Let classes2 : list arg_class := cpre ++ ClsOption tup :: c2.
Let i : nat := length pre.

Lemma drop_pattern c k :
  k ≤ i →
  drop k (arg_strings_pattern (cpre ++ ClsOption tup :: c))
  = drop k (pat_of <$> cpre) ++ PO :: (pat_of <$> c).
Proof.
  intros Hk. unfold arg_strings_pattern. rewrite fmap_app, fmap_cons.
  rewrite drop_app_le; [done |]. rewrite length_fmap. unfold i in Hk. lia.
Qed.

Lemma free_prefix_pattern c k :
  k ≤ i → k + free_prefix (drop k (arg_strings_pattern (cpre ++ ClsOption tup :: c))) ≤ i.
Proof.
  intros Hk. rewrite drop_pattern by done.
  pose proof (free_prefix_app_O (drop k (pat_of <$> cpre)) (pat_of <$> c)) as H.
  rewrite length_drop, length_fmap in H. unfold i in *. lia.
Qed.

Lemma option_at_i c : is_option_at (cpre ++ ClsOption tup :: c) i.
Proof.
  exists tup. rewrite lookup_app_r by (unfold i; lia).
  unfold i. by rewrite cpre_length, Nat.sub_diag.
Qed.

Lemma classes_lookup_prefix k : k ≤ i → classes1 !! k = classes2 !! k.
Proof.
  intros Hk. unfold classes1, classes2.
  destruct (decide (k = i)) as [->|Hne].
  - destruct (option_at_i c1) as [t1 H1]. destruct (option_at_i c2) as [t2 H2].
    rewrite !lookup_app_r by (unfold i; lia).
    unfold i. by rewrite cpre_length, Nat.sub_diag.
  - rewrite !lookup_app_l by (unfold i in *; lia). done.
Qed.

Lemma assoc_indices_prefix k :
  k ≤ i →
  assoc k (option_string_indices classes1) = assoc k (option_string_indices classes2).
Proof.
  intros Hk. by rewrite !assoc_option_string_indices, classes_lookup_prefix.
Qed.

Lemma next_option_string_index_prefix start :
  start ≤ i →
  next_option_string_index classes1 start = next_option_string_index classes2 start.
Proof.
  intros Hle.
  destruct (next_option_string_index_spec classes1 start i (option_at_i c1) Hle)
    as [[Hge1 Hle1] [t1 Ht1]].
  destruct (next_option_string_index_spec classes2 start i (option_at_i c2) Hle)
    as [[Hge2 Hle2] [t2 Ht2]].
  rewrite classes_lookup_prefix in Ht1 by done.
  rewrite <- classes_lookup_prefix in Ht2 by done.
  destruct (next_option_string_index_spec classes2 start _ (ex_intro _ t1 Ht1) Hge1)
    as [[_ H21] _].
  destruct (next_option_string_index_spec classes1 start _ (ex_intro _ t2 Ht2) Hge2)
    as [[_ H12] _].
  lia.
Qed.

Lemma take_drop_prefix (tail : list string) k n :
  k + n ≤ i → take n (drop k (pre ++ tail)) = take n (drop k pre).
Proof.
  intros Hk. unfold i in Hk. rewrite drop_app_le by lia.
  rewrite take_app_le; [done |]. rewrite length_drop. lia.
Qed.

Lemma take_positionals_prefix (l : list (Action * nat)) : ∀ start st,
  start + sum_list l.*2 ≤ i →
  foldM (λ '(start_index, st) '(action, arg_count),
           let args := take arg_count (drop start_index args1) in
           st ← take_action st action args;
           Ok ((start_index + arg_count)%nat, st)) (start, st) l
  = foldM (λ '(start_index, st) '(action, arg_count),
             let args := take arg_count (drop start_index args2) in
             st ← take_action st action args;
             Ok ((start_index + arg_count)%nat, st)) (start, st) l.
Proof.
  induction l as [|[a n] l IH]; intros start st Hsum; [done |].
  cbn [foldM]. cbv zeta. unfold args1, args2.
  assert (sum_list ((a, n) :: l).*2 = n + sum_list l.*2) as Heq by done.
  rewrite Heq in Hsum.
  rewrite !take_drop_prefix by lia.
  destruct (take_action st a _) as [st'|]; cbn [mbind result_bind]; [| done].
  apply IH. lia.
Qed.

Lemma consume_positionals_prefix start st :
  start ≤ i →
  consume_positionals args1 classes1 start st
  = consume_positionals args2 classes2 start st.
Proof.
  intros Hle. unfold consume_positionals. cbv zeta.
  unfold classes1, classes2. rewrite !drop_pattern by done.
  rewrite (match_arguments_partial_app_O _ _ (pat_of <$> c1) (pat_of <$> c2)).
  rewrite take_positionals_prefix; [done |].
  pose proof (sum_list_zip_le (positionals st)
                (match_arguments_partial (positionals st)
                   (drop start (pat_of <$> cpre) ++ PO :: (pat_of <$> c2)))).
  pose proof (match_arguments_partial_le (positionals st)
                (drop start (pat_of <$> cpre) ++ PO :: (pat_of <$> c2))).
  pose proof (free_prefix_app_O (drop start (pat_of <$> cpre)) (pat_of <$> c2)) as H2.
  rewrite length_drop, length_fmap in H2. unfold i in *. lia.
Qed.

Lemma consume_optional_following_prefix k a s tuples :
  k < i →
  consume_optional_following args1 classes1 k a s tuples
  = consume_optional_following args2 classes2 k a s tuples.
Proof.
  intros Hk. unfold consume_optional_following. cbv zeta.
  unfold classes1, classes2. rewrite !drop_pattern by lia.
  rewrite (match_argument_app_O a _ (pat_of <$> c1) (pat_of <$> c2)).
  destruct (match_argument a _) as [n|] eqn:Hm; cbn [mbind result_bind]; [| done].
  apply match_argument_le in Hm.
  pose proof (free_prefix_app_O (drop (k + 1) (pat_of <$> cpre)) (pat_of <$> c2)) as H2.
  rewrite length_drop, length_fmap in H2.
  unfold args1, args2. rewrite !take_drop_prefix; [done | |]; unfold i in *; lia.
Qed.

Lemma consume_optional_explicit_prefix k explicit_arg : ∀ a s tuples,
  k < i →
  consume_optional_explicit parser args1 classes1 k a s explicit_arg tuples
  = consume_optional_explicit parser args2 classes2 k a s explicit_arg tuples.
Proof.
  induction explicit_arg as [|c rest IH]; intros a s tuples Hk; [done |].
  cbn [consume_optional_explicit].
  destruct (match_argument a [PA]) as [n|]; cbn [mbind result_bind]; [| done].
  destruct (_ && _); [| done].
  destruct (assoc _ _) as [a'|]; [| done].
  destruct rest; [by apply consume_optional_following_prefix | by apply IH].
Qed.

Lemma consume_optional_prefix k st :
  k < i →
  consume_optional parser args1 classes1 k st
  = consume_optional parser args2 classes2 k st.
Proof.
  intros Hk. unfold consume_optional.
  rewrite assoc_indices_prefix by lia.
  destruct (assoc k _) as [[[[a|] s] e]|]; [| | done].
  - destruct e as [e|].
    + by rewrite consume_optional_explicit_prefix.
    + by rewrite consume_optional_following_prefix.
  - unfold args1, args2. unfold i in Hk.
    by rewrite !lookup_total_app_l.
Qed.

(** The two loops raise the same exception before they reach the option
    string at [i], or they reach it in the same state. *)
Lemma consume_loop_prefix fuel1 : ∀ fuel2 start st,
  start ≤ i → i - start < fuel1 → i - start < fuel2 →
  (∃ e, consume_loop parser args1 classes1 fuel1 start st = Raise e
        ∧ consume_loop parser args2 classes2 fuel2 start st = Raise e)
  ∨ (∃ st' f1 f2,
       consume_loop parser args1 classes1 fuel1 start st
       = ('(j, st'') ← consume_optional parser args1 classes1 i st';
          consume_loop parser args1 classes1 f1 j st'')
       ∧ consume_loop parser args2 classes2 fuel2 start st
         = ('(j, st'') ← consume_optional parser args2 classes2 i st';
            consume_loop parser args2 classes2 f2 j st'')).
Proof.
  pose proof (max_option_string_index_ge classes1 i (option_at_i c1)) as Hmax1.
  pose proof (max_option_string_index_ge classes2 i (option_at_i c2)) as Hmax2.
  induction fuel1 as [|fuel1 IH]; intros fuel2 start st Hle Hf1 Hf2; [lia |].
  destruct fuel2 as [|fuel2]; [lia |].
  cbn [consume_loop].
  destruct (Z.leb_spec (Z.of_nat start) (max_option_string_index classes1)); [| lia].
  destruct (Z.leb_spec (Z.of_nat start) (max_option_string_index classes2)); [| lia].
  rewrite <- next_option_string_index_prefix by done.
  destruct (next_option_string_index_spec classes1 start i (option_at_i c1) Hle)
    as [[Hge Hnext] [tn Htn]].
  set (next := next_option_string_index classes1 start) in *.
  assert (∀ st0,
            (∃ e, ('(j, st'') ← consume_optional parser args1 classes1 next st0;
                   consume_loop parser args1 classes1 fuel1 j st'') = Raise e
                  ∧ ('(j, st'') ← consume_optional parser args2 classes2 next st0;
                     consume_loop parser args2 classes2 fuel2 j st'') = Raise e)
            ∨ (∃ st' f1 f2,
                 ('(j, st'') ← consume_optional parser args1 classes1 next st0;
                  consume_loop parser args1 classes1 fuel1 j st'')
                 = ('(j, st'') ← consume_optional parser args1 classes1 i st';
                    consume_loop parser args1 classes1 f1 j st'')
                 ∧ ('(j, st'') ← consume_optional parser args2 classes2 next st0;
                    consume_loop parser args2 classes2 fuel2 j st'')
                   = ('(j, st'') ← consume_optional parser args2 classes2 i st';
                      consume_loop parser args2 classes2 f2 j st''))) as Hstep.
  { intros st0. destruct (decide (next = i)) as [->|Hne].
    - right. by exists st0, fuel1, fuel2.
    - rewrite <- consume_optional_prefix by lia.
      destruct (consume_optional parser args1 classes1 next st0) as [[j st'']|e] eqn:Ho;
        cbn [mbind result_bind]; [| left; by exists e].
      apply consume_optional_index in Ho. simpl in Ho.
      pose proof (free_prefix_pattern c1 (next + 1)). fold classes1 in H1.
      apply IH; lia. }
  case_bool_decide as Hstart; cbn [mbind result_bind].
  - rewrite <- consume_positionals_prefix by done.
    destruct (consume_positionals args1 classes1 start st) as [[j st0]|e] eqn:Hp;
      cbn [mbind result_bind]; [| left; by exists e].
    apply consume_positionals_index in Hp. simpl in Hp.
    pose proof (free_prefix_pattern c1 start Hle) as Hfree. fold classes1 in Hfree.
    case_bool_decide; [apply IH; lia |].
    assert (j = start) as -> by lia.
    rewrite <- assoc_indices_prefix by done.
    assert (assoc start (option_string_indices classes1) = None) as Hnone.
    { rewrite assoc_option_string_indices.
      destruct (classes1 !! start) as [[t| |]|] eqn:Hc; try done.
      destruct (next_option_string_index_spec classes1 start start
                  (ex_intro _ t Hc) (le_n _)) as [[? ?] _].
      fold next in H2, H3. lia. }
    assert (take (next - start) (drop start args2)
            = take (next - start) (drop start args1)) as ->.
    { unfold args1, args2. rewrite !take_drop_prefix by lia. done. }
    rewrite Hnone. rewrite !bool_decide_eq_true_2 by done.
    cbv beta iota zeta. apply Hstep.
  - assert (start = next) as Heq by (by destruct (decide (start = next))).
    rewrite <- assoc_indices_prefix by done.
    assert (assoc start (option_string_indices classes1) ≠ None) as Hsome.
    { rewrite assoc_option_string_indices, Heq, Htn. done. }
    rewrite !bool_decide_eq_false_2 by done.
    cbv beta iota zeta. rewrite Heq. apply Hstep.
Qed.
End TwoRuns.

Lemma parse_args_raises parser args ns e :
  _parse_known_args parser args (foldl add_default ns (actions parser)) = Raise e →
  parse_args parser args ns = Raise (reported parser e).
Proof.
  intros He. unfold parse_args, parse_known_args. rewrite He. by destruct e.
Qed.

Lemma _parse_known_args_classes parser args ns classes :
  classify parser args = Ok classes →
  _parse_known_args parser args ns
  = ('(start_index, st) ←
       consume_loop parser args classes (S (length args)) 0
                    (mkState ns [] [] (get_positional_actions parser));
     '(stop_index, st) ← consume_positionals args classes start_index st;
     let extras := extras st ++ drop stop_index args in
     '(required_actions, ns) ←
       foldM (convert_default (seen_actions st)) ([], namespace st) (actions parser);
     if bool_decide (required_actions ≠ []) then
       error parser ("the following arguments are required: " +:+
                     Py.join ", " required_actions)
     else Ok (ns, extras)).
Proof. intros Hc. unfold _parse_known_args. by rewrite Hc. Qed.

(** An option string whose arguments are refused, whatever the state: the
    parse ends in that error, unless what stands before the option string
    ends the parse, and then it does so whatever follows the option
    string. *)
Lemma parse_args_reaches parser pre opt tup rest cs ns name msg :
  "--" ∉ pre → opt ≠ "--" →
  parse_optional parser opt = Ok (Some tup) →
  classify parser rest = Ok cs →
  (∀ cpre st, length cpre = length pre →
     consume_optional parser (pre ++ opt :: rest) (cpre ++ ClsOption tup :: cs)
                      (length pre) st
     = Raise (ArgumentError name msg)) →
  parse_args parser (pre ++ opt :: rest) ns
  = Raise (reported parser (ArgumentError name msg))
  ∨ ∃ e, ∀ rest' cs', classify parser rest' = Ok cs' →
         parse_args parser (pre ++ opt :: rest') ns = Raise e.
Proof.
  intros Hpre Hopt Htup Hcs Hfails.
  assert (∀ r c, classify parser r = Ok c →
            classify parser (pre ++ opt :: r)
            = (cpre ← mapM (λ t, o ← parse_optional parser t;
                                 Ok match o with
                                    | None => ClsArgument
                                    | Some t => ClsOption t
                                    end) pre;
               Ok (cpre ++ ClsOption tup :: c))) as Hclass.
  { intros r c Hc. rewrite classify_app_no_dashdash by done.
    rewrite classify_cons by done. rewrite Htup, Hc. cbn [mbind result_bind].
    by destruct (mapM _ pre). }
  destruct (mapM _ pre) as [cpre|e0] eqn:Hmap.
  2:{ right. exists (reported parser e0). intros rest' cs' Hcs'.
      apply parse_args_raises. unfold _parse_known_args.
      by rewrite (Hclass rest' cs' Hcs'). }
  cbn [mbind result_bind] in Hclass.
  pose proof (mapM_Ok_length _ _ _ Hmap) as Hlen.
  set (ns0 := foldl add_default ns (actions parser)).
  set (st0 := mkState ns0 [] [] (get_positional_actions parser)).
  destruct (consume_loop parser (pre ++ opt :: rest) (cpre ++ ClsOption tup :: cs)
              (S (length (pre ++ opt :: rest))) 0 st0) as [[j st]|e] eqn:Hloop.
  - exfalso.
    destruct (consume_loop_prefix parser pre cpre tup (opt :: rest) (opt :: rest) cs cs
                Hlen (S (length (pre ++ opt :: rest))) (S (length (pre ++ opt :: rest)))
                0 st0) as [(e & He & _)|(st' & f1 & f2 & He & _)];
      try (rewrite length_app; simpl; lia); try lia.
    + by rewrite Hloop in He.
    + rewrite Hloop, Hfails in He by done. done.
  - destruct (decide (e = ArgumentError name msg)) as [->|Hne].
    + left. apply parse_args_raises.
      rewrite (_parse_known_args_classes _ _ _ _ (Hclass rest cs Hcs)).
      fold ns0 st0. by rewrite Hloop.
    + right. exists (reported parser e). intros rest' cs' Hcs'.
      apply parse_args_raises.
      rewrite (_parse_known_args_classes _ _ _ _ (Hclass rest' cs' Hcs')).
      fold ns0 st0.
      destruct (consume_loop_prefix parser pre cpre tup (opt :: rest) (opt :: rest') cs cs'
                  Hlen (S (length (pre ++ opt :: rest))) (S (length (pre ++ opt :: rest')))
                  0 st0) as [(e' & He & He')|(st' & f1 & f2 & He & _)];
        try (rewrite length_app; simpl; lia); try lia.
      * rewrite Hloop in He. simplify_eq. by rewrite He'.
      * rewrite Hloop, Hfails in He by done. cbn [mbind result_bind] in He.
        by simplify_eq.
Qed.

Local Open Scope Z_scope.

(** ** Attributes that no action stores *)

Section Frame.
Context (parser : ArgumentParser) (arg_strings : list string)
        (classes : list arg_class) (k : string).
Hypothesis classes_length : length classes = length arg_strings.
Hypothesis classes_dest : ∀ i a s e,
  assoc i (option_string_indices classes) = Some (Some a, s, e) → dest a ≠ k.
Hypothesis short_options_dest : chains classes → ∀ c0 c a,
  assoc (String c0 (String c "")) (option_string_actions parser) = Some a → dest a ≠ k.

Definition keeps (v : option value) (ns : gmap string value) (seen : list Action)
    (ns' : gmap string value) (seen' : list Action) : Prop :=
  ns = ns' ∧ seen = seen' ∧ ns !! k = v ∧ Forall (λ a, dest a ≠ k) seen.

(** The attribute [k] is as it was when no action with destination [k]
    is taken. *)
Lemma run_frame st :
  Forall (λ a, dest a ≠ k) (positionals st) →
  Forall (λ a, dest a ≠ k) (seen_actions st) →
  match run parser arg_strings classes st with
  | Ok (_, st') =>
      namespace st' !! k = namespace st !! k
      ∧ Forall (λ a, dest a ≠ k) (seen_actions st')
  | Raise _ => True
  end.
Proof.
  intros Hpos Hseen0.
  assert (agree (λ _, True)
            (related_at (keeps (namespace st !! k)) (λ a, dest a ≠ k))
            (run parser arg_strings classes st) (run parser arg_strings classes st))
    as Hrun.
  { apply run_related; try done.
    - intros st1 st2 a args Ha ((Hns & Hseen & Hk & Hall) & Hex & Hp & HA).
      apply take_action_agree; try done.
      + intros v _ _. unfold related, keeps.
        cbn [namespace seen_actions extras positionals]. rewrite Hseen.
        repeat split; try done. constructor; [done |]. by rewrite <- Hseen.
      + intros v _ _ _ w. unfold related, keeps.
        cbn [namespace seen_actions extras positionals].
        rewrite Hns, Hseen. repeat split; try done.
        * rewrite lookup_insert_ne by done. by rewrite <- Hns.
        * constructor; [done |]. by rewrite <- Hseen. }
  destruct (run _ _ _ st) as [[i st']|e]; [| done].
  by destruct Hrun as (_ & (_ & _ & ? & ?) & _).
Qed.
End Frame.

(** The short option strings of main.py. *)
Lemma main_short_options prog c0 c a :
  assoc (String c0 (String c "")) (option_string_actions (main_parser prog)) = Some a →
  a ∈ [help_action; verbose_action; mode_action; size_action].
Proof.
  intros Ha%assoc_Some_elem.
  change (option_string_actions (main_parser prog))
    with [("-h", help_action); ("--help", help_action); ("--files", files_action);
          ("--required-files", required_files_action); ("-v", verbose_action);
          ("--verbose", verbose_action); ("-m", mode_action); ("--mode", mode_action);
          ("-s", size_action); ("--size", size_action)] in Ha.
  repeat (apply elem_of_cons in Ha as [Ha|Ha]; [simplify_eq |]);
    try (by apply elem_of_nil in Ha);
    repeat first [apply list_elem_of_here | apply list_elem_of_further].
Qed.

Lemma match_argument_zero a :
  a ∈ main_actions → match_argument a [PA] = Ok 0%nat → nargs a = NargsInt 0.
Proof. intros Ha. main_action_cases Ha; simpl; done. Qed.

Lemma action_in_dest a seen :
  Forall (λ b, dest b ≠ dest a) seen → action_in a seen = false.
Proof.
  intros Hall. apply not_true_is_false. unfold action_in.
  rewrite existsb_exists. intros (b & Hb%list_elem_of_In & Heq).
  unfold action_eqb in Heq. apply bool_decide_eq_true in Heq as [_ Hd].
  by apply (proj1 (Forall_forall _ _) Hall b Hb).
Qed.

(** The attribute [k] of a successful parse, when nothing on the command
    line reaches an action that stores [k]: what the loop over the actions
    that ends the parse makes of the default. *)
Lemma main_frame argv0 args ns k :
  let parser := main_parser (basename argv0) in
  Main.setup_parser (argv0 :: args) Main.FileProcessorNamespace = Ok ns →
  k ≠ "source" → k ≠ "optional_destination" →
  (∀ t a, t ∈ args → recognised_as parser t a → dest a ≠ k) →
  ((∃ t, t ∈ args ∧ flag_with_text parser t) →
   ∀ a, a ∈ [help_action; verbose_action; mode_action; size_action] → dest a ≠ k) →
  ∃ seen ns', ns = finish_namespace seen ns'
              ∧ ns' !! k = main_defaults !! k
              ∧ Forall (λ a, dest a ≠ k) seen.
Proof.
  intros parser. subst parser.
  unfold Main.setup_parser, Main.FileProcessorNamespace. simpl List.hd. simpl List.tl.
  rewrite build_parser_eq. cbn [mbind result_bind].
  set (prog := basename argv0).
  unfold parse_args, parse_known_args, _parse_known_args.
  change (actions (main_parser prog)) with main_actions. rewrite main_defaults_eq.
  destruct (classify (main_parser prog) args) as [classes|e] eqn:Hclass;
    cbn [mbind result_bind]; [| by destruct e].
  intros Hok Hsrc Hopt Hrec Hflag.
  pose proof (run_frame (main_parser prog) args classes k
                (classes_length prog args classes Hclass)) as Hframe.
  specialize (Hframe) with
    (st := mkState main_defaults [] [] (get_positional_actions (main_parser prog))).
  unfold run in Hframe. revert Hok.
  destruct (consume_loop _ _ _ _ _ _) as [[i st]|e];
    cbn [mbind result_bind] in *; [| by destruct e].
  destruct (consume_positionals _ _ _ _) as [[j st']|e];
    cbn [mbind result_bind] in *; [| by destruct e].
  rewrite finish_spec. cbn [mbind result_bind].
  destruct (bool_decide (_ ≠ [])); [done |]. cbv iota. cbn [mbind result_bind].
  destruct (bool_decide (_ ≠ [])); [done |]. intros ?; simplify_eq.
  exists (seen_actions st'), (namespace st'). split; [done |].
  apply Hframe.
  - intros i' a s e Hi'.
    rewrite assoc_option_string_indices in Hi'.
    destruct (classes !! i') as [[t| |]|] eqn:Hl; simplify_eq.
    apply list_elem_of_lookup_2 in Hl.
    destruct (classify_option_elem _ _ _ _ Hclass Hl) as (x & Hx & Hpx).
    apply (Hrec x a Hx). by eexists _, _.
  - intros (i' & a0 & s0 & e0 & Hi' & Hzero) c0 c a Ha%main_short_options.
    apply Hflag; [| done].
    pose proof (classes_actions prog args classes Hclass _ _ _ _ Hi') as Ha0.
    rewrite assoc_option_string_indices in Hi'.
    destruct (classes !! i') as [[t| |]|] eqn:Hl; simplify_eq.
    apply list_elem_of_lookup_2 in Hl.
    destruct (classify_option_elem _ _ _ _ Hclass Hl) as (x & Hx & Hpx).
    exists x. split; [done |]. exists a0, s0, e0. split; [done |].
    by apply match_argument_zero.
  - cbn [positionals]. by repeat constructor.
  - by constructor.
Qed.

(** When the parse succeeds and no argument string is recognised as
    [--required-files], [required_files] is [None]. *)
Lemma required_files_absent argv0 args ns :
  Main.setup_parser (argv0 :: args) Main.FileProcessorNamespace = Ok ns →
  (∀ t, t ∈ args → ¬ recognised_as (main_parser (basename argv0)) t required_files_action) →
  ns !! "required_files" = Some VNone.
Proof.
  intros Hok Hnot.
  destruct (main_frame argv0 args ns "required_files" Hok) as (seen & ns' & -> & Hk & _);
    try done.
  - intros t a Ht Hrec Hd.
    assert (a ∈ main_actions) as Ha.
    { destruct Hrec as (s & e & Hp).
      pose proof (parse_optional_spec (main_parser (basename argv0)) t) as Hspec.
      rewrite Hp in Hspec. apply Hspec. }
    apply (Hnot t Ht).
    replace required_files_action with a; [done |].
    by apply main_dest_inj; [| repeat constructor |].
  - intros _ a Ha.
    repeat (apply elem_of_cons in Ha as [->|Ha]; [done |]). by apply elem_of_nil in Ha.
  - rewrite finish_namespace_size. unfold convert_str_default.
    destruct (action_in size_action _); [done |].
    case_bool_decide; [| done]. by rewrite lookup_insert_ne.
Qed.

(** When the parse succeeds, no argument string is recognised as [--size]
    and no flag has text attached, [size] is the converted default. *)
Lemma size_absent argv0 args ns :
  let parser := main_parser (basename argv0) in
  Main.setup_parser (argv0 :: args) Main.FileProcessorNamespace = Ok ns →
  (∀ t, t ∈ args → ¬ recognised_as parser t size_action ∧ ¬ flag_with_text parser t) →
  ns !! "size" = Some (VInt 1048576).
Proof.
  intros parser. subst parser. intros Hok Hnot.
  destruct (main_frame argv0 args ns "size" Hok) as (seen & ns' & -> & Hk & Hseen);
    try done.
  - intros t a Ht Hrec Hd.
    assert (a ∈ main_actions) as Ha.
    { destruct Hrec as (s & e & Hp).
      pose proof (parse_optional_spec (main_parser (basename argv0)) t) as Hspec.
      rewrite Hp in Hspec. apply Hspec. }
    destruct (Hnot t Ht) as [Hnrec _]. apply Hnrec.
    replace size_action with a; [done |].
    by apply main_dest_inj; [| repeat constructor |].
  - intros (t & Ht & Hflag). by destruct (Hnot t Ht).
  - rewrite finish_namespace_size. unfold convert_str_default.
    rewrite action_in_dest by done.
    rewrite bool_decide_eq_true_2 by done. by rewrite lookup_insert_eq.
Qed.

(** ** The positionals of main.py, step by step *)

Lemma take_action_store st action args v :
  get_values action args = Ok v → v ≠ VSuppress →
  action_class_of action = StoreAction →
  take_action st action args
  = Ok (mkState (<[dest action := v]> (namespace st)) (action :: seen_actions st)
                (extras st) (positionals st)).
Proof.
  intros Hv Hne Hcls. unfold take_action, call_action. rewrite Hv, Hcls.
  cbn [mbind result_bind]. by rewrite bool_decide_eq_false_2.
Qed.

Lemma get_values_source t :
  t ≠ "--" → get_values source_action [t] = Ok (VStr t).
Proof.
  intros Hne. unfold get_values. cbn [remove_first].
  by rewrite (proj2 (String.eqb_neq _ _) Hne).
Qed.

Lemma get_values_optional_destination t :
  t ≠ "--" → get_values optional_destination_action [t] = Ok (VStr t).
Proof.
  intros Hne. unfold get_values. cbn [remove_first].
  by rewrite (proj2 (String.eqb_neq _ _) Hne).
Qed.

Lemma get_values_optional_destination_nil :
  get_values optional_destination_action [] = Ok (VStr "default_value").
Proof. reflexivity. Qed.

Lemma get_positional_actions_main prog :
  get_positional_actions (main_parser prog) = main_positionals.
Proof. reflexivity. Qed.

Lemma match_arguments_partial_one p :
  head p ≠ Some PA → head p ≠ Some PDash →
  match_arguments_partial main_positionals (PA :: p) = [1; 0]%nat.
Proof. destruct p as [|[] p]; simpl; done. Qed.

Lemma match_arguments_partial_two p :
  head p ≠ Some PDash →
  match_arguments_partial main_positionals (PA :: PA :: p) = [1; 1]%nat.
Proof. destruct p as [|[] p]; simpl; done. Qed.

Lemma drop_lookup_cons {X} (l : list X) n x :
  l !! n = Some x → drop n l = x :: drop (S n) l.
Proof.
  revert n. induction l as [|y l IH]; intros [|n]; simpl; try done.
  - by intros ?; simplify_eq.
  - apply IH.
Qed.

Section Positionals.
Context (prog : string) (arg_strings : list string) (classes : list arg_class).

(** One argument string is left for the positionals. *)
Lemma consume_positionals_one start ns seen ex t :
  arg_strings !! start = Some t → t ≠ "--" →
  classes !! start = Some ClsArgument →
  classes !! S start ≠ Some ClsArgument → classes !! S start ≠ Some ClsDashDash →
  consume_positionals arg_strings classes start (mkState ns seen ex main_positionals)
  = Ok (S start,
        mkState (<["optional_destination" := VStr "default_value"]>
                   (<["source" := VStr t]> ns))
                (optional_destination_action :: source_action :: seen) ex []).
Proof.
  intros Ht Hne Hc Hc1 Hc2. unfold consume_positionals, arg_strings_pattern.
  cbn [positionals].
  rewrite (drop_lookup_cons (pat_of <$> classes) start PA)
    by (by rewrite list_lookup_fmap, Hc).
  rewrite match_arguments_partial_one.
  2,3: rewrite head_drop_fmap; destruct (classes !! S start) as [[]|]; done.
  unfold main_positionals. cbn [zip zip_with foldM].
  rewrite (drop_lookup_cons _ _ _ Ht). cbn [take].
  rewrite (take_action_store _ _ _ _ (get_values_source t Hne)) by done.
  cbn [mbind result_bind namespace seen_actions extras positionals].
  rewrite (take_action_store _ _ _ _ get_values_optional_destination_nil) by done.
  cbn [mbind result_bind namespace seen_actions extras positionals].
  repeat f_equal; lia.
Qed.

(** Two argument strings are left for the positionals. *)
Lemma consume_positionals_two start ns seen ex t t' :
  arg_strings !! start = Some t → t ≠ "--" →
  arg_strings !! S start = Some t' → t' ≠ "--" →
  classes !! start = Some ClsArgument →
  classes !! S start = Some ClsArgument →
  classes !! S (S start) ≠ Some ClsDashDash →
  consume_positionals arg_strings classes start (mkState ns seen ex main_positionals)
  = Ok (S (S start),
        mkState (<["optional_destination" := VStr t']> (<["source" := VStr t]> ns))
                (optional_destination_action :: source_action :: seen) ex []).
Proof.
  intros Ht Hne Ht' Hne' Hc Hc1 Hc2. unfold consume_positionals, arg_strings_pattern.
  cbn [positionals].
  rewrite (drop_lookup_cons (pat_of <$> classes) start PA)
    by (by rewrite list_lookup_fmap, Hc).
  rewrite (drop_lookup_cons (pat_of <$> classes) (S start) PA)
    by (by rewrite list_lookup_fmap, Hc1).
  rewrite match_arguments_partial_two.
  2: rewrite head_drop_fmap; destruct (classes !! S (S start)) as [[]|]; done.
  unfold main_positionals. cbn [zip zip_with foldM].
  rewrite (drop_lookup_cons _ _ _ Ht). cbn [take].
  rewrite (take_action_store _ _ _ _ (get_values_source t Hne)) by done.
  cbn [mbind result_bind namespace seen_actions extras positionals].
  replace (start + 1)%nat with (S start) by lia.
  rewrite (drop_lookup_cons _ _ _ Ht'). cbn [take].
  rewrite (take_action_store _ _ _ _ (get_values_optional_destination t' Hne')) by done.
  cbn [mbind result_bind namespace seen_actions extras positionals].
  repeat f_equal; lia.
Qed.

(** No positional is left. *)
Lemma consume_positionals_none start ns seen ex :
  consume_positionals arg_strings classes start (mkState ns seen ex [])
  = Ok (start, mkState ns seen ex []).
Proof. reflexivity. Qed.
End Positionals.

(** ** Reaching the first option string *)

Section Reaches.
Context (parser : ArgumentParser) (arg_strings : list string)
        (classes : list arg_class) (i : nat) (e : exn) (Inv : state → Prop).
Hypothesis option_at_i : is_option_at classes i.
Hypothesis arguments_before : ∀ k, (k < i)%nat → classes !! k = Some ClsArgument.
Hypothesis fails_at_i : ∀ st, consume_optional parser arg_strings classes i st = Raise e.
Hypothesis positionals_ok : ∀ start st, (start < i)%nat → Inv st →
  ∃ j st', consume_positionals arg_strings classes start st = Ok (j, st') ∧ Inv st'.

Lemma next_option_string_index_first start :
  (start ≤ i)%nat → next_option_string_index classes start = i.
Proof.
  intros Hle.
  destruct (next_option_string_index_spec classes start i option_at_i Hle)
    as [[_ Hn] [t Ht]].
  destruct (decide (next_option_string_index classes start = i)) as [|Hne]; [done |].
  rewrite arguments_before in Ht by lia. done.
Qed.

Lemma consume_loop_reaches fuel : ∀ start st,
  (start ≤ i)%nat → (i - start < fuel)%nat → Inv st →
  consume_loop parser arg_strings classes fuel start st = Raise e.
Proof.
  pose proof (max_option_string_index_ge classes i option_at_i) as Hmax.
  induction fuel as [|fuel IH]; intros start st Hle Hfuel Hinv; [lia |]. simpl.
  destruct (Z.leb_spec (Z.of_nat start) (max_option_string_index classes)); [| lia].
  rewrite next_option_string_index_first by done.
  case_bool_decide as Hstart; cbn [mbind result_bind].
  - destruct (positionals_ok start st) as (j & st' & Hp & Hinv'); [lia | done |].
    rewrite Hp. cbn [mbind result_bind].
    apply consume_positionals_index in Hp. simpl in Hp.
    pose proof (free_prefix_before_option classes start i option_at_i Hle).
    case_bool_decide; [apply IH; [lia | lia | done] |].
    assert (j = start) as -> by lia.
    rewrite bool_decide_eq_true_2.
    + by rewrite fails_at_i.
    + rewrite assoc_option_string_indices, arguments_before by lia. done.
  - subst start.
    destruct option_at_i as [t Ht].
    rewrite bool_decide_eq_false_2.
    + by rewrite fails_at_i.
    + by rewrite assoc_option_string_indices, Ht.
Qed.
End Reaches.

Lemma classify_positional_prefix parser pre rest cs :
  Forall (positional_token parser) pre → classify parser rest = Ok cs →
  classify parser (pre ++ rest) = Ok (replicate (length pre) ClsArgument ++ cs).
Proof.
  intros Hpre Hrest. induction Hpre as [|t pre [Hne Ht] _ IH]; [done |].
  simpl app. rewrite classify_cons by done. rewrite Ht, IH. done.
Qed.

Lemma parse_optional_dashdash prog t tup :
  parse_optional (main_parser prog) t = Ok (Some tup) → t ≠ "--".
Proof. intros Ht ->. vm_compute in Ht. done. Qed.

(** The positionals of main.py take the argument strings before the
    first option string; what the option raises is what the loop raises. *)
Lemma run_first_option prog pre opt rest tup cs e ns :
  Forall (positional_token (main_parser prog)) pre →
  (∀ st, consume_optional (main_parser prog) (pre ++ opt :: rest)
           (replicate (length pre) ClsArgument ++ ClsOption tup :: cs) (length pre) st
         = Raise e) →
  consume_loop (main_parser prog) (pre ++ opt :: rest)
    (replicate (length pre) ClsArgument ++ ClsOption tup :: cs)
    (S (length (pre ++ opt :: rest))) 0 (mkState ns [] [] main_positionals)
  = Raise e.
Proof.
  intros Hpre Hfails.
  set (classes := replicate (length pre) ClsArgument ++ ClsOption tup :: cs).
  assert (∀ k, (k < length pre)%nat → classes !! k = Some ClsArgument) as Hargs.
  { intros k Hk. unfold classes. rewrite lookup_app_l by (by rewrite length_replicate).
    by apply lookup_replicate_2. }
  assert (classes !! length pre = Some (ClsOption tup)) as Hopt.
  { unfold classes. rewrite lookup_app_r by (by rewrite length_replicate).
    by rewrite length_replicate, Nat.sub_diag. }
  assert (∀ k, (k < length pre)%nat →
               ∃ t, (pre ++ opt :: rest) !! k = Some t ∧ t ≠ "--") as Htok.
  { intros k Hk. destruct (lookup_lt_is_Some_2 pre k Hk) as [t Ht].
    exists t. rewrite lookup_app_l by done. split; [done |].
    by destruct (proj1 (Forall_lookup _ _) Hpre k t Ht). }
  apply (consume_loop_reaches _ _ classes (length pre) e
           (λ st, ∃ ns seen ex, st = mkState ns seen ex main_positionals
                                ∨ st = mkState ns seen ex [])).
  - by eexists.
  - done.
  - done.
  - intros start st Hstart (ns' & seen & ex & [->| ->]).
    + destruct (Htok start Hstart) as (t & Ht & Hne).
      destruct (decide (S start = length pre)) as [Heq|Hlt].
      * eexists _, _. split.
        -- apply (consume_positionals_one _ _ _ _ _ _ t); try done.
           ++ by apply Hargs.
           ++ by rewrite Heq, Hopt.
           ++ by rewrite Heq, Hopt.
        -- eexists _, _, _. by right.
      * destruct (Htok (S start)) as (t' & Ht' & Hne'); [lia |].
        eexists _, _. split.
        -- apply (consume_positionals_two _ _ _ _ _ _ t t'); try done.
           ++ by apply Hargs.
           ++ apply Hargs. lia.
           ++ destruct (decide (S (S start) = length pre)) as [Heq|Hlt'].
              ** by rewrite Heq, Hopt.
              ** rewrite Hargs by lia. done.
        -- eexists _, _, _. by right.
    + eexists _, _. split; [apply consume_positionals_none |].
      eexists _, _, _. by right.
  - lia.
  - rewrite length_app. simpl. lia.
  - eexists _, _, _. by left.
Qed.

(** The same, for the whole of [setup_parser] and an [ArgumentError]. *)
Lemma setup_parser_first_option argv0 pre opt rest tup cs name msg cls :
  let parser := main_parser (basename argv0) in
  Forall (positional_token parser) pre →
  parse_optional parser opt = Ok (Some tup) →
  classify parser rest = Ok cs →
  (∀ st, consume_optional parser (pre ++ opt :: rest)
           (replicate (length pre) ClsArgument ++ ClsOption tup :: cs) (length pre) st
         = Raise (ArgumentError name msg)) →
  Main.setup_parser (argv0 :: pre ++ opt :: rest) cls
  = error parser (ArgumentError_str name msg).
Proof.
  intros parser Hpre Hopt Hrest Hfails.
  unfold Main.setup_parser. simpl List.hd. simpl List.tl.
  rewrite build_parser_eq. cbn [mbind result_bind]. fold parser.
  unfold parse_args, parse_known_args, _parse_known_args.
  rewrite (classify_positional_prefix _ pre (opt :: rest) (ClsOption tup :: cs)); [| done |].
  2:{ rewrite classify_cons by (by eapply parse_optional_dashdash).
      by rewrite Hopt, Hrest. }
  cbn [mbind result_bind]. subst parser.
  rewrite get_positional_actions_main.
  by rewrite (run_first_option _ _ _ _ _ _ (ArgumentError name msg)).
Qed.

(** ** Only the required positional *)

Lemma consume_loop_past parser arg_strings classes fuel start st :
  max_option_string_index classes < Z.of_nat start →
  consume_loop parser arg_strings classes fuel start st = Ok (start, st).
Proof.
  intros Hmax. destruct fuel; simpl;
    by destruct (Z.leb_spec (Z.of_nat start) (max_option_string_index classes)); [lia |].
Qed.

Lemma consume_loop_no_options parser arg_strings classes fuel start st :
  max_option_string_index classes = -1 →
  consume_loop parser arg_strings classes fuel start st = Ok (start, st).
Proof. intros Hmax. apply consume_loop_past. lia. Qed.

Lemma only_source_parse argv0 t :
  positional_token (main_parser (basename argv0)) t →
  Main.setup_parser [argv0; t] Main.FileProcessorNamespace = Ok (only_source_namespace t).
Proof.
  intros [Hne Ht].
  unfold Main.setup_parser, Main.FileProcessorNamespace. simpl List.hd. simpl List.tl.
  rewrite build_parser_eq. cbn [mbind result_bind].
  unfold parse_args, parse_known_args, _parse_known_args.
  change (actions (main_parser (basename argv0))) with main_actions.
  rewrite main_defaults_eq, get_positional_actions_main.
  rewrite classify_cons by done. rewrite Ht. cbn [classify mbind result_bind].
  rewrite consume_loop_no_options by reflexivity. cbn [mbind result_bind].
  rewrite (consume_positionals_one [t] [ClsArgument] 0 _ _ _ t) by done.
  cbn [mbind result_bind namespace seen_actions extras positionals].
  rewrite finish_spec. cbn [mbind result_bind].
  vm_compute. reflexivity.
Qed.

(** An argument string that does not begin with [-] is a positional. *)
Lemma positional_token_no_dash parser t :
  (∀ r, t ≠ String "-" r) → positional_token parser t.
Proof.
  intros Ht. split.
  - intros ->. by apply (Ht "-").
  - destruct t as [|c0 r]; [done |]. unfold parse_optional.
    destruct (in_prefix_chars c0) eqn:Hc; [| done].
    apply Ascii.eqb_eq in Hc as ->. by destruct (Ht r).
Qed.

(** ** [--required-files] without values, after positionals only *)

Lemma not_an_argument_head parser rest cs :
  not_an_argument parser rest → classify parser rest = Ok cs →
  head cs ≠ Some ClsArgument.
Proof.
  destruct rest as [|t rest]; simpl.
  - intros _ ?; by simplify_eq.
  - intros Hrest. destruct (String.eqb t "--") eqn:Ht.
    + intros ?; by simplify_eq.
    + destruct Hrest as [->|Hrest]; [done |].
      destruct (parse_optional parser t) as [[o|]|]; simpl; try done.
      destruct (classify parser rest); simpl; intros ?; by simplify_eq.
Qed.

Lemma required_files_exact_error argv0 pre rest cs cls :
  let parser := main_parser (basename argv0) in
  Forall (positional_token parser) pre →
  classify parser rest = Ok cs → not_an_argument parser rest →
  Main.setup_parser (argv0 :: pre ++ "--required-files" :: rest) cls
  = error parser "argument --required-files: expected at least one argument".
Proof.
  intros parser Hpre Hcs Hrest.
  apply (setup_parser_first_option argv0 pre "--required-files" rest
           required_files_tuple cs (Some "--required-files")
           "expected at least one argument"); try done.
  intros st. apply consume_optional_required_files.
  - rewrite lookup_app_r by (by rewrite length_replicate).
    by rewrite length_replicate, Nat.sub_diag.
  - rewrite lookup_app_r by (rewrite length_replicate; lia).
    rewrite length_replicate.
    replace (S (length pre) - length pre)%nat with 1%nat by lia. simpl.
    pose proof (not_an_argument_head _ _ _ Hrest Hcs) as Hhd.
    by destruct cs as [|[] cs].
Qed.

(** ** [--mode] with a value outside the choices *)


Lemma get_values_mode_valid v :
  v ∈ ["auto"; "manual"] → get_values mode_action [v] = Ok (VStr v).
Proof.
  intros Hin. repeat (apply elem_of_cons in Hin as [->|Hin]; [done |]).
  by apply elem_of_nil in Hin.
Qed.



(** The value comes with the option string, as in [--mode=v]. *)
Lemma parse_optional_mode_equals prog v :
  parse_optional (main_parser prog) ("--mode=" +:+ v)
  = Ok (Some (Some mode_action, "--mode", Some v)).
Proof. reflexivity. Qed.



(** ** [--mode] with one of the choices *)

Lemma consume_loop_S parser arg_strings classes fuel start st :
  consume_loop parser arg_strings classes (S fuel) start st
  = if Z.of_nat start <=? max_option_string_index classes then
      let next := next_option_string_index classes start in
      '(continue, start_index, st) ←
        (if bool_decide (start ≠ next) then
           '(positionals_end_index, st) ← consume_positionals arg_strings classes start st;
           Ok (bool_decide (start < positionals_end_index)%nat, positionals_end_index, st)
         else Ok (false, start, st));
      if continue : bool then consume_loop parser arg_strings classes fuel start_index st
      else
        let '(start_index, st) :=
          if bool_decide (assoc start_index (option_string_indices classes) = None) then
            (next,
             mkState (namespace st) (seen_actions st)
                     (extras st ++ take (next - start_index) (drop start_index arg_strings))
                     (positionals st))
          else (start_index, st) in
        '(start_index, st) ← consume_optional parser arg_strings classes start_index st;
        consume_loop parser arg_strings classes fuel start_index st
    else Ok (start, st).
Proof. reflexivity. Qed.

(** One positional, then an option of main.py that takes one value. *)
Lemma one_option_parse argv0 t opt action s v val :
  let parser := main_parser (basename argv0) in
  positional_token parser t →
  parse_optional parser opt = Ok (Some (Some action, s, None)) →
  positional_token parser v →
  match_argument action [PA] = Ok 1%nat →
  get_values action [v] = Ok val → val ≠ VSuppress →
  action_class_of action = StoreAction →
  Main.setup_parser [argv0; t; opt; v] Main.FileProcessorNamespace
  = Ok (finish_namespace [action; optional_destination_action; source_action]
          (<[dest action := val]>
             (<["optional_destination" := VStr "default_value"]>
                (<["source" := VStr t]> main_defaults)))).
Proof.
  intros parser. subst parser. intros [Hne Ht] Hopt [Hvne Hvp] Hmatch Hval Hsup Hcls.
  unfold Main.setup_parser, Main.FileProcessorNamespace. simpl List.hd. simpl List.tl.
  rewrite build_parser_eq. cbn [mbind result_bind].
  unfold parse_args, parse_known_args, _parse_known_args.
  change (actions (main_parser (basename argv0))) with main_actions.
  rewrite main_defaults_eq, get_positional_actions_main.
  rewrite classify_cons by done. rewrite Ht. cbn [mbind result_bind].
  rewrite classify_cons by (by eapply parse_optional_dashdash).
  rewrite Hopt. cbn [mbind result_bind].
  rewrite classify_cons by done. rewrite Hvp. cbn [classify mbind result_bind].
  set (classes := [ClsArgument; ClsOption (Some action, s, None); ClsArgument]).
  set (args := [t; opt; v]).
  change (S (length args)) with 4%nat.
  (* the positionals before the option *)
  rewrite consume_loop_S.
  change (max_option_string_index classes) with 1.
  change (next_option_string_index classes 0) with 1%nat.
  cbv beta iota zeta delta [Z.leb Z.of_nat Z.compare].
  rewrite bool_decide_eq_true_2 by done.
  rewrite (consume_positionals_one args classes 0 _ _ _ t) by done.
  cbn [mbind result_bind]. rewrite bool_decide_eq_true_2 by lia. cbv iota.
  (* the option and its value *)
  rewrite consume_loop_S.
  change (max_option_string_index classes) with 1.
  change (next_option_string_index classes 1) with 1%nat.
  change (Z.of_nat 1 <=? 1) with true. cbv iota zeta.
  rewrite bool_decide_eq_false_2 by (by intros ?).
  cbn [mbind result_bind]. rewrite bool_decide_eq_false_2 by done. cbv iota.
  unfold consume_optional.
  change (assoc 1%nat (option_string_indices classes))
    with (Some (Some action, s, @None string)).
  cbv iota. unfold consume_optional_following.
  change (drop (1 + 1) (arg_strings_pattern classes)) with [PA].
  rewrite Hmatch. cbn [mbind result_bind app foldM].
  change (take 1 (drop (1 + 1) args)) with [v].
  rewrite (take_action_store _ _ _ _ Hval) by done.
  cbn [mbind result_bind namespace seen_actions extras positionals].
  (* past the last option *)
  rewrite consume_loop_past by (change (max_option_string_index classes) with 1; lia).
  cbn [mbind result_bind].
  rewrite consume_positionals_none.
  cbn [mbind result_bind namespace seen_actions extras positionals].
  rewrite finish_spec. cbn [mbind result_bind].
  replace (action_in source_action _) with true; [done |].
  cbn [action_in existsb]. 
  replace (action_eqb source_action source_action) with true by reflexivity.
  by rewrite !orb_true_r.
Qed.

Lemma mode_valid_choice argv0 t opt s v :
  let parser := main_parser (basename argv0) in
  positional_token parser t →
  parse_optional parser opt = Ok (Some (Some mode_action, s, None)) →
  v ∈ ["auto"; "manual"] →
  Main.setup_parser [argv0; t; opt; v] Main.FileProcessorNamespace = Ok (with_mode t v).
Proof.
  intros parser Ht Hopt Hv.
  rewrite (one_option_parse argv0 t opt mode_action s v (VStr v)); try done.
  - apply positional_token_no_dash. intros r ->.
    repeat (apply elem_of_cons in Hv as [?|Hv]; [done |]). by apply elem_of_nil in Hv.
  - by apply get_values_mode_valid.
Qed.

(** ** [--size] *)

Lemma get_values_size_500KB : get_values size_action ["500KB"] = Ok (VInt 512000).
Proof. by vm_compute. Qed.

Lemma size_500KB argv0 t opt s :
  let parser := main_parser (basename argv0) in
  positional_token parser t →
  parse_optional parser opt = Ok (Some (Some size_action, s, None)) →
  Main.setup_parser [argv0; t; opt; "500KB"] Main.FileProcessorNamespace
  = Ok (with_size t 512000).
Proof.
  intros parser Ht Hopt.
  by rewrite (one_option_parse argv0 t opt size_action s "500KB" (VInt 512000)).
Qed.

Lemma get_values_size_5g :
  get_values size_action ["5g"]
  = Raise (ArgumentError (Some "-s/--size") "invalid parse_size value: '5g'").
Proof. by vm_compute. Qed.

Lemma match_argument_size p : match_argument size_action (PA :: p) = Ok 1%nat.
Proof. reflexivity. Qed.

Lemma size_5g argv0 pre opt s rest cs cls :
  let parser := main_parser (basename argv0) in
  Forall (positional_token parser) pre →
  parse_optional parser opt = Ok (Some (Some size_action, s, None)) →
  classify parser rest = Ok cs →
  Main.setup_parser (argv0 :: pre ++ opt :: "5g" :: rest) cls
  = error parser "argument -s/--size: invalid parse_size value: '5g'".
Proof.
  intros parser Hpre Hopt Hcs.
  assert (positional_token parser "5g") as [Hne Hv] by (by apply positional_token_no_dash).
  apply (setup_parser_first_option argv0 pre opt ("5g" :: rest)
           (Some size_action, s, None) (ClsArgument :: cs) (Some "-s/--size")
           "invalid parse_size value: '5g'"); try done.
  { rewrite classify_cons by done. fold parser. by rewrite Hv, Hcs. }
  intros st. unfold consume_optional.
  rewrite assoc_option_string_indices.
  rewrite lookup_app_r by (by rewrite length_replicate).
  rewrite length_replicate, Nat.sub_diag. cbn [lookup list_lookup].
  unfold consume_optional_following, arg_strings_pattern.
  rewrite <- !drop_drop, fmap_app.
  rewrite !drop_app_length' by (by rewrite ?length_fmap, ?length_replicate).
  cbn [fmap list_fmap drop pat_of]. rewrite match_argument_size.
  cbn [mbind result_bind take app foldM]. unfold take_action.
  change (take 0 rest) with (@nil string).
  by rewrite get_values_size_5g.
Qed.

(** ** validators.py *)

Section ValidatorsParser.
Context (fs : Validators.filesystem).

Definition source_directory_action : Action :=
  mkAction [] "source_directory" NargsNone VNone VNone
           (Some (TypeFunc "directory" (Validators.directory fs))) None true None
           StoreAction.
Definition validators_files_action : Action :=
  mkAction [] "files" ONE_OR_MORE VNone VNone
           (Some (TypeFunc "file" (Validators.file fs))) None true None StoreAction.

Definition validators_parser (prog : string) : ArgumentParser :=
  mkParser prog [help_action; source_directory_action; validators_files_action].

Lemma validators_build_parser_eq argv0 :
  Validators.build_parser fs argv0 = Ok (validators_parser (basename argv0)).
Proof. reflexivity. Qed.

Lemma directory_missing path :
  fs path = None →
  Validators.directory fs path
  = Raise (ValueError ("Expected directory, doesn't exist: '" +:+ path +:+ "'")).
Proof.
  intros Hp. unfold Validators.directory, Validators.os_path_exists.
  rewrite Hp. rewrite bool_decide_eq_false_2; [done |]. by intros [? ?].
Qed.

Lemma file_missing path :
  fs path = None →
  Validators.file fs path
  = Raise (ValueError ("Expected file, doesn't exist: '" +:+ path +:+ "'")).
Proof.
  intros Hp. unfold Validators.file, Validators.os_path_exists.
  rewrite Hp. rewrite bool_decide_eq_false_2; [done |]. by intros [? ?].
Qed.

Lemma directory_of_other path ty :
  fs path = Some ty → ty ≠ Validators.Directory →
  Validators.directory fs path
  = Raise (ValueError ("Expected directory, received non-directory: '"
                       +:+ path +:+ "'")).
Proof.
  intros Hp Hty.
  unfold Validators.directory, Validators.os_path_exists, Validators.os_path_isdir.
  rewrite Hp. rewrite bool_decide_eq_true_2 by eauto.
  rewrite bool_decide_eq_false_2; [done |]. intros ?; by simplify_eq.
Qed.

Lemma file_of_other path ty :
  fs path = Some ty → ty ≠ Validators.RegularFile →
  Validators.file fs path
  = Raise (ValueError ("Expected file, received non-file: '" +:+ path +:+ "'")).
Proof.
  intros Hp Hty.
  unfold Validators.file, Validators.os_path_exists, Validators.os_path_isfile.
  rewrite Hp. rewrite bool_decide_eq_true_2 by eauto.
  rewrite bool_decide_eq_false_2; [done |]. intros ?; by simplify_eq.
Qed.

Lemma file_of_directory path :
  fs path = Some Validators.Directory →
  Validators.file fs path
  = Raise (ValueError ("Expected file, received non-file: '" +:+ path +:+ "'")).
Proof.
  intros Hp. unfold Validators.file, Validators.os_path_exists, Validators.os_path_isfile.
  rewrite Hp. rewrite bool_decide_eq_true_2 by eauto.
  by rewrite bool_decide_eq_false_2.
Qed.

Lemma directory_fails path :
  fs path ≠ Some Validators.Directory →
  ∃ msg, Validators.directory fs path = Raise (ValueError msg).
Proof.
  intros Hp. unfold Validators.directory, Validators.os_path_isdir.
  destruct (negb (Validators.os_path_exists fs path)); [by eexists |].
  rewrite bool_decide_eq_false_2 by done. by eexists.
Qed.

Lemma file_fails path :
  fs path ≠ Some Validators.RegularFile →
  ∃ msg, Validators.file fs path = Raise (ValueError msg).
Proof.
  intros Hp. unfold Validators.file, Validators.os_path_isfile.
  destruct (negb (Validators.os_path_exists fs path)); [by eexists |].
  rewrite bool_decide_eq_false_2 by done. by eexists.
Qed.

Lemma directory_returns path :
  fs path = Some Validators.Directory →
  Validators.directory fs path = Ok (VPath path).
Proof.
  intros Hp. unfold Validators.directory, Validators.os_path_exists, Validators.os_path_isdir.
  rewrite Hp. rewrite bool_decide_eq_true_2 by eauto.
  by rewrite bool_decide_eq_true_2.
Qed.

Lemma file_returns path :
  fs path = Some Validators.RegularFile →
  Validators.file fs path = Ok (VPath path).
Proof.
  intros Hp. unfold Validators.file, Validators.os_path_exists, Validators.os_path_isfile.
  rewrite Hp. rewrite bool_decide_eq_true_2 by eauto.
  by rewrite bool_decide_eq_true_2.
Qed.

Lemma messages_differ path :
  "Expected file, received non-file: '" +:+ path +:+ "'"
  ≠ "Expected file, doesn't exist: '" +:+ path +:+ "'".
Proof. intros H. vm_compute in H. discriminate H. Qed.

(** What [_get_value] makes of the [ValueError] of a converter. *)
Lemma get_value_source_directory path msg :
  Validators.directory fs path = Raise (ValueError msg) →
  get_value source_directory_action path
  = Raise (ArgumentError (Some "source_directory")
             ("invalid directory value: " +:+ Py.repr path)).
Proof. intros Hd. unfold get_value. cbn [type source_directory_action type_call]. by rewrite Hd. Qed.

Lemma get_value_files path msg :
  Validators.file fs path = Raise (ValueError msg) →
  get_value validators_files_action path
  = Raise (ArgumentError (Some "files") ("invalid file value: " +:+ Py.repr path)).
Proof. intros Hd. unfold get_value. cbn [type validators_files_action type_call]. by rewrite Hd. Qed.

Lemma get_values_source_directory d :
  d ≠ "--" →
  get_values source_directory_action [d] = get_value source_directory_action d.
Proof.
  intros Hne. unfold get_values. cbn [remove_first].
  rewrite (proj2 (String.eqb_neq _ _) Hne).
  rewrite bool_decide_eq_false_2 by (by intros [? _]).
  rewrite bool_decide_eq_false_2 by (by intros [? _]).
  rewrite bool_decide_eq_true_2 by (by left).
  by destruct (get_value source_directory_action d).
Qed.

Lemma get_values_files f :
  f ≠ "--" →
  get_values validators_files_action [f]
  = (v ← get_value validators_files_action f; Ok (VList [v])).
Proof.
  intros Hne. unfold get_values. cbn [remove_first].
  rewrite (proj2 (String.eqb_neq _ _) Hne).
  rewrite bool_decide_eq_false_2 by (by intros [? _]).
  rewrite bool_decide_eq_false_2 by (by intros [? _]).
  rewrite bool_decide_eq_false_2 by (by intros [?|?]).
  cbn [mapM]. by destruct (get_value validators_files_action f).
Qed.

Lemma take_action_raises st action args e :
  get_values action args = Raise e → take_action st action args = Raise e.
Proof. intros Hv. unfold take_action. by rewrite Hv. Qed.

Lemma get_values_source_directory_ok d :
  d ≠ "--" → fs d = Some Validators.Directory →
  get_values source_directory_action [d] = Ok (VPath d).
Proof.
  intros Hne Hd. rewrite get_values_source_directory by done.
  unfold get_value. cbn [type source_directory_action type_call].
  by rewrite directory_returns.
Qed.

Lemma get_values_source_directory_fails d :
  d ≠ "--" → fs d ≠ Some Validators.Directory →
  get_values source_directory_action [d]
  = Raise (ArgumentError (Some "source_directory")
             ("invalid directory value: " +:+ Py.repr d)).
Proof.
  intros Hne Hd. rewrite get_values_source_directory by done.
  destruct (directory_fails d Hd) as [msg Hmsg].
  by apply (get_value_source_directory d msg).
Qed.

Lemma get_values_files_ok f :
  f ≠ "--" → fs f = Some Validators.RegularFile →
  get_values validators_files_action [f] = Ok (VList [VPath f]).
Proof.
  intros Hne Hf. rewrite get_values_files by done.
  unfold get_value. cbn [type validators_files_action type_call].
  by rewrite file_returns.
Qed.

Lemma get_values_files_fails f :
  f ≠ "--" → fs f ≠ Some Validators.RegularFile →
  get_values validators_files_action [f]
  = Raise (ArgumentError (Some "files") ("invalid file value: " +:+ Py.repr f)).
Proof.
  intros Hne Hf. rewrite get_values_files by done.
  destruct (file_fails f Hf) as [msg Hmsg].
  by rewrite (get_value_files f msg).
Qed.

(** The command line [validators.py d f], up to the positionals. *)
Lemma validators_setup_parser argv0 d f :
  positional_token (validators_parser (basename argv0)) d →
  positional_token (validators_parser (basename argv0)) f →
  Validators.setup_parser fs [argv0; d; f]
  = '(args, argv) ←
      match
        (let st := mkState {[ "source_directory" := VNone; "files" := VNone ]} [] []
                           [source_directory_action; validators_files_action] in
         '(stop_index, st) ←
           (st1 ← take_action st source_directory_action [d];
            st2 ← take_action st1 validators_files_action [f];
            Ok (2%nat, mkState (namespace st2) (seen_actions st2) (extras st2) []));
         let extras := extras st ++ drop stop_index [d; f] in
         '(required_actions, ns) ←
           foldM (convert_default (seen_actions st)) ([], namespace st)
                 [help_action; source_directory_action; validators_files_action];
         if bool_decide (required_actions ≠ []) then
           error (validators_parser (basename argv0))
                 ("the following arguments are required: " +:+
                  Py.join ", " required_actions)
         else Ok (ns, extras))
      with
      | Raise (ArgumentError argument_name message) =>
          error (validators_parser (basename argv0))
                (ArgumentError_str argument_name message)
      | r => r
      end;
    if bool_decide (argv ≠ []) then
      error (validators_parser (basename argv0))
            ("unrecognized arguments: " +:+ Py.join " " argv)
    else Ok args.
Proof.
  intros [Hdne Hd] [Hfne Hf]. unfold Validators.setup_parser. simpl List.hd. simpl List.tl.
  rewrite validators_build_parser_eq. cbn [mbind result_bind].
  unfold parse_args, parse_known_args, _parse_known_args.
  rewrite classify_cons by done. rewrite Hd. cbn [mbind result_bind].
  rewrite classify_cons by done. rewrite Hf. cbn [classify mbind result_bind].
  rewrite consume_loop_no_options by reflexivity. cbn [mbind result_bind].
  change (get_positional_actions (validators_parser (basename argv0)))
    with [source_directory_action; validators_files_action].
  change (foldl add_default ∅ (actions (validators_parser (basename argv0))))
    with ({[ "source_directory" := VNone; "files" := VNone ]} : gmap string value).
  unfold consume_positionals. cbn [positionals].
  change (match_arguments_partial _ _) with [1%nat; 1%nat].
  cbn [zip zip_with foldM].
  change (take 1 (drop 0 [d; f])) with [d].
  cbv zeta.
  destruct (take_action _ source_directory_action [d]) as [st1|e] eqn:H1;
    cbn [mbind result_bind]; [| done].
  change (take 1 (drop (0 + 1) [d; f])) with [f].
  destruct (take_action st1 validators_files_action [f]) as [st2|e] eqn:H2;
    cbn [mbind result_bind]; done.
Qed.

Definition validators_error (prog name kind path : string) : exn :=
  SystemExit 2 (prog +:+ ": error: argument " +:+ name +:+ ": invalid " +:+ kind
                +:+ " value: " +:+ Py.repr path +:+ String "010" "").

Lemma validators_bad_directory argv0 d f :
  positional_token (validators_parser (basename argv0)) d →
  positional_token (validators_parser (basename argv0)) f →
  fs d ≠ Some Validators.Directory →
  Validators.setup_parser fs [argv0; d; f]
  = Raise (validators_error (basename argv0) "source_directory" "directory" d).
Proof.
  intros Hd Hf Hbad. rewrite validators_setup_parser by done. cbv zeta.
  rewrite (take_action_raises _ _ _ _ (get_values_source_directory_fails d (proj1 Hd) Hbad)).
  reflexivity.
Qed.

Lemma validators_bad_file argv0 d f :
  positional_token (validators_parser (basename argv0)) d →
  positional_token (validators_parser (basename argv0)) f →
  fs d = Some Validators.Directory →
  fs f ≠ Some Validators.RegularFile →
  Validators.setup_parser fs [argv0; d; f]
  = Raise (validators_error (basename argv0) "files" "file" f).
Proof.
  intros Hd Hf Hdir Hbad. rewrite validators_setup_parser by done. cbv zeta.
  rewrite (take_action_store _ _ _ _ (get_values_source_directory_ok d (proj1 Hd) Hdir))
    by done.
  cbn [mbind result_bind].
  rewrite (take_action_raises _ _ _ _ (get_values_files_fails f (proj1 Hf) Hbad)).
  reflexivity.
Qed.

Lemma validators_good argv0 d f :
  positional_token (validators_parser (basename argv0)) d →
  positional_token (validators_parser (basename argv0)) f →
  fs d = Some Validators.Directory →
  fs f = Some Validators.RegularFile →
  Validators.setup_parser fs [argv0; d; f]
  = Ok {[ "source_directory" := VPath d; "files" := VList [VPath f] ]}.
Proof.
  intros Hd Hf Hdir Hfile. rewrite validators_setup_parser by done. cbv zeta.
  rewrite (take_action_store _ _ _ _ (get_values_source_directory_ok d (proj1 Hd) Hdir))
    by done.
  cbn [mbind result_bind].
  rewrite (take_action_store _ _ _ _ (get_values_files_ok f (proj1 Hf) Hfile)) by done.
  cbn [mbind result_bind].
  reflexivity.
Qed.
End ValidatorsParser.

(** ** The claims about the command line of main.py *)

Lemma string_app_assoc (a b c : string) : (a +:+ b) +:+ c = a +:+ (b +:+ c).
Proof.
  induction a as [|x a IH]; [done |].
  change ((String x a +:+ b) +:+ c) with (String x ((a +:+ b) +:+ c)).
  change (String x a +:+ (b +:+ c)) with (String x (a +:+ (b +:+ c))).
  by rewrite IH.
Qed.

Lemma setup_parser_outcome argv0 args :
  expected_outcome (basename argv0)
    (Main.setup_parser (argv0 :: args) Main.FileProcessorNamespace).
Proof.
  unfold Main.setup_parser. simpl List.hd. simpl List.tl.
  rewrite build_parser_eq. cbn [mbind result_bind].
  apply parse_args_outcome. unfold Main.FileProcessorNamespace.
  rewrite main_defaults_eq. apply main_defaults_dom.
Qed.

(** [main] prints all the attributes when they are the seven declared. *)
Lemma main_prints_all argv ns :
  Main.setup_parser argv Main.FileProcessorNamespace = Ok ns →
  dom ns = main_dests →
  Main.main argv = Ok ns.
Proof.
  intros Hok Hdom. unfold Main.main. rewrite Hok. cbn [mbind result_bind].
  rewrite map_filter_id; [done |].
  intros k v Hk. simpl.
  assert (k ∈ main_dests) as Hin by (rewrite <- Hdom; by apply elem_of_dom).
  unfold main_dests in Hin. rewrite !elem_of_union, !elem_of_singleton in Hin.
  destruct_or!; by subst.
Qed.

Lemma main_only_source argv0 t :
  positional_token (main_parser (basename argv0)) t →
  Main.main [argv0; t] = Ok (only_source_namespace t).
Proof.
  intros Ht. apply main_prints_all; [by apply only_source_parse | done].
Qed.

Lemma positional_not_recognised parser t a :
  positional_token parser t → ¬ recognised_as parser t a ∧ ¬ flag_with_text parser t.
Proof.
  intros [_ Ht]. split.
  - intros (s & e & H). rewrite Ht in H. discriminate H.
  - intros (b & s & e & H & _). rewrite Ht in H. discriminate H.
Qed.

(** C1: after the source, [--size 500KB] (or [-s], or an abbreviation of
    [--size]) gives [size = 512000]; a successful parse of a command line
    on which nothing is read as the size option, and no flag has text
    attached, has [size = 1048576]; [--size 5g] after positionals ends in
    argparse's invalid-value error for [-s/--size]. *)
Theorem size_argument (argv0 t opt s : string) :
  positional_token (main_parser (basename argv0)) t →
  parse_optional (main_parser (basename argv0)) opt
    = Ok (Some (Some size_action, s, None)) →
  (∃ ns, Main.setup_parser [argv0; t; opt; "500KB"] Main.FileProcessorNamespace = Ok ns
         ∧ ns !! "size" = Some (VInt 512000))
  ∧ (∀ args ns,
       Main.setup_parser (argv0 :: args) Main.FileProcessorNamespace = Ok ns →
       (∀ a, a ∈ args → ¬ recognised_as (main_parser (basename argv0)) a size_action
                        ∧ ¬ flag_with_text (main_parser (basename argv0)) a) →
       ns !! "size" = Some (VInt 1048576))
  ∧ (∀ pre rest cs cls,
       Forall (positional_token (main_parser (basename argv0))) pre →
       classify (main_parser (basename argv0)) rest = Ok cs →
       Main.setup_parser (argv0 :: pre ++ opt :: "5g" :: rest) cls
       = Raise (SystemExit 2
                  (basename argv0 +:+
                   ": error: argument -s/--size: invalid parse_size value: '5g'" +:+
                   String "010" ""))).
Proof.
  intros Ht Hopt. split; [| split].
  - exists (with_size t 512000). split; [by apply (size_500KB argv0 t opt s) | done].
  - intros args ns Hok Hnot. by apply (size_absent argv0 args ns).
  - intros pre rest cs cls Hpre Hcs.
    by rewrite (size_5g argv0 pre opt s rest cs cls).
Qed.

Lemma size_argument_witness :
  (∃ ns, Main.setup_parser ["main.py"; "my_source_directory"; "--size"; "500KB"]
           Main.FileProcessorNamespace = Ok ns
         ∧ ns !! "size" = Some (VInt 512000))
  ∧ only_source_namespace "my_source_directory" !! "size" = Some (VInt 1048576)
  ∧ Main.setup_parser ["main.py"; "my_source_directory"; "--size"; "5g"]
      Main.FileProcessorNamespace
    = Raise (SystemExit 2
               ("main.py: error: argument -s/--size: invalid parse_size value: '5g'"
                +:+ String "010" "")).
Proof.
  destruct (size_argument "main.py" "my_source_directory" "--size" "--size")
    as (H500 & Habsent & H5g).
  - by apply positional_token_no_dash.
  - reflexivity.
  - split; [exact H500 |]. split.
    + apply (Habsent ["my_source_directory"]).
      * apply only_source_parse. by apply positional_token_no_dash.
      * intros a ->%list_elem_of_singleton.
        apply positional_not_recognised. by apply positional_token_no_dash.
    + apply (H5g ["my_source_directory"] [] [] Main.FileProcessorNamespace).
      * constructor; [by apply positional_token_no_dash | constructor].
      * reflexivity.
Defined.

(** C3: with the source as the only argument string, parsing succeeds and
    the other attributes have their defaults: optional_destination is
    ['default_value'], files is [[]], verbose is [False], mode is ['auto'],
    size is [1048576] (and required_files is [None]); this is the mapping
    that [main] prints. *)
Theorem only_source_defaults (argv0 t : string) :
  positional_token (main_parser (basename argv0)) t →
  ∃ ns, Main.setup_parser [argv0; t] Main.FileProcessorNamespace = Ok ns
        ∧ Main.main [argv0; t] = Ok ns
        ∧ ns !! "source" = Some (VStr t)
        ∧ ns !! "optional_destination" = Some (VStr "default_value")
        ∧ ns !! "files" = Some (VList [])
        ∧ ns !! "required_files" = Some VNone
        ∧ ns !! "verbose" = Some (VBool false)
        ∧ ns !! "mode" = Some (VStr "auto")
        ∧ ns !! "size" = Some (VInt 1048576)
        ∧ dom ns = main_dests.
Proof.
  intros Ht. exists (only_source_namespace t).
  split; [by apply only_source_parse |].
  split; [by apply main_only_source |].
  repeat split; done.
Qed.

Lemma only_source_defaults_witness :
  ∃ ns, Main.setup_parser ["main.py"; "my_source_directory"] Main.FileProcessorNamespace
        = Ok ns
        ∧ Main.main ["main.py"; "my_source_directory"] = Ok ns
        ∧ ns !! "source" = Some (VStr "my_source_directory")
        ∧ ns !! "optional_destination" = Some (VStr "default_value")
        ∧ ns !! "files" = Some (VList [])
        ∧ ns !! "required_files" = Some VNone
        ∧ ns !! "verbose" = Some (VBool false)
        ∧ ns !! "mode" = Some (VStr "auto")
        ∧ ns !! "size" = Some (VInt 1048576)
        ∧ dom ns = main_dests.
Proof.
  apply (only_source_defaults "main.py" "my_source_directory").
  by apply positional_token_no_dash.
Defined.

Lemma parse_args_Ok_classify parser pre opt rest ns r :
  "--" ∉ pre → opt ≠ "--" →
  parse_args parser (pre ++ opt :: rest) ns = Ok r →
  ∃ cs, classify parser rest = Ok cs.
Proof.
  intros Hpre Hopt. unfold parse_args, parse_known_args, _parse_known_args.
  rewrite classify_app_no_dashdash by done. rewrite classify_cons by done.
  destruct (classify parser rest) as [cs|e] eqn:Hcs; [by eexists |].
  destruct (mapM _ pre) as [cpre|e0]; cbn [mbind result_bind].
  - destruct (parse_optional parser opt) as [o|e1]; cbn [mbind result_bind];
      [by destruct e | by destruct e1].
  - by destruct e0.
Qed.

(** [--required-files] without a value: the parse ends in its error,
    unless what stands before it ends the parse, whatever follows. *)
Lemma required_files_reached argv0 pre rest cs cls :
  let parser := main_parser (basename argv0) in
  "--" ∉ pre → not_an_argument parser rest → classify parser rest = Ok cs →
  Main.setup_parser (argv0 :: pre ++ "--required-files" :: rest) cls
  = Raise (required_files_exit (basename argv0))
  ∨ ∃ e, ∀ rest' cs', classify parser rest' = Ok cs' →
         Main.setup_parser (argv0 :: pre ++ "--required-files" :: rest') cls = Raise e.
Proof.
  intros parser Hpre Hrest Hcs.
  unfold Main.setup_parser. simpl List.hd. simpl List.tl.
  rewrite build_parser_eq. cbn [mbind result_bind]. fold parser.
  destruct (parse_args_reaches parser pre "--required-files" required_files_tuple rest cs
              cls (Some "--required-files") "expected at least one argument")
    as [Hexact|[e He]]; try done.
  - intros cpre st Hlen. apply consume_optional_required_files.
    + rewrite lookup_app_r by lia. by rewrite Hlen, Nat.sub_diag.
    + rewrite lookup_app_r by lia. rewrite Hlen.
      replace (S (length pre) - length pre)%nat with 1%nat by lia. simpl.
      pose proof (not_an_argument_head _ _ _ Hrest Hcs) as Hhd.
      by destruct cs as [|[] cs].
  - left. exact Hexact.
  - right. exists e. intros rest' cs' Hcs'. by apply (He rest' cs').
Qed.

(** C4, as the code has it. (1) When the parse succeeds and no argument
    string is read as the [--required-files] option (not in full, not
    abbreviated, not with [=value]), [required_files] is [None].  In the
    other parts [--required-files] stands after argument strings among
    which there is no ["--"], and is followed by nothing, by ["--"] or by
    an ASCII string that is not read as an argument.  (2) The parse does
    not succeed.  When moreover no ambiguous abbreviation stands after the
    option string: (3) the parse ends in the error [argument
    --required-files: expected at least one argument] when only positionals
    stand before the option string, (4) and also whenever some strings in
    the place of what follows it make the parse succeed; (5) in every case
    it ends in that error, or else in an exit or error that comes from what
    stands before [--required-files], the same whatever follows it. *)
Theorem required_files_values (argv0 : string) :
  (∀ args ns,
     Main.setup_parser (argv0 :: args) Main.FileProcessorNamespace = Ok ns →
     (∀ a, a ∈ args →
           ¬ recognised_as (main_parser (basename argv0)) a required_files_action) →
     ns !! "required_files" = Some VNone)
  ∧ (∀ pre rest,
       "--" ∉ pre → not_an_argument (main_parser (basename argv0)) rest →
       begins_ascii rest →
       ∃ e, Main.setup_parser (argv0 :: pre ++ "--required-files" :: rest)
              Main.FileProcessorNamespace = Raise e
            ∧ expected_outcome (basename argv0) (Raise e))
  ∧ (∀ pre rest cs cls,
       Forall (positional_token (main_parser (basename argv0))) pre →
       classify (main_parser (basename argv0)) rest = Ok cs →
       not_an_argument (main_parser (basename argv0)) rest →
       begins_ascii rest →
       Main.setup_parser (argv0 :: pre ++ "--required-files" :: rest) cls
       = Raise (required_files_exit (basename argv0)))
  ∧ (∀ pre rest values cs cls ns,
       "--" ∉ pre → not_an_argument (main_parser (basename argv0)) rest →
       begins_ascii rest →
       classify (main_parser (basename argv0)) rest = Ok cs →
       Main.setup_parser (argv0 :: pre ++ "--required-files" :: values) cls = Ok ns →
       Main.setup_parser (argv0 :: pre ++ "--required-files" :: rest) cls
       = Raise (required_files_exit (basename argv0)))
  ∧ (∀ pre rest cs cls,
       "--" ∉ pre → not_an_argument (main_parser (basename argv0)) rest →
       begins_ascii rest →
       classify (main_parser (basename argv0)) rest = Ok cs →
       Main.setup_parser (argv0 :: pre ++ "--required-files" :: rest) cls
       = Raise (required_files_exit (basename argv0))
       ∨ ∃ e, ∀ rest' cs',
           classify (main_parser (basename argv0)) rest' = Ok cs' →
           Main.setup_parser (argv0 :: pre ++ "--required-files" :: rest') cls = Raise e).
Proof.
  split; [| split; [| split; [| split]]].
  - intros args ns Hok Hnot. by apply (required_files_absent argv0 args ns).
  - intros pre rest Hpre Hrest _.
    destruct (required_files_without_values_fails argv0 pre rest
                Main.FileProcessorNamespace Hpre Hrest) as [e He].
    exists e. split; [done |]. rewrite <- He. apply setup_parser_outcome.
  - intros pre rest cs cls Hpre Hcs Hrest _.
    by rewrite (required_files_exact_error argv0 pre rest cs cls).
  - intros pre rest values cs cls ns Hpre Hrest _ Hcs Hok.
    destruct (required_files_reached argv0 pre rest cs cls Hpre Hrest Hcs)
      as [Hexact|[e He]]; [done |].
    assert (∃ cs', classify (main_parser (basename argv0)) values = Ok cs') as [cs' Hcs'].
    { unfold Main.setup_parser in Hok. simpl List.hd in Hok. simpl List.tl in Hok.
      rewrite build_parser_eq in Hok. cbn [mbind result_bind] in Hok.
      by apply (parse_args_Ok_classify _ pre "--required-files" values cls ns). }
    rewrite (He values cs' Hcs') in Hok. done.
  - intros pre rest cs cls Hpre Hrest _ Hcs.
    by apply (required_files_reached argv0 pre rest cs cls).
Qed.

Lemma required_files_values_witness :
  only_source_namespace "src" !! "required_files" = Some VNone
  ∧ (∃ e, Main.setup_parser ["main.py"; "src"; "-v"; "--required-files"; "--mode"; "auto"]
            Main.FileProcessorNamespace = Raise e
          ∧ expected_outcome "main.py" (Raise e))
  ∧ Main.setup_parser ["main.py"; "src"; "--required-files"] Main.FileProcessorNamespace
    = Raise (required_files_exit "main.py")
  ∧ Main.setup_parser ["main.py"; "src"; "-v"; "--required-files"; "--mode"; "auto"]
      Main.FileProcessorNamespace
    = Raise (required_files_exit "main.py")
  ∧ (Main.setup_parser ["main.py"; "-h"; "--required-files"] Main.FileProcessorNamespace
     = Raise (required_files_exit "main.py")
     ∨ ∃ e, ∀ rest' cs',
         classify (main_parser "main.py") rest' = Ok cs' →
         Main.setup_parser ("main.py" :: ["-h"] ++ "--required-files" :: rest')
           Main.FileProcessorNamespace = Raise e).
Proof.
  destruct (required_files_values "main.py")
    as (Habsent & Hfails & Hexact & Hvalues & Hreached).
  assert ("--" ∉ ["src"; "-v"]) as Hpre.
  { intros Hin. repeat (apply elem_of_cons in Hin as [Hin|Hin]; [discriminate Hin |]).
    by apply elem_of_nil in Hin. }
  assert (not_an_argument (main_parser (basename "main.py")) ["--mode"; "auto"]) as Hrest.
  { right. vm_compute. discriminate. }
  assert (begins_ascii ["--mode"; "auto"]) as Hascii.
  { intros t Ht. injection Ht as <-. reflexivity. }
  split; [| split; [| split; [| split]]].
  - apply (Habsent ["src"]).
    + apply only_source_parse. by apply positional_token_no_dash.
    + intros a ->%list_elem_of_singleton.
      apply positional_not_recognised. by apply positional_token_no_dash.
  - by apply (Hfails ["src"; "-v"] ["--mode"; "auto"]).
  - apply (Hexact ["src"] [] [] Main.FileProcessorNamespace).
    + constructor; [by apply positional_token_no_dash | constructor].
    + reflexivity.
    + exact I.
    + intros t Ht. discriminate Ht.
  - apply (Hvalues ["src"; "-v"] ["--mode"; "auto"] ["a"]
             [ClsOption (Some mode_action, "--mode", None); ClsArgument]
             Main.FileProcessorNamespace
             (<["required_files" := VList [VStr "a"]]>
                (<["verbose" := VBool true]> (only_source_namespace "src"))));
      [done | done | done | reflexivity | vm_compute; reflexivity].
  - apply (Hreached ["-h"] [] [] Main.FileProcessorNamespace);
      [| exact I | | reflexivity].
    + intros Hin. apply elem_of_cons in Hin as [Hin|Hin]; [discriminate Hin |].
      by apply elem_of_nil in Hin.
    + intros t Ht. discriminate Ht.
Defined.

(** C4, where the claim fails: [--req a] is read as [--required-files a]
    although the option string itself does not appear; after [-h] the
    program exits with status 0 before [--required-files] is looked at;
    after ["--"] the string [--required-files] is a positional, and the
    parse succeeds; an ambiguous abbreviation after it is reported first. *)
Lemma required_files_abbreviated_or_after_help :
  ("--required-files" ∉ ["src"; "--req"; "a"])
  ∧ Main.setup_parser ["main.py"; "src"; "--req"; "a"] Main.FileProcessorNamespace
    = Ok (<["required_files" := VList [VStr "a"]]> (only_source_namespace "src"))
  ∧ Main.setup_parser ["main.py"; "-h"; "--required-files"] Main.FileProcessorNamespace
    = Raise (SystemExit 0 "")
  ∧ Main.setup_parser ["main.py"; "src"; "--"; "--required-files"]
      Main.FileProcessorNamespace
    = Ok (<["optional_destination" := VStr "--required-files"]> (only_source_namespace "src"))
  ∧ Main.setup_parser ["main.py"; "src"; "--required-files"; "--=x"]
      Main.FileProcessorNamespace
    = Raise (SystemExit 2
               ("main.py: error: ambiguous option: --=x could match --help, --files, --required-files, --verbose, --mode, --size"
                +:+ String "010" "")).
Proof.
  split; [| split; [| split; [| split]]].
  - intros Hin. repeat (apply elem_of_cons in Hin as [Hin|Hin]; [discriminate Hin |]).
    by apply elem_of_nil in Hin.
  - vm_compute. reflexivity.
  - vm_compute. reflexivity.
  - vm_compute. reflexivity.
  - vm_compute. reflexivity.
Qed.





(** ** The claim about validators.py *)

(** C6: for a path that does not exist, [directory] and [file] raise
    their [ValueError] for a missing path, whose message holds the path; for
    a directory, [file] raises the [ValueError] for a non-file, whose
    message is another one; for a path of another type each converter
    raises its [ValueError] for the wrong type; so each converter raises
    [ValueError] whenever the path is missing or of another type.  On the
    command line argparse reports [argument source_directory: invalid
    directory value:] and [argument files: invalid file value:] with the
    [repr] of the path (stated for ASCII paths). *)
Theorem validators_reject (fs : Validators.filesystem) (path : string) :
  (fs path = None →
   Validators.directory fs path
   = Raise (ValueError ("Expected directory, doesn't exist: '" +:+ path +:+ "'"))
   ∧ Validators.file fs path
     = Raise (ValueError ("Expected file, doesn't exist: '" +:+ path +:+ "'"))
   ∧ ∀ argv0 f,
       Py.isascii path = true →
       positional_token (validators_parser fs (basename argv0)) path →
       positional_token (validators_parser fs (basename argv0)) f →
       Validators.setup_parser fs [argv0; path; f]
       = Raise (SystemExit 2
                  (basename argv0 +:+ ": error: argument source_directory: invalid directory value: "
                   +:+ Py.repr path +:+ String "010" "")))
  ∧ (fs path = Some Validators.Directory →
     Validators.file fs path
     = Raise (ValueError ("Expected file, received non-file: '" +:+ path +:+ "'"))
     ∧ "Expected file, received non-file: '" +:+ path +:+ "'"
       ≠ "Expected file, doesn't exist: '" +:+ path +:+ "'"
     ∧ ∀ argv0,
         Py.isascii path = true →
         positional_token (validators_parser fs (basename argv0)) path →
         Validators.setup_parser fs [argv0; path; path]
         = Raise (SystemExit 2
                    (basename argv0 +:+ ": error: argument files: invalid file value: "
                     +:+ Py.repr path +:+ String "010" "")))
  ∧ (∀ ty, fs path = Some ty → ty ≠ Validators.Directory →
     Validators.directory fs path
     = Raise (ValueError ("Expected directory, received non-directory: '"
                          +:+ path +:+ "'")))
  ∧ (∀ ty, fs path = Some ty → ty ≠ Validators.RegularFile →
     Validators.file fs path
     = Raise (ValueError ("Expected file, received non-file: '" +:+ path +:+ "'")))
  ∧ (fs path ≠ Some Validators.Directory →
     ∃ msg, Validators.directory fs path = Raise (ValueError msg))
  ∧ (fs path ≠ Some Validators.RegularFile →
     ∃ msg, Validators.file fs path = Raise (ValueError msg)).
Proof.
  split; [| split; [| split; [| split; [| split]]]].
  - intros Hp. split; [by apply directory_missing |].
    split; [by apply file_missing |].
    intros argv0 f _ Hpath Hf.
    rewrite (validators_bad_directory fs argv0 path f) by (by rewrite ?Hp).
    reflexivity.
  - intros Hp. split; [by apply file_of_directory |].
    split; [apply messages_differ |].
    intros argv0 _ Hpath.
    rewrite (validators_bad_file fs argv0 path path) by (by rewrite ?Hp).
    reflexivity.
  - intros ty Hp Hty. by apply (directory_of_other fs path ty).
  - intros ty Hp Hty. by apply (file_of_other fs path ty).
  - apply directory_fails.
  - apply file_fails.
Qed.

Lemma validators_reject_witness :
  (Validators.directory example_fs "nonexistent"
   = Raise (ValueError "Expected directory, doesn't exist: 'nonexistent'")
   ∧ Validators.file example_fs "nonexistent"
     = Raise (ValueError "Expected file, doesn't exist: 'nonexistent'")
   ∧ Validators.setup_parser example_fs ["validators.py"; "nonexistent"; "main.py"]
     = Raise (SystemExit 2
                ("validators.py: error: argument source_directory: invalid directory value: 'nonexistent'"
                 +:+ String "010" "")))
  ∧ (Validators.file example_fs "."
     = Raise (ValueError "Expected file, received non-file: '.'")
     ∧ Validators.setup_parser example_fs ["validators.py"; "."; "."]
       = Raise (SystemExit 2
                  ("validators.py: error: argument files: invalid file value: '.'"
                   +:+ String "010" "")))
  ∧ Validators.directory example_fs "main.py"
    = Raise (ValueError "Expected directory, received non-directory: 'main.py'")
  ∧ (∃ msg, Validators.directory example_fs "main.py" = Raise (ValueError msg))
  ∧ (∃ msg, Validators.file example_fs "nonexistent" = Raise (ValueError msg)).
Proof.
  destruct (validators_reject example_fs "nonexistent")
    as (Hmissing & _ & _ & _ & _ & Hfile).
  destruct (validators_reject example_fs ".") as (_ & Hdir & _ & _ & _ & _).
  destruct (validators_reject example_fs "main.py")
    as (_ & _ & Hother & _ & Hnodir & _).
  destruct (Hmissing eq_refl) as (Hconv & Hconvf & Hcli).
  destruct (Hdir eq_refl) as (Hconv' & _ & Hcli').
  split; [split; [| split] | split; [split | split; [| split]]].
  - exact Hconv.
  - exact Hconvf.
  - apply (Hcli "validators.py" "main.py"); [reflexivity | |];
      by apply positional_token_no_dash.
  - exact Hconv'.
  - apply (Hcli' "validators.py"); [reflexivity |]. by apply positional_token_no_dash.
  - apply (Hother Validators.RegularFile); [reflexivity | discriminate].
  - apply Hnodir. discriminate.
  - apply Hfile. discriminate.
Defined.

(** ** Exit behaviour and repeated parsing *)

(** The outcomes of [main]: the printed mapping with the seven attributes,
    the exit with status 0 of [-h]/[--help], the exit with status 2 and an
    error that names an argument, the missing source, the unrecognized
    arguments or an ambiguous option, or an exception of the size converter
    that argparse does not catch. *)
Lemma main_outcomes (argv0 : string) (args : list string) :
  expected_outcome (basename argv0) (Main.main (argv0 :: args)).
Proof.
  pose proof (setup_parser_outcome argv0 args) as H.
  destruct (Main.setup_parser _ _) as [ns|e] eqn:Hsetup.
  - by rewrite (main_prints_all _ ns Hsetup H).
  - unfold Main.main. by rewrite Hsetup.
Qed.

(** C7: a size with an unknown unit makes the converter raise [KeyError],
    which argparse does not catch: [main] ends with this exception, not with
    the error line and exit status 2 that the claim promises for every
    failing converter input and that the sibling input [--size 5g], where
    the converter raises [ValueError], gets. *)
Theorem main_uncaught_converter_exception :
  Main.main ["main.py"; "src"; "--size"; "500XY"] = Raise (KeyError "XY")
  ∧ Main.main ["main.py"; "src"; "--size"; "5g"]
    = Raise (SystemExit 2
               ("main.py: error: argument -s/--size: invalid parse_size value: '5g'"
                +:+ String "010" "")).
Proof. split; vm_compute; reflexivity. Qed.

(** C8: parsing is a function of the command line and of the class it
    writes to; a second parse of the same command line, into the class as
    the first parse left it, returns the same attributes. *)
Theorem parsing_idempotent (argv : list string) (ns : gmap string value) :
  Main.setup_parser argv Main.FileProcessorNamespace = Ok ns →
  Main.setup_parser argv ns = Ok ns.
Proof.
  unfold Main.setup_parser, Main.FileProcessorNamespace.
  rewrite build_parser_eq. cbn [mbind result_bind]. apply parse_args_again.
Qed.

Lemma parsing_idempotent_witness :
  Main.setup_parser ["main.py"; "src"; "--mode"; "manual"] (with_mode "src" "manual")
  = Ok (with_mode "src" "manual").
Proof.
  apply parsing_idempotent.
  apply (mode_valid_choice "main.py" "src" "--mode" "--mode" "manual").
  - by apply positional_token_no_dash.
  - reflexivity.
  - right; left.
Defined.

(** ** More about parse_size *)

Lemma substring_length (n m : nat) (s : string) :
  (n + m ≤ String.length s)%nat → String.length (String.substring n m s) = m.
Proof.
  revert n m. induction s as [|c s IH]; intros [|n] [|m]; simpl; try lia.
  - intros. f_equal. apply IH. lia.
  - intros. apply (IH n 0%nat). lia.
  - intros. apply (IH n (S m)). lia.
Qed.

Lemma slice_until_last_short (s : string) :
  (String.length s ≤ 2)%nat → Py.slice_until_last 2 s = "".
Proof.
  intros Hlen. unfold Py.slice_until_last.
  replace (String.length s - 2)%nat with 0%nat by lia. by destruct s.
Qed.

Lemma slice_last_length (s : string) :
  (2 ≤ String.length s)%nat → String.length (Py.slice_last 2 s) = 2%nat.
Proof. intros Hlen. unfold Py.slice_last. apply substring_length. lia. Qed.

Lemma float_of_str_empty :
  Py.float_of_str (Py.strip "")
  = Raise (ValueError "could not convert string to float: ''").
Proof. reflexivity. Qed.

Lemma units_lookup_Some (u : string) (factor : Z) :
  Main.units !! u = Some factor →
  (u, factor) ∈ [("B", 1); ("KB", 1024); ("MB", 1048576); ("GB", 1073741824)].
Proof.
  unfold Main.units. intros H.
  repeat (apply lookup_insert_Some in H as [[<- <-]|[_ H]];
          [set_solver |]).
  apply lookup_singleton_Some in H as [<- <-]. set_solver.
Qed.

Lemma get_value_size (size_str : string) :
  get_value size_action size_str
  = match Main.parse_size size_str with
    | Ok n => Ok (VInt n)
    | Raise (ValueError _) =>
        Raise (ArgumentError (Some "-s/--size")
                 ("invalid parse_size value: " +:+ Py.repr size_str))
    | Raise e => Raise e
    end.
Proof.
  unfold get_value. cbn [type size_action Main.parse_size_type type_call type_name].
  by destruct (Main.parse_size size_str) as [n|[]].
Qed.

Lemma parse_size_short_raises (size_str : string) :
  (String.length size_str ≤ 2)%nat →
  Main.parse_size size_str = Raise (ValueError "could not convert string to float: ''").
Proof.
  intros Hlen. unfold Main.parse_size. rewrite slice_until_last_short by done.
  by rewrite float_of_str_empty.
Qed.

(** X1: an ASCII text of at most two characters has no magnitude:
    [float('')] raises [ValueError], which argparse reports as an invalid
    value of [-s/--size]. *)
Theorem parse_size_too_short (size_str : string) :
  Py.isascii size_str = true →
  (String.length size_str ≤ 2)%nat →
  Main.parse_size size_str
  = Raise (ValueError "could not convert string to float: ''")
  ∧ get_value size_action size_str
    = Raise (ArgumentError (Some "-s/--size")
               ("invalid parse_size value: " +:+ Py.repr size_str)).
Proof.
  intros _ Hlen. pose proof (parse_size_short_raises size_str Hlen) as Hraise.
  split; [done |]. by rewrite get_value_size, Hraise.
Qed.

Lemma parse_size_too_short_witness :
  Main.parse_size "KB" = Raise (ValueError "could not convert string to float: ''")
  ∧ get_value size_action "KB"
    = Raise (ArgumentError (Some "-s/--size")
               ("invalid parse_size value: " +:+ Py.repr "KB")).
Proof. apply (parse_size_too_short "KB"); [reflexivity | simpl; lia]. Defined.

(** X2: whenever [parse_size] returns, the text has more than two
    characters and its last two, uppercased, are KB, MB or GB: the entry
    ['B'] of [units] is never the one that is looked up. *)
Theorem parse_size_returns_for_two_letter_units (size_str : string) (n : Z) :
  Main.parse_size size_str = Ok n →
  (2 < String.length size_str)%nat
  ∧ Py.upper (Py.slice_last 2 size_str) ∈ ["KB"; "MB"; "GB"].
Proof.
  intros Hok.
  assert (2 < String.length size_str)%nat as Hlen.
  { destruct (decide (String.length size_str ≤ 2)%nat) as [Hle|]; [| lia].
    pose proof (parse_size_short_raises size_str Hle) as Hraise. congruence. }
  split; [done |].
  unfold Main.parse_size in Hok.
  destruct (Py.float_of_str _) as [x|]; cbn [mbind result_bind] in Hok; [| done].
  unfold Main.getitem in Hok.
  destruct (Main.units !! _) as [factor|] eqn:Hunit;
    cbn [mbind result_bind] in Hok; [| done].
  apply units_lookup_Some in Hunit.
  assert (String.length (Py.upper (Py.slice_last 2 size_str)) = 2%nat) as Hl.
  { rewrite upper_length. apply slice_last_length. lia. }
  apply elem_of_cons in Hunit as [Heq|Hunit].
  { injection Heq as Hu _. by rewrite Hu in Hl. }
  repeat (apply elem_of_cons in Hunit as [Heq|Hunit];
          [injection Heq as -> _; set_solver |]).
  by apply elem_of_nil in Hunit.
Qed.

Lemma parse_size_returns_for_two_letter_units_witness :
  (2 < String.length "500kb")%nat
  ∧ Py.upper (Py.slice_last 2 "500kb") ∈ ["KB"; "MB"; "GB"].
Proof.
  apply (parse_size_returns_for_two_letter_units "500kb" 512000).
  vm_compute. reflexivity.
Defined.

(** The factor of a two-letter unit, as a float. *)
Lemma unit_factor (u : string) :
  u ∈ ["KB"; "MB"; "GB"] →
  ∃ factor my ey,
    Main.getitem Main.units u = Ok factor
    ∧ Py.float_of_int factor = Ok (S754_finite false my ey).
Proof.
  intros Hu. set_unfold in Hu. destruct Hu as [->|[->|[->|[]]]].
  - exists 1024. eexists _, _. split; reflexivity.
  - exists 1048576. eexists _, _. split; reflexivity.
  - exists 1073741824. eexists _, _. split; reflexivity.
Qed.

Lemma parse_size_app (m u : string) :
  Py.upper u ∈ ["KB"; "MB"; "GB"] →
  ∃ factor my ey,
    Py.float_of_int factor = Ok (S754_finite false my ey)
    ∧ Main.parse_size (m +:+ u)
      = (size ← Py.float_of_str (Py.strip m);
         Py.int_of_float (SFmul Py.prec Py.emax size (S754_finite false my ey))).
Proof.
  intros Hu.
  assert (String.length u = 2%nat) as Hlen.
  { rewrite <- upper_length. set_unfold in Hu. by destruct Hu as [->|[->|[->|[]]]]. }
  destruct (unit_factor _ Hu) as (factor & my & ey & Hget & Hfloat).
  exists factor, my, ey. split; [done |].
  unfold Main.parse_size. destruct (slices_of_app m u Hlen) as [-> ->].
  destruct (Py.float_of_str _) as [x|]; cbn [mbind result_bind]; [| done].
  rewrite Hget. cbn [mbind result_bind]. unfold Py.float_mul_int. rewrite Hfloat. done.
Qed.

(** X3: a magnitude that [float] reads as an infinity ([inf], [-Infinity],
    [1e999]) makes [int] raise [OverflowError]; argparse catches only
    [ValueError], [TypeError] and [ArgumentTypeError], so the exception
    leaves [_get_value]. *)
Theorem parse_size_infinite_magnitude (m u : string) (negative : bool) :
  Py.float_of_str (Py.strip m) = Ok (S754_infinity negative) →
  Py.upper u ∈ ["KB"; "MB"; "GB"] →
  Main.parse_size (m +:+ u)
  = Raise (OverflowError "cannot convert float infinity to integer")
  ∧ get_value size_action (m +:+ u)
    = Raise (OverflowError "cannot convert float infinity to integer").
Proof.
  intros Hm Hu. destruct (parse_size_app m u Hu) as (factor & my & ey & _ & Hparse).
  rewrite Hm in Hparse. cbn [mbind result_bind SFmul Py.int_of_float] in Hparse.
  split; [done |]. by rewrite get_value_size, Hparse.
Qed.

Lemma parse_size_infinite_magnitude_witness :
  Main.parse_size ("1e999" +:+ "kb")
  = Raise (OverflowError "cannot convert float infinity to integer")
  ∧ get_value size_action ("1e999" +:+ "kb")
    = Raise (OverflowError "cannot convert float infinity to integer").
Proof.
  apply (parse_size_infinite_magnitude "1e999" "kb" false).
  - vm_compute. reflexivity.
  - vm_compute. apply list_elem_of_here.
Defined.

(** X4: a magnitude that [float] reads as a NaN makes [int] raise
    [ValueError], which argparse reports as an invalid value of
    [-s/--size]. *)
Theorem parse_size_nan_magnitude (m u : string) :
  Py.float_of_str (Py.strip m) = Ok S754_nan →
  Py.upper u ∈ ["KB"; "MB"; "GB"] →
  Main.parse_size (m +:+ u)
  = Raise (ValueError "cannot convert float NaN to integer")
  ∧ get_value size_action (m +:+ u)
    = Raise (ArgumentError (Some "-s/--size")
               ("invalid parse_size value: " +:+ Py.repr (m +:+ u))).
Proof.
  intros Hm Hu. destruct (parse_size_app m u Hu) as (factor & my & ey & _ & Hparse).
  rewrite Hm in Hparse. cbn [mbind result_bind SFmul Py.int_of_float] in Hparse.
  split; [done |]. by rewrite get_value_size, Hparse.
Qed.

Lemma parse_size_nan_magnitude_witness :
  Main.parse_size ("nan" +:+ "MB")
  = Raise (ValueError "cannot convert float NaN to integer")
  ∧ get_value size_action ("nan" +:+ "MB")
    = Raise (ArgumentError (Some "-s/--size")
               ("invalid parse_size value: " +:+ Py.repr ("nan" +:+ "MB"))).
Proof.
  apply (parse_size_nan_magnitude "nan" "MB").
  - vm_compute. reflexivity.
  - apply list_elem_of_further, list_elem_of_here.
Defined.

(** Rounding keeps the sign, and a mantissa that is not negative. *)
Lemma shr_1_nonneg (mrs : shr_record) : 0 ≤ shr_m mrs → 0 ≤ shr_m (shr_1 mrs).
Proof. destruct mrs as [[|[p|p|]|p] r s]; simpl; lia. Qed.

Lemma iter_pos_shr_1_nonneg (p : positive) : ∀ mrs,
  0 ≤ shr_m mrs → 0 ≤ shr_m (SpecFloat.iter_pos shr_1 p mrs).
Proof.
  induction p as [p IH|p IH|]; intros mrs Hm; simpl.
  - apply IH, IH. by apply shr_1_nonneg.
  - by apply IH, IH.
  - by apply shr_1_nonneg.
Qed.

Lemma shr_fexp_nonneg (m e : Z) (l : location) :
  0 ≤ m → 0 ≤ shr_m (shr_fexp Py.prec Py.emax m e l).1.
Proof.
  intros Hm. unfold shr_fexp, shr.
  assert (0 ≤ shr_m (shr_record_of_loc m l)) as H0.
  { by destruct l as [|[]]. }
  destruct (_ - e) as [|p|p]; simpl; try done.
  by apply iter_pos_shr_1_nonneg.
Qed.

Lemma round_nearest_even_nonneg (m : Z) (l : location) :
  0 ≤ m → 0 ≤ round_nearest_even m l.
Proof. intros Hm. destruct l as [|[]]; simpl; try done; [destruct (Z.even m) |]; lia. Qed.

Lemma binary_round_aux_sign (sx : bool) (mx ex : Z) (lx : location) :
  0 ≤ mx →
  match binary_round_aux Py.prec Py.emax sx mx ex lx with
  | S754_zero s | S754_infinity s | S754_finite s _ _ => s = sx
  | S754_nan => False
  end.
Proof.
  intros Hmx. unfold binary_round_aux.
  pose proof (shr_fexp_nonneg mx ex lx Hmx) as H1.
  destruct (shr_fexp _ _ mx ex lx) as [mrs' e']. simpl in H1.
  pose proof (shr_fexp_nonneg (round_nearest_even (shr_m mrs') (loc_of_shr_record mrs'))
                e' loc_Exact (round_nearest_even_nonneg _ _ H1)) as H2.
  destruct (shr_fexp _ _ _ e' loc_Exact) as [mrs'' e'']. simpl in H2.
  destruct (shr_m mrs''); [done | | lia].
  by destruct (Z.leb _ _).
Qed.

(** X5: a finite magnitude is not checked for its sign: the result is an
    integer of the sign of the magnitude (a negative size for [-5KB]), or
    [OverflowError] when the product overflows. *)
Theorem parse_size_keeps_sign (m u : string) (negative : bool) (mx : positive) (ex : Z) :
  Py.float_of_str (Py.strip m) = Ok (S754_finite negative mx ex) →
  Py.upper u ∈ ["KB"; "MB"; "GB"] →
  (∃ n, Main.parse_size (m +:+ u) = Ok n ∧ if negative then n ≤ 0 else 0 ≤ n)
  ∨ Main.parse_size (m +:+ u)
    = Raise (OverflowError "cannot convert float infinity to integer").
Proof.
  intros Hm Hu. destruct (parse_size_app m u Hu) as (factor & my & ey & _ & Hparse).
  rewrite Hm in Hparse. cbn [mbind result_bind SFmul] in Hparse.
  pose proof (binary_round_aux_sign (xorb negative false) (Z.pos (mx * my)) (ex + ey)
                loc_Exact ltac:(lia)) as Hsign.
  destruct (binary_round_aux _ _ _ _ _ _) as [s|s| |s mz ez];
    cbn [Py.int_of_float] in Hparse.
  - left. exists 0. split; [done |]. by destruct negative.
  - by right.
  - done.
  - left. eexists. split; [done |].
    rewrite xorb_false_r in Hsign. subst s.
    assert (0 ≤ Z.shiftl (Z.pos mz) ez).
    { apply Z.shiftl_nonneg. lia. }
    destruct negative; simpl; lia.
Qed.

Lemma parse_size_keeps_sign_witness :
  (∃ n, Main.parse_size ("-5" +:+ "KB") = Ok n ∧ n ≤ 0)
  ∨ Main.parse_size ("-5" +:+ "KB")
    = Raise (OverflowError "cannot convert float infinity to integer").
Proof.
  apply (parse_size_keeps_sign "-5" "KB" true 5629499534213120 (-50)).
  - vm_compute. reflexivity.
  - apply list_elem_of_here.
Defined.

Lemma parse_size_negative_example : Main.parse_size "-5KB" = Ok (-5120).
Proof. vm_compute. reflexivity. Qed.

(** ** More command lines of main.py *)

(** [setup_parser] after the two consuming phases. *)
Lemma setup_parser_run argv0 args classes i st :
  classify (main_parser (basename argv0)) args = Ok classes →
  run (main_parser (basename argv0)) args classes
      (mkState main_defaults [] [] main_positionals) = Ok (i, st) →
  Main.setup_parser (argv0 :: args) Main.FileProcessorNamespace
  = if action_in source_action (seen_actions st) then
      if bool_decide (extras st ++ drop i args ≠ []) then
        error (main_parser (basename argv0))
              ("unrecognized arguments: " +:+ Py.join " " (extras st ++ drop i args))
      else Ok (finish_namespace (seen_actions st) (namespace st))
    else error (main_parser (basename argv0))
               "the following arguments are required: source".
Proof.
  intros Hclass Hrun.
  unfold Main.setup_parser, Main.FileProcessorNamespace. simpl List.hd. simpl List.tl.
  rewrite build_parser_eq. cbn [mbind result_bind].
  unfold parse_args, parse_known_args, _parse_known_args.
  change (actions (main_parser (basename argv0))) with main_actions.
  rewrite main_defaults_eq, get_positional_actions_main.
  rewrite Hclass. cbn [mbind result_bind].
  unfold run in Hrun.
  destruct (consume_loop _ _ _ _ _ _) as [[j st']|e]; cbn [mbind result_bind] in *;
    [| done].
  rewrite Hrun. cbn [mbind result_bind].
  rewrite finish_spec. cbn [mbind result_bind].
  destruct (action_in source_action (seen_actions st)).
  - rewrite bool_decide_eq_false_2 by (intros H; by apply H).
    cbv iota. cbn [mbind result_bind]. by destruct (bool_decide _).
  - by rewrite bool_decide_eq_true_2.
Qed.

Lemma classify_positionals parser args :
  Forall (positional_token parser) args →
  classify parser args = Ok (replicate (length args) ClsArgument).
Proof.
  intros Hargs.
  rewrite <- (app_nil_r args) at 1.
  rewrite (classify_positional_prefix parser args [] []) by done.
  by rewrite app_nil_r.
Qed.

Lemma option_string_indices_from_arguments k n :
  option_string_indices_from k (replicate n ClsArgument) = [].
Proof. revert k. induction n as [|n IH]; intros k; simpl; [done | apply IH]. Qed.

Lemma max_option_string_index_arguments n :
  max_option_string_index (replicate n ClsArgument) = -1.
Proof.
  unfold max_option_string_index, option_string_indices.
  by rewrite option_string_indices_from_arguments.
Qed.

(** The positionals take the first two argument strings of a command line
    without option strings. *)
Lemma run_two_positionals prog t t' rest :
  Forall (positional_token (main_parser prog)) (t :: t' :: rest) →
  run (main_parser prog) (t :: t' :: rest)
      (replicate (length (t :: t' :: rest)) ClsArgument)
      (mkState main_defaults [] [] main_positionals)
  = Ok (2%nat,
        mkState (<["optional_destination" := VStr t']> (<["source" := VStr t]> main_defaults))
                [optional_destination_action; source_action] [] []).
Proof.
  intros Hall. unfold run.
  rewrite consume_loop_no_options by apply max_option_string_index_arguments.
  cbn [mbind result_bind].
  inversion Hall as [|? ? [Hne _] Hall']; subst.
  inversion Hall' as [|? ? [Hne' _] _]; subst.
  rewrite (consume_positionals_two _ _ 0 _ _ _ t t'); try done.
  simpl. by destruct rest.
Qed.

(** X6: a second positional is the optional destination; the other
    attributes keep their defaults. *)
Theorem second_positional_is_destination (argv0 t t' : string) :
  positional_token (main_parser (basename argv0)) t →
  positional_token (main_parser (basename argv0)) t' →
  Main.setup_parser [argv0; t; t'] Main.FileProcessorNamespace
  = Ok (<["optional_destination" := VStr t']> (only_source_namespace t)).
Proof.
  intros Ht Ht'.
  assert (Forall (positional_token (main_parser (basename argv0))) [t; t']) as Hall.
  { repeat (constructor; [done |]). constructor. }
  rewrite (setup_parser_run argv0 [t; t'] _ _ _ (classify_positionals _ _ Hall)
             (run_two_positionals _ t t' [] Hall)).
  reflexivity.
Qed.

Lemma second_positional_is_destination_witness :
  Main.setup_parser ["main.py"; "."; "some_destination"] Main.FileProcessorNamespace
  = Ok (<["optional_destination" := VStr "some_destination"]> (only_source_namespace ".")).
Proof.
  apply (second_positional_is_destination "main.py" "." "some_destination");
    by apply positional_token_no_dash.
Defined.

(** X7: there are two positionals only: every further argument string
    that is not read as an option is reported as unrecognized. *)
Theorem excess_positionals_unrecognized (argv0 t t' t'' : string) (rest : list string) :
  Forall (positional_token (main_parser (basename argv0))) (t :: t' :: t'' :: rest) →
  Main.setup_parser (argv0 :: t :: t' :: t'' :: rest) Main.FileProcessorNamespace
  = Raise (SystemExit 2
             (basename argv0 +:+ ": error: unrecognized arguments: "
              +:+ Py.join " " (t'' :: rest) +:+ String "010" "")).
Proof.
  intros Hall.
  rewrite (setup_parser_run argv0 (t :: t' :: t'' :: rest) _ _ _
             (classify_positionals _ _ Hall)
             (run_two_positionals _ t t' (t'' :: rest) Hall)).
  reflexivity.
Qed.

Lemma excess_positionals_unrecognized_witness :
  Main.setup_parser ["main.py"; "a"; "b"; "c"; "d"] Main.FileProcessorNamespace
  = Raise (SystemExit 2
             ("main.py" +:+ ": error: unrecognized arguments: "
              +:+ Py.join " " ["c"; "d"] +:+ String "010" "")).
Proof.
  apply (excess_positionals_unrecognized "main.py" "a" "b" "c" ["d"]).
  repeat (constructor; [by apply positional_token_no_dash |]). constructor.
Defined.

(** ** The source, then one option string *)

Section SourceThenOption.
Context (prog : string) (t opt : string) (tup : option_tuple)
        (values : list string).
Let args : list string := t :: opt :: values.
Let classes : list arg_class :=
  ClsArgument :: ClsOption tup :: replicate (length values) ClsArgument.

Lemma option_string_indices_one : option_string_indices classes = [(1%nat, tup)].
Proof.
  unfold option_string_indices, classes. cbn [option_string_indices_from].
  by rewrite option_string_indices_from_arguments.
Qed.

Lemma max_option_string_index_one : max_option_string_index classes = 1.
Proof. unfold max_option_string_index. by rewrite option_string_indices_one. Qed.

Lemma next_option_string_index_one start :
  (start ≤ 1)%nat → next_option_string_index classes start = 1%nat.
Proof.
  intros Hle. unfold next_option_string_index. rewrite option_string_indices_one.
  cbn [fmap list_fmap fst]. rewrite filter_cons_True by done. done.
Qed.

(** The state in which the option string is consumed. *)
Definition after_source : state :=
  mkState (<["optional_destination" := VStr "default_value"]>
             (<["source" := VStr t]> main_defaults))
          [optional_destination_action; source_action] [] [].

Lemma run_source_then_option stop st :
  t ≠ "--" →
  consume_optional (main_parser prog) args classes 1 after_source = Ok (stop, st) →
  (2 ≤ stop)%nat → positionals st = [] →
  run (main_parser prog) args classes (mkState main_defaults [] [] main_positionals)
  = Ok (stop, st).
Proof.
  intros Hne Hopt Hstop Hpos. unfold run.
  change (S (length args)) with (S (S (S (length values)))).
  rewrite consume_loop_S, max_option_string_index_one.
  rewrite next_option_string_index_one by lia.
  change (Z.of_nat 0 <=? 1) with true. cbv iota zeta.
  rewrite bool_decide_eq_true_2 by done.
  rewrite (consume_positionals_one args classes 0 _ _ _ t) by done.
  cbn [mbind result_bind]. rewrite bool_decide_eq_true_2 by lia. cbv iota.
  rewrite consume_loop_S, max_option_string_index_one.
  rewrite next_option_string_index_one by lia.
  change (Z.of_nat 1 <=? 1) with true. cbv iota zeta.
  rewrite bool_decide_eq_false_2 by (by intros ?).
  cbn [mbind result_bind].
  rewrite bool_decide_eq_false_2 by (by rewrite option_string_indices_one).
  cbv iota. fold after_source. rewrite Hopt. cbn [mbind result_bind].
  rewrite consume_loop_past by (rewrite max_option_string_index_one; lia).
  cbn [mbind result_bind].
  destruct st as [ns seen ex pos]. simpl in Hpos. subst pos.
  apply consume_positionals_none.
Qed.

Lemma classify_source_then_option :
  positional_token (main_parser prog) t →
  parse_optional (main_parser prog) opt = Ok (Some tup) →
  Forall (positional_token (main_parser prog)) values →
  classify (main_parser prog) args = Ok classes.
Proof.
  intros [Hne Ht] Hopt Hvalues. unfold args, classes.
  rewrite classify_cons by done. rewrite Ht. cbn [mbind result_bind].
  rewrite classify_cons by (by eapply parse_optional_dashdash).
  rewrite Hopt. cbn [mbind result_bind].
  by rewrite classify_positionals.
Qed.
End SourceThenOption.

(** ** Options that take a list of values *)

Lemma count_prefix_replicate (cs : list pat) (c : pat) (n : nat) :
  c ∈ cs → count_prefix cs (replicate n c) = n.
Proof.
  intros Hc. induction n as [|n IH]; simpl; [done |].
  by rewrite bool_decide_eq_true_2, IH.
Qed.

Lemma countdown_head (n : nat) : ∃ l, countdown n = n :: l.
Proof. destruct n; simpl; eauto. Qed.

(** A starred class at the end of a pattern takes all the characters of
    the class that follow (the quantifier is greedy). *)
Lemma re_match_star (cs : list pat) (n : nat) :
  PA ∈ cs → re_match [[ReStar cs]] (replicate n PA) = Some [n].
Proof.
  intros Hc. cbn [re_match group_matches item_matches].
  rewrite count_prefix_replicate by done.
  destruct (countdown_head n) as [l ->].
  cbn [mbind list_bind fmap list_fmap app first_some re_match].
  by rewrite Nat.add_0_r.
Qed.

Lemma re_match_char_star (cs : list pat) (n : nat) :
  PA ∈ cs → re_match [[ReChar PA; ReStar cs]] (replicate (S n) PA) = Some [S n].
Proof.
  intros Hc. cbn [re_match group_matches item_matches replicate].
  rewrite bool_decide_eq_true_2 by done.
  cbn [mbind list_bind drop]. cbn [group_matches item_matches]. rewrite drop_0.
  rewrite count_prefix_replicate by done.
  destruct (countdown_head n) as [l ->].
  cbn [mbind list_bind fmap list_fmap app first_some re_match].
  by rewrite Nat.add_0_r.
Qed.

Lemma match_argument_files (n : nat) :
  match_argument files_action (replicate n PA) = Ok n.
Proof.
  unfold match_argument.
  change (get_nargs_pattern files_action) with [ReStar [PA]].
  rewrite re_match_star; [done | apply list_elem_of_here].
Qed.

Lemma match_argument_required_files_values (n : nat) :
  match_argument required_files_action (replicate (S n) PA) = Ok (S n).
Proof.
  unfold match_argument.
  change (get_nargs_pattern required_files_action) with [ReChar PA; ReStar [PA]].
  rewrite re_match_char_star; [done | apply list_elem_of_here].
Qed.

Lemma remove_first_absent (x : string) (l : list string) :
  x ∉ l → remove_first x l = l.
Proof.
  induction l as [|y l IH]; [done |]. intros [Hne Hl]%not_elem_of_cons. simpl.
  rewrite (proj2 (String.eqb_neq y x)) by done. by rewrite IH.
Qed.

Lemma mapM_get_value_str (action : Action) (l : list string) :
  type action = None → mapM (get_value action) l = Ok (VStr <$> l).
Proof.
  intros Htype. induction l as [|x l IH]; [done |]. cbn [mapM].
  assert (get_value action x = Ok (VStr x)) as -> by (unfold get_value; by rewrite Htype).
  cbn [mbind result_bind]. by rewrite IH.
Qed.

Lemma mapM_check_value_any (action : Action) (l : list value) :
  choices action = None → ∃ us, mapM (check_value action) l = Ok us.
Proof.
  intros Hch. induction l as [|x l [us IH]]; [by eexists |]. cbn [mapM].
  assert (check_value action x = Ok ()) as -> by (unfold check_value; by rewrite Hch).
  cbn [mbind result_bind]. rewrite IH.
  by eexists.
Qed.

(** [_get_values] for an option with [nargs='*'] or [nargs='+'] and no
    converter: the list of the strings. *)
Lemma get_values_list (action : Action) (l : list string) :
  "--" ∉ l → option_strings action ≠ [] →
  nargs action = ZERO_OR_MORE ∨ nargs action = ONE_OR_MORE →
  type action = None → choices action = None →
  get_values action l = Ok (VList (VStr <$> l)).
Proof.
  intros Hl Hopt Hnargs Htype Hch. unfold get_values.
  rewrite remove_first_absent by done.
  rewrite bool_decide_eq_false_2 by (intros [_ H]; destruct Hnargs; congruence).
  rewrite bool_decide_eq_false_2 by (by intros (_ & _ & H)).
  rewrite bool_decide_eq_false_2 by (intros [H|H]; destruct Hnargs; congruence).
  rewrite (mapM_get_value_str action l Htype).
  destruct (mapM_check_value_any action (VStr <$> l) Hch) as [us Hus].
  assert ((vs ← Ok (VStr <$> l); _ ← mapM (check_value action) vs; Ok (VList vs))
          = Ok (VList (VStr <$> l)) :> result value) as Hlist.
  { cbn [mbind result_bind]. by rewrite Hus. }
  by destruct l as [|x [|y l]].
Qed.

Lemma positional_tokens_no_dashdash parser (l : list string) :
  Forall (positional_token parser) l → "--" ∉ l.
Proof.
  intros Hall Hin. by destruct (proj1 (Forall_forall _ _) Hall "--" Hin).
Qed.

(** The option at index 1 takes all of [values]. *)
Lemma consume_optional_list prog t opt action s values :
  Forall (positional_token (main_parser prog)) values →
  match_argument action (replicate (length values) PA) = Ok (length values) →
  option_strings action ≠ [] →
  nargs action = ZERO_OR_MORE ∨ nargs action = ONE_OR_MORE →
  type action = None → choices action = None →
  action_class_of action = StoreAction →
  consume_optional (main_parser prog) (t :: opt :: values)
    (ClsArgument :: ClsOption (Some action, s, None)
                 :: replicate (length values) ClsArgument) 1 (after_source t)
  = Ok ((2 + length values)%nat,
        mkState (<[dest action := VList (VStr <$> values)]> (namespace (after_source t)))
                (action :: seen_actions (after_source t)) [] []).
Proof.
  intros Hvalues Hmatch Hopt Hnargs Htype Hch Hcls. unfold consume_optional.
  rewrite assoc_option_string_indices. cbn [lookup list_lookup]. cbv iota beta.
  unfold consume_optional_following, arg_strings_pattern.
  cbn [fmap list_fmap drop Nat.add pat_of].
  change (list_fmap arg_class pat pat_of (replicate (length values) ClsArgument))
    with (pat_of <$> replicate (length values) ClsArgument).
  rewrite !drop_0, fmap_replicate. cbn [pat_of]. rewrite Hmatch.
  cbn [mbind result_bind app foldM]. rewrite firstn_all.
  rewrite (take_action_store _ _ _ (VList (VStr <$> values))); [done | | done | done].
  apply get_values_list; try done. by eapply positional_tokens_no_dashdash.
Qed.

Lemma source_then_list argv0 t opt action s values :
  positional_token (main_parser (basename argv0)) t →
  parse_optional (main_parser (basename argv0)) opt = Ok (Some (Some action, s, None)) →
  Forall (positional_token (main_parser (basename argv0))) values →
  match_argument action (replicate (length values) PA) = Ok (length values) →
  option_strings action ≠ [] →
  nargs action = ZERO_OR_MORE ∨ nargs action = ONE_OR_MORE →
  type action = None → choices action = None →
  action_class_of action = StoreAction →
  Main.setup_parser (argv0 :: t :: opt :: values) Main.FileProcessorNamespace
  = Ok (finish_namespace [action; optional_destination_action; source_action]
          (<[dest action := VList (VStr <$> values)]> (namespace (after_source t)))).
Proof.
  intros Ht Hopt Hvalues Hmatch Hos Hnargs Htype Hch Hcls.
  rewrite (setup_parser_run argv0 (t :: opt :: values) _ (2 + length values)%nat
             (mkState (<[dest action := VList (VStr <$> values)]>
                         (namespace (after_source t)))
                      (action :: seen_actions (after_source t)) [] [])
             (classify_source_then_option _ t opt _ values Ht Hopt Hvalues)).
  - cbn [seen_actions extras namespace app].
    replace (action_in source_action _) with true.
    2:{ cbn [action_in existsb after_source seen_actions].
        replace (action_eqb source_action source_action) with true by reflexivity.
        by rewrite !orb_true_r. }
    rewrite bool_decide_eq_false_2; [done |].
    intros Hdrop. apply Hdrop. apply drop_ge. simpl. lia.
  - apply run_source_then_option; [apply Ht | | lia | done].
    by apply consume_optional_list.
Qed.

(** X8: [--files] takes all the argument strings that follow it, none
    included: [files] is the list of these strings, in their order. *)
Theorem files_takes_following_values (argv0 t opt s : string) (values : list string) :
  positional_token (main_parser (basename argv0)) t →
  parse_optional (main_parser (basename argv0)) opt
    = Ok (Some (Some files_action, s, None)) →
  Forall (positional_token (main_parser (basename argv0))) values →
  Main.setup_parser (argv0 :: t :: opt :: values) Main.FileProcessorNamespace
  = Ok (<["files" := VList (VStr <$> values)]> (only_source_namespace t)).
Proof.
  intros Ht Hopt Hvalues.
  rewrite (source_then_list argv0 t opt files_action s values); try done.
  - apply match_argument_files.
  - by left.
Qed.

Lemma files_takes_following_values_witness :
  Main.setup_parser ("main.py" :: "." :: "--files" :: ["main.py"; "validators.py"])
    Main.FileProcessorNamespace
  = Ok (<["files" := VList (VStr <$> ["main.py"; "validators.py"])]>
          (only_source_namespace ".")).
Proof.
  apply (files_takes_following_values "main.py" "." "--files" "--files").
  - by apply positional_token_no_dash.
  - reflexivity.
  - repeat (constructor; [by apply positional_token_no_dash |]). constructor.
Defined.

(** X9: [--required-files] followed by one argument string at least
    takes them all: [required_files] is the list of these strings. *)
Theorem required_files_takes_following_values (argv0 t opt s v : string)
    (values : list string) :
  positional_token (main_parser (basename argv0)) t →
  parse_optional (main_parser (basename argv0)) opt
    = Ok (Some (Some required_files_action, s, None)) →
  Forall (positional_token (main_parser (basename argv0))) (v :: values) →
  Main.setup_parser (argv0 :: t :: opt :: v :: values) Main.FileProcessorNamespace
  = Ok (<["required_files" := VList (VStr <$> v :: values)]> (only_source_namespace t)).
Proof.
  intros Ht Hopt Hvalues.
  rewrite (source_then_list argv0 t opt required_files_action s (v :: values));
    try done.
  - apply match_argument_required_files_values.
  - by right.
Qed.

Lemma required_files_takes_following_values_witness :
  Main.setup_parser ("main.py" :: "." :: "--required-files" :: "a.txt" :: ["b.txt"])
    Main.FileProcessorNamespace
  = Ok (<["required_files" := VList (VStr <$> "a.txt" :: ["b.txt"])]>
          (only_source_namespace ".")).
Proof.
  apply (required_files_takes_following_values "main.py" "." "--required-files"
           "--required-files").
  - by apply positional_token_no_dash.
  - reflexivity.
  - repeat (constructor; [by apply positional_token_no_dash |]). constructor.
Defined.

(** ** A flag, and an option string that is not declared *)

Lemma take_action_store_const st action :
  nargs action = NargsInt 0 → action_class_of action = StoreConstAction →
  take_action st action []
  = Ok (mkState (<[dest action := const action]> (namespace st))
                (action :: seen_actions st) (extras st) (positionals st)).
Proof.
  intros Hnargs Hcls. unfold take_action, get_values. cbn [remove_first].
  rewrite bool_decide_eq_false_2 by (intros [_ H]; congruence).
  rewrite bool_decide_eq_false_2 by (intros (_ & H & _); congruence).
  cbn [mapM mbind result_bind]. rewrite bool_decide_eq_false_2 by done.
  unfold call_action. by rewrite Hcls.
Qed.

(** X10: [-v] (or [--verbose], or an abbreviation) after the source sets
    [verbose] to [True] and nothing else. *)
Theorem verbose_flag_sets_true (argv0 t opt s : string) :
  positional_token (main_parser (basename argv0)) t →
  parse_optional (main_parser (basename argv0)) opt
    = Ok (Some (Some verbose_action, s, None)) →
  Main.setup_parser [argv0; t; opt] Main.FileProcessorNamespace
  = Ok (<["verbose" := VBool true]> (only_source_namespace t)).
Proof.
  intros Ht Hopt.
  rewrite (setup_parser_run argv0 [t; opt] _ 2%nat
             (mkState (<["verbose" := VBool true]> (namespace (after_source t)))
                      (verbose_action :: seen_actions (after_source t)) [] [])
             (classify_source_then_option _ t opt _ [] Ht Hopt (Forall_nil_2 _))).
  - reflexivity.
  - apply (run_source_then_option _ t opt _ []); [apply Ht | | lia | done].
    unfold consume_optional.
    rewrite assoc_option_string_indices. cbn [lookup list_lookup]. cbv iota beta.
    unfold consume_optional_following.
    change (match_argument verbose_action _) with (Ok 0%nat : result nat).
    cbn [mbind result_bind app foldM take].
    by rewrite take_action_store_const.
Qed.

Lemma verbose_flag_sets_true_witness :
  Main.setup_parser ["main.py"; "."; "-v"] Main.FileProcessorNamespace
  = Ok (<["verbose" := VBool true]> (only_source_namespace ".")).
Proof.
  apply (verbose_flag_sets_true "main.py" "." "-v" "-v").
  - by apply positional_token_no_dash.
  - reflexivity.
Defined.

(** X11: an ASCII argument string that begins with [-] and is no option
    string of the parser, nor an abbreviation of one, nor a negative number,
    is set aside while parsing and reported at the end as unrecognized. *)
Theorem undeclared_option_unrecognized (argv0 t u s : string) (e : option string) :
  positional_token (main_parser (basename argv0)) t →
  Py.isascii u = true →
  parse_optional (main_parser (basename argv0)) u = Ok (Some (None, s, e)) →
  Main.setup_parser [argv0; t; u] Main.FileProcessorNamespace
  = Raise (SystemExit 2
             (basename argv0 +:+ ": error: unrecognized arguments: " +:+ u
              +:+ String "010" "")).
Proof.
  intros Ht _ Hopt.
  rewrite (setup_parser_run argv0 [t; u] _ 2%nat
             (mkState (namespace (after_source t)) (seen_actions (after_source t)) [u] [])
             (classify_source_then_option _ t u _ [] Ht Hopt (Forall_nil_2 _))).
  - reflexivity.
  - apply (run_source_then_option _ t u _ []); [apply Ht | | lia | done].
    unfold consume_optional.
    rewrite assoc_option_string_indices. cbn [lookup list_lookup]. done.
Qed.

Lemma undeclared_option_unrecognized_witness :
  Main.setup_parser ["main.py"; "."; "--bogus"] Main.FileProcessorNamespace
  = Raise (SystemExit 2
             ("main.py" +:+ ": error: unrecognized arguments: " +:+ "--bogus"
              +:+ String "010" "")).
Proof.
  apply (undeclared_option_unrecognized "main.py" "." "--bogus" "--bogus" None).
  - by apply positional_token_no_dash.
  - reflexivity.
  - reflexivity.
Defined.

(** ** Options that are not given *)

Lemma finish_namespace_other seen ns k :
  k ≠ "size" → finish_namespace seen ns !! k = ns !! k.
Proof.
  intros Hk. rewrite finish_namespace_size. unfold convert_str_default.
  destruct (action_in size_action seen); [done |].
  case_bool_decide; [| done]. by apply lookup_insert_ne.
Qed.

Lemma recognised_as_main_action prog t a :
  recognised_as (main_parser prog) t a → a ∈ main_actions.
Proof.
  intros (s & e & Hp).
  pose proof (parse_optional_spec (main_parser prog) t) as Hspec.
  by rewrite Hp in Hspec.
Qed.

(** What a successful parse leaves of the default of an option that
    nothing on the command line is read as. *)
Lemma option_not_given argv0 args ns action :
  Main.setup_parser (argv0 :: args) Main.FileProcessorNamespace = Ok ns →
  action ∈ [files_action; verbose_action; mode_action] →
  (∀ a, a ∈ args → ¬ recognised_as (main_parser (basename argv0)) a action) →
  (dest action = "files" ∨
   ∀ a, a ∈ args → ¬ flag_with_text (main_parser (basename argv0)) a) →
  ns !! dest action = main_defaults !! dest action.
Proof.
  intros Hok Haction Hnot Hflag.
  assert (action ∈ main_actions ∧ dest action ≠ "source"
          ∧ dest action ≠ "optional_destination" ∧ dest action ≠ "size")
    as (Hmain & Hsrc & Hod & Hsize).
  { repeat (apply elem_of_cons in Haction as [->|Haction];
            [split; [| done];
             repeat first [apply list_elem_of_here | apply list_elem_of_further] |]).
    by apply elem_of_nil in Haction. }
  destruct (main_frame argv0 args ns (dest action) Hok Hsrc Hod)
    as (seen & ns' & -> & Hk & _).
  - intros t a Ht Hrec Hd. apply (Hnot t Ht).
    replace action with a; [done |].
    apply main_dest_inj; [by eapply recognised_as_main_action | done | done].
  - intros (t & Ht & Htext) a Ha. destruct Hflag as [Hfiles|Hflag].
    + rewrite Hfiles.
      repeat (apply elem_of_cons in Ha as [->|Ha]; [done |]). by apply elem_of_nil in Ha.
    + by destruct (Hflag t Ht).
  - by rewrite finish_namespace_other.
Qed.

(** X12: when the parse succeeds, an option that nothing on the command
    line is read as has its default: [files] is the empty list, [verbose]
    is [False], [mode] is ['auto'] (for the options with a one-letter form,
    provided no flag has text attached to it, as in [-vmmanual]). *)
Theorem options_not_given_have_defaults (argv0 : string) (args : list string)
    (ns : gmap string value) :
  Main.setup_parser (argv0 :: args) Main.FileProcessorNamespace = Ok ns →
  ((∀ a, a ∈ args → ¬ recognised_as (main_parser (basename argv0)) a files_action) →
   ns !! "files" = Some (VList []))
  ∧ ((∀ a, a ∈ args → ¬ recognised_as (main_parser (basename argv0)) a verbose_action
                      ∧ ¬ flag_with_text (main_parser (basename argv0)) a) →
     ns !! "verbose" = Some (VBool false))
  ∧ ((∀ a, a ∈ args → ¬ recognised_as (main_parser (basename argv0)) a mode_action
                      ∧ ¬ flag_with_text (main_parser (basename argv0)) a) →
     ns !! "mode" = Some (VStr "auto")).
Proof.
  intros Hok. split; [| split].
  - intros Hnot.
    apply (option_not_given argv0 args ns files_action Hok);
      [apply list_elem_of_here | done | by left].
  - intros Hnot.
    apply (option_not_given argv0 args ns verbose_action Hok);
      [apply list_elem_of_further, list_elem_of_here | |].
    + intros a Ha. by destruct (Hnot a Ha).
    + right. intros a Ha. by destruct (Hnot a Ha).
  - intros Hnot.
    apply (option_not_given argv0 args ns mode_action Hok);
      [do 2 apply list_elem_of_further; apply list_elem_of_here | |].
    + intros a Ha. by destruct (Hnot a Ha).
    + right. intros a Ha. by destruct (Hnot a Ha).
Qed.

Lemma options_not_given_have_defaults_witness :
  only_source_namespace "a" !! "files" = Some (VList [])
  ∧ only_source_namespace "a" !! "verbose" = Some (VBool false)
  ∧ only_source_namespace "a" !! "mode" = Some (VStr "auto").
Proof.
  assert (positional_token (main_parser (basename "main.py")) "a") as Ha
    by (by apply positional_token_no_dash).
  assert (∀ action x, x ∈ ["a"] →
            ¬ recognised_as (main_parser (basename "main.py")) x action
            ∧ ¬ flag_with_text (main_parser (basename "main.py")) x) as Hnot.
  { intros action x Hx. apply positional_not_recognised.
    apply elem_of_cons in Hx as [->|Hx]; [done |]. by apply elem_of_nil in Hx. }
  destruct (options_not_given_have_defaults "main.py" ["a"] _
              (only_source_parse "main.py" "a" Ha))
    as (Hfiles & Hverbose & Hmode).
  split; [| split].
  - apply Hfiles. intros x Hx. by destruct (Hnot files_action x Hx).
  - apply Hverbose. intros x Hx. apply Hnot, Hx.
  - apply Hmode. intros x Hx. apply Hnot, Hx.
Defined.

(** ** Abbreviated option strings *)

Lemma prefix_cons_inv (p : string) (c : ascii) (o : string) :
  String.prefix p (String c o) = true →
  p = "" ∨ ∃ p', p = String c p' ∧ String.prefix p' o = true.
Proof.
  destruct p as [|a p]; [by left |]. simpl.
  destruct (Ascii.ascii_dec a c) as [->|]; [| done]. right. eauto.
Qed.

Lemma prefix_nil_inv (p : string) : String.prefix p "" = true → p = "".
Proof. by destruct p. Qed.

Ltac prefix_cases H :=
  repeat (apply prefix_cons_inv in H as [->|(? & -> & H)];
          [try (simpl in *; lia) | ]);
  try (apply prefix_nil_inv in H as ->).

(** X13: the long option strings of main.py differ in their third
    character, so every beginning of three characters or more of one of
    them is read as that option string. *)
Theorem long_options_can_be_abbreviated (prog o p : string) :
  o ∈ ["--help"; "--files"; "--required-files"; "--verbose"; "--mode"; "--size"] →
  String.prefix p o = true → (3 ≤ String.length p)%nat →
  ∃ action,
    assoc o (option_string_actions (main_parser prog)) = Some action
    ∧ parse_optional (main_parser prog) p = Ok (Some (Some action, o, None)).
Proof.
  intros Ho Hp Hlen.
  repeat (apply elem_of_cons in Ho as [->|Ho];
          [prefix_cases Hp; eexists; (split; [reflexivity |]); reflexivity |]).
  by apply elem_of_nil in Ho.
Qed.

Lemma long_options_can_be_abbreviated_witness :
  ∃ action,
    assoc "--required-files" (option_string_actions (main_parser "main.py")) = Some action
    ∧ parse_optional (main_parser "main.py") "--req"
      = Ok (Some (Some action, "--required-files", None)).
Proof.
  apply (long_options_can_be_abbreviated "main.py" "--required-files" "--req").
  - do 2 apply list_elem_of_further. apply list_elem_of_here.
  - reflexivity.
  - simpl. lia.
Defined.

(** ** The size converter on the command line *)

Lemma setup_parser_option_raises argv0 pre opt rest tup cs e cls :
  Forall (positional_token (main_parser (basename argv0))) pre →
  parse_optional (main_parser (basename argv0)) opt = Ok (Some tup) →
  classify (main_parser (basename argv0)) rest = Ok cs →
  (∀ st, consume_optional (main_parser (basename argv0)) (pre ++ opt :: rest)
           (replicate (length pre) ClsArgument ++ ClsOption tup :: cs) (length pre) st
         = Raise e) →
  Main.setup_parser (argv0 :: pre ++ opt :: rest) cls
  = match e with
    | ArgumentError name msg =>
        error (main_parser (basename argv0)) (ArgumentError_str name msg)
    | _ => Raise e
    end.
Proof.
  intros Hpre Hopt Hrest Hfails.
  unfold Main.setup_parser. simpl List.hd. simpl List.tl.
  rewrite build_parser_eq. cbn [mbind result_bind].
  unfold parse_args, parse_known_args, _parse_known_args.
  rewrite (classify_positional_prefix _ pre (opt :: rest) (ClsOption tup :: cs)); [| done |].
  2:{ rewrite classify_cons by (by eapply parse_optional_dashdash).
      by rewrite Hopt, Hrest. }
  cbn [mbind result_bind]. rewrite get_positional_actions_main.
  rewrite (run_first_option _ _ _ _ _ _ e) by done.
  by destruct e.
Qed.

Lemma get_values_size (v : string) :
  v ≠ "--" → get_values size_action [v] = get_value size_action v.
Proof.
  intros Hne. unfold get_values. cbn [remove_first].
  rewrite (proj2 (String.eqb_neq _ _) Hne).
  rewrite bool_decide_eq_false_2 by (by intros [? _]).
  rewrite bool_decide_eq_false_2 by (by intros [? _]).
  rewrite bool_decide_eq_true_2 by (by left).
  by destruct (get_value size_action v).
Qed.

(** X14: what [parse_size] makes of the ASCII value of [--size] decides
    the parse: its result is the [size] attribute, its [ValueError] becomes
    the error [invalid parse_size value], and any other exception it raises
    leaves the program as it is. *)
Theorem size_option_follows_converter (argv0 t opt s v : string) :
  positional_token (main_parser (basename argv0)) t →
  parse_optional (main_parser (basename argv0)) opt
    = Ok (Some (Some size_action, s, None)) →
  positional_token (main_parser (basename argv0)) v →
  Py.isascii v = true →
  Main.setup_parser [argv0; t; opt; v] Main.FileProcessorNamespace
  = match Main.parse_size v with
    | Ok n => Ok (<["size" := VInt n]> (only_source_namespace t))
    | Raise (ValueError _) =>
        Raise (SystemExit 2
                 (basename argv0 +:+ ": error: argument -s/--size: invalid parse_size value: "
                  +:+ Py.repr v +:+ String "010" ""))
    | Raise e => Raise e
    end.
Proof.
  intros Ht Hopt Hv _.
  pose proof (get_values_size v (proj1 Hv)) as Hvalues.
  rewrite get_value_size in Hvalues.
  destruct (Main.parse_size v) as [n|e] eqn:Hsize.
  - by rewrite (one_option_parse argv0 t opt size_action s v (VInt n)).
  - assert (∀ e', get_values size_action [v] = Raise e' →
              Main.setup_parser [argv0; t; opt; v] Main.FileProcessorNamespace
              = match e' with
                | ArgumentError name msg =>
                    error (main_parser (basename argv0)) (ArgumentError_str name msg)
                | _ => Raise e'
                end) as Hraise.
    { intros e' He'. change [argv0; t; opt; v] with (argv0 :: [t] ++ opt :: [v]).
      apply (setup_parser_option_raises argv0 [t] opt [v] (Some size_action, s, None)
               [ClsArgument]); try done.
      - by constructor.
      - rewrite classify_cons by apply Hv. by rewrite (proj2 Hv).
      - intros st. unfold consume_optional.
        rewrite assoc_option_string_indices. cbn [lookup list_lookup replicate app length].
        cbv iota beta. unfold consume_optional_following, arg_strings_pattern.
        cbn [fmap list_fmap drop Nat.add pat_of replicate app length].
        rewrite match_argument_size.
        cbn [mbind result_bind take app foldM]. unfold take_action.
        by rewrite He'. }
    destruct (parse_size_raises v e Hsize) as [[msg ->]|[[k ->]|[msg ->]]];
      rewrite (Hraise _ Hvalues); [| done | done].
    unfold error, exit, ArgumentError_str. cbn [prog main_parser].
    by rewrite !string_app_assoc.
Qed.

Lemma size_option_follows_converter_witness :
  Main.setup_parser ["main.py"; "."; "-s"; "2gb"] Main.FileProcessorNamespace
  = match Main.parse_size "2gb" with
    | Ok n => Ok (<["size" := VInt n]> (only_source_namespace "."))
    | Raise (ValueError _) =>
        Raise (SystemExit 2
                 (basename "main.py" +:+ ": error: argument -s/--size: invalid parse_size value: "
                  +:+ Py.repr "2gb" +:+ String "010" ""))
    | Raise e => Raise e
    end.
Proof.
  apply (size_option_follows_converter "main.py" "." "-s" "-s" "2gb").
  - by apply positional_token_no_dash.
  - reflexivity.
  - by apply positional_token_no_dash.
  - reflexivity.
Defined.

(** ** Flags only *)

Lemma match_argument_verbose (p : list pat) :
  match_argument verbose_action p = Ok 0%nat.
Proof. reflexivity. Qed.

Section FlagsOnly.
Context (prog : string) (arg_strings : list string) (classes : list arg_class).
Hypothesis all_flags : Forall is_verbose_class classes.

Lemma flag_at i : (i < length classes)%nat → is_option_at classes i.
Proof.
  intros Hi. destruct (lookup_lt_is_Some_2 classes i Hi) as [c Hc].
  destruct (proj1 (Forall_lookup _ _) all_flags i c Hc) as [s ->]. by eexists.
Qed.

Lemma consume_optional_flag i st :
  (i < length classes)%nat →
  consume_optional (main_parser prog) arg_strings classes i st
  = Ok (S i, mkState (<["verbose" := VBool true]> (namespace st))
                     (verbose_action :: seen_actions st) (extras st)
                     (positionals st)).
Proof.
  intros Hi. destruct (lookup_lt_is_Some_2 classes i Hi) as [c Hc].
  destruct (proj1 (Forall_lookup _ _) all_flags i c Hc) as [s ->].
  unfold consume_optional. rewrite assoc_option_string_indices, Hc.
  unfold consume_optional_following. rewrite match_argument_verbose.
  cbn [mbind result_bind app foldM take].
  rewrite take_action_store_const by done. cbn [mbind result_bind].
  do 2 f_equal. lia.
Qed.

Lemma consume_loop_flags fuel : ∀ start st,
  (length classes - start < fuel)%nat →
  Forall (λ a, a = verbose_action) (seen_actions st) →
  ∃ i st', consume_loop (main_parser prog) arg_strings classes fuel start st
           = Ok (i, st')
           ∧ (length classes ≤ i)%nat
           ∧ Forall (λ a, a = verbose_action) (seen_actions st')
           ∧ extras st' = extras st ∧ positionals st' = positionals st.
Proof.
  induction fuel as [|fuel IH]; intros start st Hfuel Hseen; [lia |].
  pose proof (max_option_string_index_lt classes) as Hmax.
  destruct (decide (start < length classes)%nat) as [Hlt|Hge].
  - rewrite consume_loop_S.
    pose proof (max_option_string_index_ge classes start (flag_at start Hlt)) as Hle.
    destruct (Z.leb_spec (Z.of_nat start) (max_option_string_index classes)); [| lia].
    destruct (next_option_string_index_spec classes start start (flag_at start Hlt))
      as [Hnext _]; [lia |].
    replace (next_option_string_index classes start) with start by lia.
    cbv zeta. rewrite bool_decide_eq_false_2 by (intros H'; by apply H').
    cbn [mbind result_bind]. cbv iota.
    destruct (flag_at start Hlt) as [tup Htup].
    rewrite bool_decide_eq_false_2
      by (by rewrite assoc_option_string_indices, Htup).
    rewrite (consume_optional_flag start st Hlt).
    cbn [mbind result_bind].
    destruct (IH (S start) (mkState (<["verbose" := VBool true]> (namespace st))
                                    (verbose_action :: seen_actions st) (extras st)
                                    (positionals st)))
      as (i & st' & -> & Hi & Hseen' & Hex & Hpos); [lia | by constructor |].
    by exists i, st'.
  - rewrite consume_loop_past by lia. exists start, st. repeat split; try done. lia.
Qed.
End FlagsOnly.

Lemma classify_flags parser args :
  Forall (λ t, ∃ s, parse_optional parser t = Ok (Some (Some verbose_action, s, None)))
         args →
  "--" ∉ args →
  ∃ classes, classify parser args = Ok classes
             ∧ Forall is_verbose_class classes ∧ length classes = length args.
Proof.
  induction args as [|t args IH]; intros Hall Hdd.
  - by exists [].
  - inversion Hall as [|? ? [s Ht] Hrest]; subst.
    apply not_elem_of_cons in Hdd as [Hne Hdd].
    destruct (IH Hrest Hdd) as (classes & Hclass & Hflags & Hlen).
    exists (ClsOption (Some verbose_action, s, None) :: classes).
    rewrite classify_cons by done. rewrite Ht, Hclass. cbn [mbind result_bind].
    split; [done |]. split; [| simpl; by rewrite Hlen].
    constructor; [by exists s | done].
Qed.

(** X15: a command line that holds flags only (none at all included)
    leaves the required positional out: the parse ends in the error
    [the following arguments are required: source]. *)
Theorem flags_alone_miss_the_source (argv0 : string) (args : list string) :
  Forall (λ t, ∃ s, parse_optional (main_parser (basename argv0)) t
                    = Ok (Some (Some verbose_action, s, None))) args →
  "--" ∉ args →
  Main.setup_parser (argv0 :: args) Main.FileProcessorNamespace
  = Raise (SystemExit 2
             (basename argv0 +:+ ": error: the following arguments are required: source"
              +:+ String "010" "")).
Proof.
  intros Hall Hdd.
  destruct (classify_flags _ args Hall Hdd) as (classes & Hclass & Hflags & Hlen).
  destruct (consume_loop_flags (basename argv0) args classes Hflags
              (S (length args)) 0 (mkState main_defaults [] [] main_positionals))
    as (i & st & Hloop & Hi & Hseen & Hex & Hpos); [lia | constructor |].
  destruct st as [ns seen ex pos]. cbn [seen_actions extras positionals] in *. subst.
  rewrite (setup_parser_run argv0 args classes i
             (mkState ns seen [] main_positionals) Hclass).
  - cbn [seen_actions].
    replace (action_in source_action seen) with false; [reflexivity |].
    symmetry. apply not_true_is_false. unfold action_in.
    rewrite existsb_exists. intros (a & Ha%list_elem_of_In & Heq).
    by rewrite (proj1 (Forall_forall _ _) Hseen a Ha) in Heq.
  - unfold run. rewrite Hloop. cbn [mbind result_bind].
    unfold consume_positionals, arg_strings_pattern. cbn [positionals].
    rewrite drop_ge by (rewrite length_fmap; lia).
    reflexivity.
Qed.

Lemma flags_alone_miss_the_source_witness :
  Main.setup_parser ("main.py" :: ["-v"; "--verbose"]) Main.FileProcessorNamespace
  = Raise (SystemExit 2
             (basename "main.py" +:+ ": error: the following arguments are required: source"
              +:+ String "010" "")).
Proof.
  apply (flags_alone_miss_the_source "main.py" ["-v"; "--verbose"]).
  - constructor; [by exists "-v" |]. constructor; [by exists "--verbose" | constructor].
  - intros Hin. repeat (apply elem_of_cons in Hin as [Hin|Hin]; [discriminate Hin |]).
    by apply elem_of_nil in Hin.
Defined.

(** ** The parsing loop looks up option strings only *)

Section Strict.
Context (parser : ArgumentParser) (arg_strings : list string)
        (classes : list arg_class).
Context (R : gmap string value → list Action → gmap string value → list Action → Prop)
        (A : Action → Prop) (E : exn → Prop).
Hypothesis take_action_related : ∀ st1 st2 a args,
  A a → related R A st1 st2 →
  agree E (related R A) (take_action st1 a args) (take_action st2 a args).
Hypothesis classes_A : ∀ i a s e,
  assoc i (option_string_indices classes) = Some (Some a, s, e) → A a.
Hypothesis short_options_A : chains classes → ∀ c0 c a,
  assoc (String c0 (String c "")) (option_string_actions parser) = Some a → A a.
Hypothesis E_ArgumentError : ∀ a msg, A a → E (ArgumentError (get_action_name a) msg).

(** [consume_optional] at the index of an option string:
    [option_string_indices[start_index]] is there. *)
Lemma consume_optional_related_at start st1 st2 :
  is_option_at classes start →
  related R A st1 st2 →
  agree E (related_at R A)
    (consume_optional parser arg_strings classes start st1)
    (consume_optional parser arg_strings classes start st2).
Proof.
  intros [t Ht] Hrel. unfold consume_optional.
  assert (assoc start (option_string_indices classes) = Some t) as Hidx.
  { by rewrite assoc_option_string_indices, Ht. }
  rewrite Hidx. destruct t as [[[a|] s] e]; simpl.
  - assert (A a) as Ha by (by eapply classes_A).
    eapply agree_bind.
    { destruct e.
      - apply consume_optional_explicit_ok; [done | done | done | done |].
        intros Hzero. by eexists _, _, _, _.
      - by apply consume_optional_following_ok. }
    intros [tuples stop] ? [<- Hok]. simpl.
    eapply agree_bind; [by apply take_actions_related |].
    intros st1' st2' Hrel'. by split.
  - split; [done |]. simpl.
    destruct Hrel as (HR & Hex & Hpos & HA). rewrite Hex, Hpos.
    repeat split; try done. by rewrite <- Hpos.
Qed.

(** The loop with one unit of fuel more than there are argument strings:
    every exception is one of [take_action] or of the matching of the
    arguments. *)
Lemma consume_loop_related_strict fuel : ∀ start st1 st2,
  (length classes < fuel + start)%nat →
  related R A st1 st2 →
  agree E (related_at R A)
    (consume_loop parser arg_strings classes fuel start st1)
    (consume_loop parser arg_strings classes fuel start st2).
Proof.
  pose proof (max_option_string_index_lt classes) as Hmax.
  induction fuel as [|fuel IH]; intros start st1 st2 Hfuel Hrel; simpl.
  - destruct (Z.leb_spec (Z.of_nat start) (max_option_string_index classes));
      [lia | split; [reflexivity | exact Hrel]].
  - destruct (Z.leb_spec (Z.of_nat start) (max_option_string_index classes)) as [Hle|];
      [| split; [reflexivity | exact Hrel]].
    destruct (next_option_string_index_exists classes start Hle) as (i & Hi & Hsi).
    destruct (next_option_string_index_spec classes start i Hi Hsi) as [Hnext Hopt].
    eapply agree_bind with
      (Q := λ r1 r2 : bool * nat * state,
              r1 = (r2.1, r1.2) ∧ related R A r1.2 r2.2
              ∧ (if r1.1.1 then start < r1.1.2 else start = r1.1.2)%nat).
    { case_bool_decide; simpl; [| split; [reflexivity | split; [exact Hrel | done]]].
      eapply agree_bind_eq; [by apply consume_positionals_related |].
      intros [i1 st1'] [i2 st2'] Hp _ [Hi' Hrel']. simpl in *. subst.
      apply consume_positionals_index in Hp. simpl in Hp.
      split; [reflexivity | split; [exact Hrel' |]]. simpl.
      case_bool_decide; lia. }
    intros [[c1 i1] st1'] [[c2 i2] st2'] (Heq & Hrel' & Hidx). simpl in *.
    injection Heq as <- <-.
    destruct c1; [apply IH; [lia | done] |]. subst i1.
    assert (∀ k st1'' st2'', (start ≤ k)%nat → is_option_at classes k →
              related R A st1'' st2'' →
              agree E (related_at R A)
                (consume_optional parser arg_strings classes k st1'' ≫=
                   λ '(start_index, st), consume_loop parser arg_strings classes fuel start_index st)
                (consume_optional parser arg_strings classes k st2'' ≫=
                   λ '(start_index, st), consume_loop parser arg_strings classes fuel start_index st))
      as Hstep.
    { intros k st1'' st2'' Hk Hoptk Hrel''.
      eapply agree_bind_eq; [by apply consume_optional_related_at |].
      intros [j1 s1] [j2 s2] Ho _ [Hj Hs]. simpl in *. subst.
      apply IH; [| done].
      apply consume_optional_index in Ho; simpl in Ho; lia. }
    case_bool_decide as Hnone.
    + apply Hstep; [lia | done |].
      destruct Hrel' as (HR' & Hex' & Hpos' & HA').
      repeat split; simpl; try done. by rewrite Hex'.
    + apply Hstep; [done | | done].
      rewrite assoc_option_string_indices in Hnone.
      destruct (classes !! start) as [[t| |]|] eqn:Hc; try done. by exists t.
Qed.

Lemma run_related_strict st1 st2 :
  length classes = length arg_strings →
  related R A st1 st2 →
  agree E (related_at R A)
    (run parser arg_strings classes st1) (run parser arg_strings classes st2).
Proof.
  intros Hlen Hrel. unfold run. eapply agree_bind.
  - apply consume_loop_related_strict; [lia | done].
  - intros [i1 s1] [i2 s2] [Hi Hst]. simpl in *. subst.
    by apply consume_positionals_related.
Qed.
End Strict.

(** ** validators.py on every command line *)

Section ValidatorsRun.
Context (fs : Validators.filesystem).

Definition validators_actions : list Action :=
  [help_action; source_directory_action fs; validators_files_action fs].

(** The file type that the converter of an action asks for. *)
Definition wanted (a : Action) : Validators.file_type :=
  if String.eqb (dest a) "files" then Validators.RegularFile else Validators.Directory.

Lemma validators_get_value a s v :
  a ∈ [source_directory_action fs; validators_files_action fs] →
  get_value a s = Ok v → v = VPath s ∧ fs s = Some (wanted a).
Proof.
  intros Ha. unfold get_value.
  repeat (apply elem_of_cons in Ha as [->|Ha]); [| | by apply elem_of_nil in Ha];
    cbn [type source_directory_action validators_files_action type_call].
  - unfold Validators.directory, Validators.os_path_isdir.
    destruct (negb (Validators.os_path_exists fs s)); [done |].
    case_bool_decide; simpl; [| done]. by intros ?; simplify_eq.
  - unfold Validators.file, Validators.os_path_isfile.
    destruct (negb (Validators.os_path_exists fs s)); [done |].
    case_bool_decide; simpl; [| done]. by intros ?; simplify_eq.
Qed.

Lemma validators_mapM_get_value a l vs :
  a ∈ [source_directory_action fs; validators_files_action fs] →
  mapM (get_value a) l = Ok vs →
  Forall (λ x, ∃ p, x = VPath p ∧ fs p = Some (wanted a)) vs.
Proof.
  intros Ha. revert vs. induction l as [|s l IH]; intros vs; cbn [mapM].
  - intros ?; simplify_eq. constructor.
  - destruct (get_value a s) as [v|] eqn:Hv; cbn [mbind result_bind]; [| done].
    destruct (mapM (get_value a) l) as [vs'|]; cbn [mbind result_bind]; [| done].
    intros ?; simplify_eq.
    destruct (validators_get_value a s v Ha Hv) as [-> Hs].
    constructor; [by exists s | by apply IH].
Qed.

(** Every value that [_get_values] returns for a positional of
    validators.py went through its converter. *)
Lemma validators_get_values a args v :
  a ∈ [source_directory_action fs; validators_files_action fs] →
  get_values a args = Ok v → validated fs (wanted a) v.
Proof.
  intros Ha. unfold get_values.
  rewrite bool_decide_eq_false_2.
  2:{ intros [_ H].
      repeat (apply elem_of_cons in Ha as [->|Ha]); [| | by apply elem_of_nil in Ha];
        discriminate H. }
  rewrite bool_decide_eq_false_2.
  2:{ intros (_ & H & _).
      repeat (apply elem_of_cons in Ha as [->|Ha]); [| | by apply elem_of_nil in Ha];
        discriminate H. }
  assert (∀ l, (mapM (get_value a) l ≫= λ vs,
                  mapM (check_value a) vs ≫= λ _, Ok (VList vs)) = Ok v →
               validated fs (wanted a) v) as Hlist.
  { intros l. destruct (mapM (get_value a) l) as [vs|] eqn:Hvs;
      cbn [mbind result_bind]; [| done].
    destruct (mapM (check_value a) vs); cbn [mbind result_bind]; [| done].
    intros ?; simplify_eq. by eapply validators_mapM_get_value. }
  destruct (remove_first "--" args) as [|s [|]]; try apply Hlist.
  destruct (bool_decide _); [| apply Hlist].
  destruct (get_value a s) as [w|] eqn:Hw; cbn [mbind result_bind]; [| done].
  destruct (check_value a w); cbn [mbind result_bind]; [| done].
  intros ?; simplify_eq.
  by destruct (validators_get_value a s v Ha Hw) as [-> Hs].
Qed.

Lemma validators_get_values_raises a args e :
  a ∈ validators_actions → get_values a args = Raise e → validators_exn e.
Proof.
  intros Ha. apply get_values_raises.
  - intros msg. unfold validators_actions in Ha.
    repeat (apply elem_of_cons in Ha as [->|Ha]); [| | | by apply elem_of_nil in Ha];
      simpl; set_solver.
  - intros f s e' Hty Hcall. left.
    unfold validators_actions in Ha.
    repeat (apply elem_of_cons in Ha as [->|Ha]); [| | | by apply elem_of_nil in Ha];
      cbn [type help_action source_directory_action validators_files_action] in Hty;
      simplify_eq; cbn [type_call] in Hcall.
    + destruct (directory_fails fs s) as [msg Hmsg].
      { intros Hd. by rewrite (directory_returns fs s Hd) in Hcall. }
      rewrite Hmsg in Hcall. simplify_eq. by eexists.
    + destruct (file_fails fs s) as [msg Hmsg].
      { intros Hd. by rewrite (file_returns fs s Hd) in Hcall. }
      rewrite Hmsg in Hcall. simplify_eq. by eexists.
Qed.

Lemma wanted_cases a b :
  a ∈ validators_actions →
  b ∈ [source_directory_action fs; validators_files_action fs] →
  (a = b ∧ action_eqb b a = true) ∨ (dest b ≠ dest a ∧ action_eqb b a = false).
Proof.
  intros Ha Hb. unfold validators_actions in Ha.
  repeat (apply elem_of_cons in Ha as [->|Ha]); [| | | by apply elem_of_nil in Ha];
    (repeat (apply elem_of_cons in Hb as [->|Hb]); [| | by apply elem_of_nil in Hb]);
    first [ by left | by right ].
Qed.

(** The invariant of the parsing loop: the two attributes are there, and
    an attribute whose argument was seen holds validated paths. *)
Definition keeps_validated (ns : gmap string value) (seen : list Action)
    (ns' : gmap string value) (seen' : list Action) : Prop :=
  ns = ns' ∧ seen = seen' ∧ dom ns = validators_dests
  ∧ ∀ b, b ∈ [source_directory_action fs; validators_files_action fs] →
         action_in b seen = true →
         ∃ v, ns !! dest b = Some v ∧ validated fs (wanted b) v.

Lemma validators_take_action st1 st2 a args :
  a ∈ validators_actions →
  related keeps_validated (.∈ validators_actions) st1 st2 →
  agree validators_exn (related keeps_validated (.∈ validators_actions))
    (take_action st1 a args) (take_action st2 a args).
Proof.
  intros Ha ((Hns & Hseen & Hd & Hval) & Hex & Hp & HA).
  assert (a = help_action ∨ a ∈ [source_directory_action fs; validators_files_action fs])
    as Hcase.
  { unfold validators_actions in Ha. apply elem_of_cons in Ha as [->|Ha]; auto. }
  apply take_action_agree.
  - intros e. by apply validators_get_values_raises.
  - done.
  - intros v Hv ->. destruct Hcase as [->|Hin].
    + repeat split; simpl; try done; [by rewrite Hseen |].
      intros b Hb. destruct (wanted_cases help_action b Ha Hb) as [[<- _]|[_ ->]].
      * exfalso. repeat (apply elem_of_cons in Hb as [Hb|Hb]); try done.
        by apply elem_of_nil in Hb.
      * simpl. by apply Hval.
    + by apply (validators_get_values a args _ Hin) in Hv.
  - intros v Hv Hs Hcls w. destruct Hcase as [->|Hin]; [done |].
    assert (w = v) as ->.
    { subst w. repeat (apply elem_of_cons in Hin as [->|Hin]); try done.
      by apply elem_of_nil in Hin. }
    apply (validators_get_values a args _ Hin) in Hv.
    repeat split; simpl; try done.
    + by rewrite Hns.
    + by rewrite Hseen.
    + rewrite dom_insert_L, Hd.
      apply subseteq_union_1_L, singleton_subseteq_l.
      repeat (apply elem_of_cons in Hin as [->|Hin]); [| | by apply elem_of_nil in Hin];
        simpl; unfold validators_dests; set_solver.
    + intros b Hb. destruct (wanted_cases a b Ha Hb) as [[<- _]|[Hne ->]].
      * intros _. exists v. by rewrite lookup_insert_eq.
      * simpl. intros Hseen'. rewrite lookup_insert_ne by done. by apply Hval.
Qed.

Context (prog : string) (arg_strings : list string) (classes : list arg_class).
Hypothesis classified : classify (validators_parser fs prog) arg_strings = Ok classes.

Lemma validators_run st :
  related keeps_validated (.∈ validators_actions) st st →
  match run (validators_parser fs prog) arg_strings classes st with
  | Ok (_, st') => related keeps_validated (.∈ validators_actions) st' st'
  | Raise e => validators_exn e
  end.
Proof.
  intros Hrel.
  pose proof (classify_spec (validators_parser fs prog) arg_strings) as Hc.
  rewrite classified in Hc. destruct Hc as [Hlen Hcls].
  assert (agree validators_exn (related_at keeps_validated (.∈ validators_actions))
            (run (validators_parser fs prog) arg_strings classes st)
            (run (validators_parser fs prog) arg_strings classes st)) as Hrun.
  { apply run_related_strict; try done.
    - apply validators_take_action.
    - intros i a s e. rewrite assoc_option_string_indices.
      destruct (classes !! i) as [[t| |]|] eqn:Hi; try done. intros ?; simplify_eq.
      eapply Hcls. by eapply list_elem_of_lookup_2.
    - intros _ c0 c a. apply assoc_option_string_actions.
    - intros a msg Ha. unfold validators_actions in Ha.
      repeat (apply elem_of_cons in Ha as [->|Ha]); [| | | by apply elem_of_nil in Ha];
        simpl; repeat first [apply list_elem_of_here | apply list_elem_of_further]. }
  destruct (run _ _ _ st) as [[i st']|e]; simpl in *.
  - by destruct Hrun as [_ ?].
  - by destruct Hrun as [_ ?].
Qed.
End ValidatorsRun.

Lemma validators_finish fs seen ns :
  foldM (convert_default seen) ([], ns) (validators_actions fs)
  = Ok ((if action_in (source_directory_action fs) seen then [] else ["source_directory"])
        ++ (if action_in (validators_files_action fs) seen then [] else ["files"]), ns).
Proof.
  unfold validators_actions. cbn [foldM].
  assert (convert_default seen ([], ns) help_action = Ok ([], ns)) as ->.
  { unfold convert_default. by destruct (action_in help_action seen). }
  cbn [mbind result_bind]. unfold convert_default.
  destruct (action_in (source_directory_action fs) seen);
    destruct (action_in (validators_files_action fs) seen); reflexivity.
Qed.

(** X16 (validators.py, [setup_parser] and [main]): whatever the command
    line and the file system, [main] of validators.py either prints a
    namespace with exactly [source_directory] and [files], both holding
    paths that passed [directory] and [file], or exits with status 0 (help)
    or with status 2 and one error line; no exception of another kind
    leaves it. *)
Theorem validators_main_outcome (fs : Validators.filesystem) (argv0 : string)
    (args : list string) :
  validators_outcome fs (basename argv0) (Validators.main fs (argv0 :: args)).
Proof.
  unfold Validators.main, Validators.setup_parser. simpl List.hd. simpl List.tl.
  rewrite validators_build_parser_eq. cbn [mbind result_bind].
  set (prog := basename argv0).
  unfold parse_args, parse_known_args, _parse_known_args.
  change (actions (validators_parser fs prog)) with (validators_actions fs).
  change (foldl add_default ∅ (validators_actions fs))
    with ({[ "source_directory" := VNone; "files" := VNone ]} : gmap string value).
  pose proof (classify_spec (validators_parser fs prog) args) as Hc.
  destruct (classify (validators_parser fs prog) args) as [classes|e] eqn:Hclass;
    cbn [mbind result_bind].
  2:{ destruct Hc as [detail ->]. right. split; [done |]. by eexists. }
  assert (∀ (e : exn) (k : gmap string value * list string → result (gmap string value)),
            validators_exn e →
            validators_outcome fs prog
              (match Raise e with
               | Raise (ArgumentError argument_name message) =>
                   error (validators_parser fs prog) (ArgumentError_str argument_name message)
               | r => r
               end ≫= k)) as Hexn.
  { intros [| | |[n|]| |] k; try done; simpl.
    - intros _. right. split; [done |]. by eexists.
    - intros [-> ->]. by left. }
  pose proof (validators_run fs prog args classes Hclass
                (mkState {[ "source_directory" := VNone; "files" := VNone ]} [] []
                         (get_positional_actions (validators_parser fs prog)))) as Hrun.
  unfold run in Hrun.
  destruct (consume_loop _ _ _ _ _ _) as [[i st]|e] eqn:Hloop;
    cbn [mbind result_bind] in *.
  2:{ apply Hexn, Hrun. repeat split; try done. by repeat constructor. }
  destruct (consume_positionals _ _ _ _) as [[j st']|e] eqn:Hpos;
    cbn [mbind result_bind] in *.
  2:{ apply Hexn, Hrun. repeat split; try done. by repeat constructor. }
  destruct Hrun as ((_ & _ & Hdom & Hval) & _).
  { repeat split; try done. by repeat constructor. }
  rewrite validators_finish. cbn [mbind result_bind].
  destruct (action_in (source_directory_action fs) (seen_actions st')) eqn:Hsd.
  2:{ rewrite bool_decide_eq_true_2 by (by destruct (action_in _ _)).
      right. split; [done |]. by eexists. }
  destruct (action_in (validators_files_action fs) (seen_actions st')) eqn:Hfiles.
  2:{ rewrite bool_decide_eq_true_2 by done. right. split; [done |]. by eexists. }
  rewrite bool_decide_eq_false_2 by (intros H; by apply H).
  cbn [mbind result_bind].
  destruct (bool_decide (_ ≠ [])); cbn [mbind result_bind].
  { right. split; [done |]. by eexists. }
  split; [done |]. split.
  - apply (Hval (source_directory_action fs)); [apply list_elem_of_here | done].
  - apply (Hval (validators_files_action fs));
      [apply list_elem_of_further, list_elem_of_here | done].
Qed.

(** ** validators.py with positionals only *)

Lemma mapM_get_value_files fs (l : list string) :
  mapM (get_value (validators_files_action fs)) l
  = match first_not fs Validators.RegularFile l with
    | None => Ok (VPath <$> l)
    | Some p => Raise (invalid_file p)
    end.
Proof.
  induction l as [|p l IH]; [done |]. cbn [mapM first_not].
  case_bool_decide as Hp.
  - assert (get_value (validators_files_action fs) p = Ok (VPath p)) as ->.
    { unfold get_value. cbn [type validators_files_action type_call].
      by rewrite file_returns. }
    cbn [mbind result_bind]. rewrite IH. by destruct (first_not _ _ l).
  - destruct (file_fails fs p Hp) as [msg Hmsg].
    by rewrite (get_value_files fs p msg Hmsg).
Qed.

Lemma get_values_files_list fs (l : list string) :
  "--" ∉ l →
  get_values (validators_files_action fs) l
  = match first_not fs Validators.RegularFile l with
    | None => Ok (VList (VPath <$> l))
    | Some p => Raise (invalid_file p)
    end.
Proof.
  intros Hl. unfold get_values. rewrite remove_first_absent by done.
  rewrite bool_decide_eq_false_2 by (by intros [_ ?]).
  rewrite bool_decide_eq_false_2 by (by intros (_ & ? & _)).
  rewrite bool_decide_eq_false_2 by (by intros [?|?]).
  assert ((vs ← mapM (get_value (validators_files_action fs)) l;
           _ ← mapM (check_value (validators_files_action fs)) vs; Ok (VList vs))
          = match first_not fs Validators.RegularFile l with
            | None => Ok (VList (VPath <$> l))
            | Some p => Raise (invalid_file p)
            end) as Hlist.
  { rewrite mapM_get_value_files. destruct (first_not _ _ l); [done |].
    cbn [mbind result_bind].
    destruct (mapM_check_value_any (validators_files_action fs) (VPath <$> l) eq_refl)
      as [us ->].
    done. }
  by destruct l as [|x [|y l]].
Qed.

(** [source_directory] takes the first string and [files] all the others. *)
Lemma match_arguments_partial_validators fs (n : nat) :
  match_arguments_partial [source_directory_action fs; validators_files_action fs]
    (replicate (S (S n)) PA)
  = [1; S n]%nat.
Proof.
  unfold match_arguments_partial. cbn [length match_arguments_partial_upto take fmap list_fmap].
  change (get_nargs_pattern (source_directory_action fs))
    with [ReStar [PDash]; ReChar PA; ReStar [PDash]].
  change (get_nargs_pattern (validators_files_action fs))
    with [ReStar [PDash]; ReChar PA; ReStar [PA; PDash]].
  assert (group_matches [ReStar [PDash]; ReChar PA; ReStar [PDash]] (replicate (S (S n)) PA)
          = [1%nat]) as Hfirst by reflexivity.
  assert (re_match [[ReStar [PDash]; ReChar PA; ReStar [PA; PDash]]] (replicate (S n) PA)
          = Some [S n]) as Hsecond.
  { cbn [re_match group_matches item_matches replicate count_prefix].
    rewrite bool_decide_eq_false_2 by (by intros ?%list_elem_of_singleton).
    cbn [countdown mbind list_bind drop]. cbn [item_matches].
    rewrite bool_decide_eq_true_2 by done.
    cbn [mbind list_bind drop]. cbn [group_matches item_matches]. rewrite drop_0.
    rewrite count_prefix_replicate by apply list_elem_of_here.
    destruct (countdown_head n) as [l ->].
    cbn [mbind list_bind fmap list_fmap app first_some re_match].
    by rewrite Nat.add_0_r. }
  cbn [re_match]. rewrite Hfirst. cbn [first_some].
  change (drop 1 (replicate (S (S n)) PA)) with (replicate (S n) PA).
  cbn [re_match] in Hsecond. by rewrite Hsecond.
Qed.

(** X17 (validators.py): on a command line of two or more strings that are
    not read as options, the first is checked as a directory, then the
    others as files from left to right; the namespace holds all of them in
    order, or the error names the first path that fails (shown by [repr],
    which the model has for ASCII paths). *)
Theorem validators_positional_paths (fs : Validators.filesystem)
    (argv0 d f : string) (files : list string) :
  Forall (positional_token (validators_parser fs (basename argv0))) (d :: f :: files) →
  if bool_decide (fs d = Some Validators.Directory) then
    match first_not fs Validators.RegularFile (f :: files) with
    | None =>
        Validators.main fs (argv0 :: d :: f :: files)
        = Ok (validators_namespace d (f :: files))
    | Some p =>
        Py.isascii p = true →
        Validators.main fs (argv0 :: d :: f :: files)
        = Raise (validators_error (basename argv0) "files" "file" p)
    end
  else
    Py.isascii d = true →
    Validators.main fs (argv0 :: d :: f :: files)
    = Raise (validators_error (basename argv0) "source_directory" "directory" d).
Proof.
  intros Hall.
  assert (Validators.main fs (argv0 :: d :: f :: files)
          = if bool_decide (fs d = Some Validators.Directory) then
              match first_not fs Validators.RegularFile (f :: files) with
              | None => Ok (validators_namespace d (f :: files))
              | Some p => Raise (validators_error (basename argv0) "files" "file" p)
              end
            else Raise (validators_error (basename argv0) "source_directory"
                          "directory" d)) as Hmain.
  {
    pose proof (classify_positionals _ _ Hall) as Hclass.
    inversion Hall as [|? ? [Hd _] Hall']; subst.
    pose proof (positional_tokens_no_dashdash _ _ Hall') as Hfiles.
    unfold Validators.main, Validators.setup_parser. simpl List.hd. simpl List.tl.
    rewrite validators_build_parser_eq. cbn [mbind result_bind].
    unfold parse_args, parse_known_args, _parse_known_args.
    rewrite Hclass. cbn [mbind result_bind].
    rewrite consume_loop_no_options by apply max_option_string_index_arguments.
    cbn [mbind result_bind].
    change (get_positional_actions (validators_parser fs (basename argv0)))
      with [source_directory_action fs; validators_files_action fs].
    change (foldl add_default ∅ (actions (validators_parser fs (basename argv0))))
      with ({[ "source_directory" := VNone; "files" := VNone ]} : gmap string value).
    unfold consume_positionals. cbn [positionals].
    unfold arg_strings_pattern. rewrite fmap_replicate. cbn [pat_of length]. rewrite !drop_0.
    rewrite match_arguments_partial_validators.
    cbn [zip zip_with foldM].
    change (take 1 (drop 0 (d :: f :: files))) with [d].
    case_bool_decide as Hdir.
    2:{ rewrite (take_action_raises _ _ _ _ (get_values_source_directory_fails fs d Hd Hdir)).
        reflexivity. }
    rewrite (take_action_store _ _ _ _ (get_values_source_directory_ok fs d Hd Hdir)) by done.
    cbn [mbind result_bind].
    change (drop (0 + 1) (d :: f :: files)) with (f :: files).
    rewrite (take_ge (f :: files)) by (simpl; lia).
    pose proof (get_values_files_list fs (f :: files) Hfiles) as Hv.
    destruct (first_not fs Validators.RegularFile (f :: files)) as [p|].
    { rewrite (take_action_raises _ _ _ _ Hv). reflexivity. }
    rewrite (take_action_store _ _ _ _ Hv) by done.
    cbn [mbind result_bind]. cbn [seen_actions namespace extras].
    change (actions (validators_parser fs (basename argv0))) with (validators_actions fs).
    rewrite validators_finish. cbn [mbind result_bind].
    change (drop (0 + 1 + S (length files)) (d :: f :: files))
      with (drop (length files) files).
    rewrite drop_all.
    reflexivity.
  }
  revert Hmain. destruct (bool_decide (fs d = Some Validators.Directory)).
  - destruct (first_not fs Validators.RegularFile (f :: files)); by intros ->.
  - by intros ->.
Qed.

Lemma validators_positional_paths_witness :
  Validators.main example_fs ["validators.py"; "."; "main.py"; "main.py"; "."]
  = Raise (validators_error "validators.py" "files" "file" ".").
Proof.
  assert (Forall (positional_token (validators_parser example_fs (basename "validators.py")))
            ["."; "main.py"; "main.py"; "."]) as Hall.
  { repeat (constructor; [by apply positional_token_no_dash |]). constructor. }
  exact (validators_positional_paths example_fs "validators.py" "." "main.py"
           ["main.py"; "."] Hall eq_refl).
Defined.

(** X18 (validators.py): without arguments both positionals are reported
    as required; with one string that is not read as an option, the string
    is first checked as a directory, and only a valid directory leads to
    the report that [files] is required (the other error shows the path by
    [repr], which the model has for ASCII paths). *)
Theorem validators_missing_arguments (fs : Validators.filesystem) (argv0 d : string) :
  positional_token (validators_parser fs (basename argv0)) d →
  Validators.main fs [argv0]
  = Raise (validators_required (basename argv0) "source_directory, files")
  ∧ if bool_decide (fs d = Some Validators.Directory) then
      Validators.main fs [argv0; d]
      = Raise (validators_required (basename argv0) "files")
    else
      Py.isascii d = true →
      Validators.main fs [argv0; d]
      = Raise (validators_error (basename argv0) "source_directory" "directory" d).
Proof.
  intros Htoken. split; [reflexivity |].
  assert (Validators.main fs [argv0; d]
          = if bool_decide (fs d = Some Validators.Directory) then
              Raise (validators_required (basename argv0) "files")
            else Raise (validators_error (basename argv0) "source_directory"
                          "directory" d)) as Hmain.
  {
    assert (Forall (positional_token (validators_parser fs (basename argv0))) [d]) as Hall.
    { constructor; [done | constructor]. }
    pose proof (classify_positionals _ _ Hall) as Hclass.
    destruct Htoken as [Hd _].
    unfold Validators.main, Validators.setup_parser. simpl List.hd. simpl List.tl.
    rewrite validators_build_parser_eq. cbn [mbind result_bind].
    unfold parse_args, parse_known_args, _parse_known_args.
    rewrite Hclass. cbn [mbind result_bind].
    rewrite consume_loop_no_options by reflexivity.
    cbn [mbind result_bind].
    change (get_positional_actions (validators_parser fs (basename argv0)))
      with [source_directory_action fs; validators_files_action fs].
    change (foldl add_default ∅ (actions (validators_parser fs (basename argv0))))
      with ({[ "source_directory" := VNone; "files" := VNone ]} : gmap string value).
    unfold consume_positionals. cbn [positionals].
    change (match_arguments_partial _ _) with [1%nat].
    cbn [zip zip_with foldM].
    change (take 1 (drop 0 [d])) with [d].
    case_bool_decide as Hdir.
    2:{ rewrite (take_action_raises _ _ _ _ (get_values_source_directory_fails fs d Hd Hdir)).
        reflexivity. }
    rewrite (take_action_store _ _ _ _ (get_values_source_directory_ok fs d Hd Hdir)) by done.
    cbn [mbind result_bind]. cbn [seen_actions namespace extras].
    change (actions (validators_parser fs (basename argv0))) with (validators_actions fs).
    rewrite validators_finish.
    reflexivity.
  }
  revert Hmain. destruct (bool_decide (fs d = Some Validators.Directory)); by intros ->.
Qed.

Lemma validators_missing_arguments_witness :
  (Validators.main example_fs ["validators.py"]
   = Raise (validators_required "validators.py" "source_directory, files")
   ∧ Validators.main example_fs ["validators.py"; "."]
     = Raise (validators_required "validators.py" "files"))
  ∧ Validators.main example_fs ["validators.py"; "nonexistent"]
    = Raise (validators_error "validators.py" "source_directory" "directory" "nonexistent").
Proof.
  split.
  - apply (validators_missing_arguments example_fs "validators.py" ".").
    by apply positional_token_no_dash.
  - exact (proj2 (validators_missing_arguments example_fs "validators.py" "nonexistent"
                    (positional_token_no_dash _ "nonexistent" ltac:(done))) eq_refl).
Defined.
